(** * People counter of app.py: tracking, line crossing and tallies

    A shallow embedding of [MediaPipePeopleCounter] and of the totals of
    [LectureHallMonitor] (src/app.py).  The camera, the pose detector and
    the drawing calls are outside the model: what the detector returns for a
    frame is an input of [process_frame], and [update_tracking] takes the
    list of detected positions it is called with.

    Python integers are [Z].  The registry [tracked_people] is a Python
    dict; its iteration order (insertion order) decides ties in the
    nearest-track search, so it is kept as an association list in insertion
    order, with the dict operations of module [PyDict]. *)

From Stdlib Require Import Reals Lra.
From Stdlib Require Import ZArith List Bool Lia String Sorted.
Import ListNotations.

#[local] Open Scope Z_scope.

(** ** Python dict with integer keys, in insertion order *)

Module PyDict.

Section Ops.
Context {V : Type}.

Definition t := list (Z * V).

Definition keys (d : t) : list Z := map fst d.

(** [d[k]] (None models KeyError) *)
Fixpoint get (k : Z) (d : t) : option V :=
  match d with
  | [] => None
  | (k', v) :: d' => if k' =? k then Some v else get k d'
  end.

(** in-place change of the value stored under [k]: [d[k][field] = ...] *)
Fixpoint update (k : Z) (f : V -> V) (d : t) : t :=
  match d with
  | [] => []
  | (k', v) :: d' =>
      if k' =? k then (k', f v) :: update k f d'
      else (k', v) :: update k f d'
  end.

(** [d[k] = v]: an existing key keeps its place, a new key goes last *)
Fixpoint set (k : Z) (v : V) (d : t) : t :=
  match d with
  | [] => [(k, v)]
  | (k', v') :: d' =>
      if k' =? k then (k', v) :: d' else (k', v') :: set k v d'
  end.

(** [del d[k]] *)
Fixpoint del (k : Z) (d : t) : t :=
  match d with
  | [] => []
  | (k', v) :: d' => if k' =? k then d' else (k', v) :: del k d'
  end.
End Ops.

Arguments t : clear implicits.

End PyDict.

(** ** Data model *)

(** The two values [get_side] returns: "top" and "bottom". *)
Inductive side := top | bottom.

Definition side_eqb (a b : side) : bool :=
  match a, b with
  | top, top | bottom, bottom => true
  | _, _ => false
  end.

(** A position is a pixel pair [(x, y)]. *)
Definition point : Type := Z * Z.

(** One value of [tracked_people]:
    [{'position', 'last_side', 'frames_since_crossing', 'frames_not_seen'}]. *)
Record track := mkTrack {
  position : point;
  last_side : side;
  frames_since_crossing : Z;
  frames_not_seen : Z
}.

Definition set_position (p : point) (t : track) : track :=
  mkTrack p (last_side t) (frames_since_crossing t) (frames_not_seen t).
Definition set_last_side (sd : side) (t : track) : track :=
  mkTrack (position t) sd (frames_since_crossing t) (frames_not_seen t).
Definition set_frames_since_crossing (n : Z) (t : track) : track :=
  mkTrack (position t) (last_side t) n (frames_not_seen t).
Definition set_frames_not_seen (n : Z) (t : track) : track :=
  mkTrack (position t) (last_side t) (frames_since_crossing t) n.

(** The attributes [__init__] sets once and no method assigns again. *)
Record config := mkConfig {
  door_name : string;
  url : string;
  entry_line : Z;
  direction : string;
  MATCH_DISTANCE : Z;
  DEBOUNCE_FRAMES : Z;
  MIN_DISTANCE_FROM_LINE : Z;
  MAX_FRAMES_NOT_SEEN : Z;
  PROCESS_EVERY_N_FRAMES : Z
}.

(** The mutable attributes of a [MediaPipePeopleCounter]. *)
Record counter := mkCounter {
  cfg : config;
  entries : Z;
  exits : Z;
  is_person_detected : bool;
  tracked_people : PyDict.t track;
  next_id : Z;
  frame_count : Z
}.

Definition with_tracks (d : PyDict.t track) (s : counter) : counter :=
  mkCounter (cfg s) (entries s) (exits s) (is_person_detected s) d
            (next_id s) (frame_count s).
Definition with_entries (n : Z) (s : counter) : counter :=
  mkCounter (cfg s) n (exits s) (is_person_detected s) (tracked_people s)
            (next_id s) (frame_count s).
Definition with_exits (n : Z) (s : counter) : counter :=
  mkCounter (cfg s) (entries s) n (is_person_detected s) (tracked_people s)
            (next_id s) (frame_count s).
Definition with_next_id (n : Z) (s : counter) : counter :=
  mkCounter (cfg s) (entries s) (exits s) (is_person_detected s)
            (tracked_people s) n (frame_count s).
Definition with_frame_count (n : Z) (s : counter) : counter :=
  mkCounter (cfg s) (entries s) (exits s) (is_person_detected s)
            (tracked_people s) (next_id s) n.
Definition with_detected (b : bool) (s : counter) : counter :=
  mkCounter (cfg s) (entries s) (exits s) b (tracked_people s)
            (next_id s) (frame_count s).
Definition with_cfg (c : config) (s : counter) : counter :=
  mkCounter c (entries s) (exits s) (is_person_detected s)
            (tracked_people s) (next_id s) (frame_count s).

(** [MediaPipePeopleCounter.__init__] *)
Definition init (name u : string) (line : Z) (dir : string) : counter :=
  mkCounter (mkConfig name u line dir 80 15 30 150 2) 0 0 false [] 0 0.

(** What [update_tracking] writes into a [person_dict]. *)
Inductive crossing_kind := entry | exit.

Record person := mkPerson {
  pos : point;
  id : option Z;
  crossing : option crossing_kind
}.

(** The lines [update_tracking] prints. *)
Inductive event :=
| EntryDetected (person_id total_in : Z)
| ExitDetected (person_id total_out : Z)
| CrossingBlocked (person_id frames_since : Z)
| NewPerson (person_id : Z)
| LostTrack (person_id : Z).

(** ** Operations *)

(** [get_side]: "bottom" if [y > entry_line] else "top". *)
Definition get_side (s : counter) (y : Z) : side :=
  if y >? entry_line (cfg s) then bottom else top.

(** The radicand of [np.sqrt((pos[0]-old_pos[0])**2 + (pos[1]-old_pos[1])**2)].
    The source compares square roots of such sums; the square root is
    strictly increasing, so the model compares the sums themselves (section
    [DistanceOrder] below states this over the reals). *)
Definition dist2 (p q : point) : Z :=
  (fst p - fst q) ^ 2 + (snd p - snd q) ^ 2.

(** The distance itself, over the reals. *)
Definition dist (p q : point) : R := sqrt (IZR (dist2 p q)).

(** The initial [min_dist = MATCH_DISTANCE], as a bound on [dist2]:
    no distance is below a threshold that is not positive. *)
Definition match_bound (s : counter) : Z :=
  Z.max 0 (MATCH_DISTANCE (cfg s)) ^ 2.

(** The loop "Find closest tracked person": [min_dist] (squared) and
    [matched_id] are the loop variables. *)
Fixpoint closest (p : point) (d : PyDict.t track)
         (min_dist : Z) (matched_id : option Z) : option Z :=
  match d with
  | [] => matched_id
  | (person_id, data) :: d' =>
      let dist := dist2 p (position data) in
      if dist <? min_dist then closest p d' dist (Some person_id)
      else closest p d' min_dist matched_id
  end.

Definition find_match (s : counter) (p : point) : option Z :=
  closest p (tracked_people s) (match_bound s) None.

(** The track a new person starts with. *)
Definition new_track (s : counter) (p : point) : track :=
  mkTrack p (get_side s (snd p)) 999 0.

(** What the loop over [detected_people] works on: the counter, the local
    set [current_ids], the [person_dict]s written so far and the lines
    printed so far.  The same record gives what one iteration adds. *)
Record tick := mkTick {
  st : counter;
  current_ids : list Z;
  people : list person;
  printed : list event
}.

(** The branch [matched_id is not None], for a track found under
    [matched_id] with data [t]. *)
Definition matched_step (s : counter) (matched_id : Z) (t : track)
           (p : point) : tick :=
  let old_side := last_side t in
  let new_side := get_side s (snd p) in
  let frames_since := frames_since_crossing t in
  let can_cross := frames_since >=? DEBOUNCE_FRAMES (cfg s) in
  let seen := PyDict.update matched_id (set_frames_not_seen 0) in
  let counted := PyDict.update matched_id (set_frames_since_crossing 0) in
  let moved :=
    PyDict.update matched_id
                  (fun t' => set_last_side new_side (set_position p t')) in
  if negb (side_eqb old_side new_side) && can_cross then
    match old_side, new_side with
    | top, bottom =>
        let s1 := with_entries (entries s + 1) s in
        mkTick (with_tracks (moved (counted (seen (tracked_people s)))) s1)
               [matched_id]
               [mkPerson p (Some matched_id) (Some entry)]
               [EntryDetected matched_id (entries s1)]
    | bottom, top =>
        let s1 := with_exits (exits s + 1) s in
        mkTick (with_tracks (moved (counted (seen (tracked_people s)))) s1)
               [matched_id]
               [mkPerson p (Some matched_id) (Some exit)]
               [ExitDetected matched_id (exits s1)]
    | _, _ =>
        mkTick (with_tracks (moved (seen (tracked_people s))) s)
               [matched_id] [mkPerson p (Some matched_id) None] []
    end
  else if negb (side_eqb old_side new_side) && negb can_cross then
    mkTick (with_tracks (moved (seen (tracked_people s))) s)
           [matched_id] [mkPerson p (Some matched_id) None]
           (if frame_count s mod 30 =? 0
            then [CrossingBlocked matched_id frames_since] else [])
  else
    mkTick (with_tracks (moved (seen (tracked_people s))) s)
           [matched_id] [mkPerson p (Some matched_id) None] [].

(** The branch "New person detected". *)
Definition new_step (s : counter) (p : point) : tick :=
  mkTick (with_next_id (next_id s + 1)
            (with_tracks
               (PyDict.set (next_id s) (new_track s p) (tracked_people s)) s))
         [next_id s]
         [mkPerson p (Some (next_id s)) None]
         [NewPerson (next_id s)].

(** One iteration of [for person_dict in detected_people].  The matched id
    is a key of the dict it was found in (lemma [find_match_get]), so the
    inner [None] branch, a KeyError in Python, is never taken. *)
Definition detect (s : counter) (p : point) : tick :=
  match find_match s p with
  | Some matched_id =>
      match PyDict.get matched_id (tracked_people s) with
      | Some t => matched_step s matched_id t p
      | None => mkTick s [] [] []
      end
  | None => new_step s p
  end.

Definition detect_tick (k : tick) (p : point) : tick :=
  let r := detect (st k) p in
  mkTick (st r) (current_ids k ++ current_ids r)
         (people k ++ people r) (printed k ++ printed r).

(** "Increment counters for all tracked people": the body of the loop,
    for one [person_id]. *)
Definition age_track (t : track) : track :=
  set_frames_not_seen (frames_not_seen t + 1)
    (set_frames_since_crossing (frames_since_crossing t + 1) t).

Definition age (s : counter) : counter :=
  with_tracks
    (fold_left (fun d person_id => PyDict.update person_id age_track d)
               (PyDict.keys (tracked_people s)) (tracked_people s)) s.

(** [person_id in current_ids] *)
Definition in_ids (k : Z) (ids : list Z) : bool := existsb (Z.eqb k) ids.

(** The test of the last loop: keep the track or not. *)
Definition keep (s : counter) (ids : list Z) (person_id : Z) (t : track) : bool :=
  in_ids person_id ids || (frames_not_seen t <? MAX_FRAMES_NOT_SEEN (cfg s)).

(** The body of the last loop; [cf] holds the configuration, which the
    loop does not change.  A key of the snapshot is still in the dict when
    its turn comes (each key is deleted at its own turn only), so the
    KeyError branch is never taken. *)
Definition expire_one (cf : counter) (ids : list Z)
           (acc : PyDict.t track * list event) (person_id : Z)
  : PyDict.t track * list event :=
  match PyDict.get person_id (fst acc) with
  | Some t =>
      if keep cf ids person_id t then acc
      else (PyDict.del person_id (fst acc), snd acc ++ [LostTrack person_id])
  | None => acc
  end.

(** The last loop, over [list(self.tracked_people.keys())]. *)
Definition expire (s : counter) (ids : list Z) : counter * list event :=
  let r := fold_left (expire_one s ids) (PyDict.keys (tracked_people s))
                     (tracked_people s, []) in
  (with_tracks (fst r) s, snd r).

(** The loop [for person_dict in detected_people], from loop state [k]. *)
Definition loop (k : tick) (detected_people : list point) : tick :=
  fold_left detect_tick detected_people k.

(** The first two loops of [update_tracking]: ageing, then the detections. *)
Definition detect_all (s : counter) (detected_people : list point) : tick :=
  loop (mkTick (age s) [] [] []) detected_people.

(** The result of one call of [update_tracking]. *)
Record outcome := mkOutcome {
  after : counter;
  dicts : list person;
  log : list event
}.

Definition update_tracking (s : counter) (detected_people : list point) : outcome :=
  let k := detect_all s detected_people in
  let '(s', lost) := expire (st k) (current_ids k) in
  mkOutcome s' (people k) (printed k ++ lost).

(** [reset] *)
Definition reset (s : counter) : counter :=
  with_next_id 0 (with_tracks [] (with_exits 0 (with_entries 0 s))).

(** [process_frame], without the drawing: [landmarks] is the nose position
    the pose detector finds in the frame, if it finds a person.  The result
    carries the new state, what [update_tracking] returned when it was
    called, and the [total_people] shown in the stats panel. *)
Definition process_frame (s : counter) (landmarks : option point)
  : counter * list person * list event * Z :=
  let s1 := with_frame_count (frame_count s + 1) s in
  let should_process :=
    frame_count s1 mod PROCESS_EVERY_N_FRAMES (cfg s1) =? 0 in
  let '(s2, detected_people, out) :=
    match should_process, landmarks with
    | true, Some center =>
        let o := update_tracking s1 [center] in
        (with_detected true (after o), dicts o, log o)
    | true, None => (with_detected false s1, [], [])
    | false, _ => (s1, [], [])
    end in
  let total_people := entries s2 - exits s2 in
  (s2, detected_people, out, total_people).

(** Python's [sum] over an iterable of integers. *)
Definition sum_ints (l : list Z) : Z := fold_left Z.add l 0.

(** [create_dashboard], "Add info panel": [total_in], [total_out] and
    [occupancy] over [self.counters.values()]. *)
Definition create_dashboard (counters : list counter) : Z * Z * Z :=
  let total_in := sum_ints (map entries counters) in
  let total_out := sum_ints (map exits counters) in
  let occupancy := total_in - total_out in
  (total_in, total_out, occupancy).

(** The status line of [run]: [sum(c.entries - c.exits for c in ...)]. *)
Definition status_total (counters : list counter) : Z :=
  sum_ints (map (fun c => entries c - exits c) counters).

(** A sequence of calls of [update_tracking], one per tick, with
    everything printed on the way. *)
Fixpoint run (s : counter) (ticks : list (list point)) : counter * list event :=
  match ticks with
  | [] => (s, [])
  | detected_people :: rest =>
      let o := update_tracking s detected_people in
      let '(s', out) := run (after o) rest in
      (s', log o ++ out)
  end.

(** A sequence of frames, with for each the position the detector finds
    in it, if any; the result lists the [total_people] shown on each. *)
Fixpoint play (s : counter) (frames : list (option point)) : counter * list Z :=
  match frames with
  | [] => (s, [])
  | landmarks :: rest =>
      let '(s', _, _, total_people) := process_frame s landmarks in
      let '(s'', shown) := play s' rest in
      (s'', total_people :: shown)
  end.

(** The same counter under another [direction] and another
    [MIN_DISTANCE_FROM_LINE]. *)
Definition reconfigure (dir : string) (min_dist : Z) (s : counter) : counter :=
  with_cfg (mkConfig (door_name (cfg s)) (url (cfg s)) (entry_line (cfg s)) dir
                     (MATCH_DISTANCE (cfg s)) (DEBOUNCE_FRAMES (cfg s)) min_dist
                     (MAX_FRAMES_NOT_SEEN (cfg s))
                     (PROCESS_EVERY_N_FRAMES (cfg s))) s.

Definition retick (dir : string) (min_dist : Z) (k : tick) : tick :=
  mkTick (reconfigure dir min_dist (st k)) (current_ids k) (people k) (printed k).

(** Two counters that differ at most in [direction] and
    [MIN_DISTANCE_FROM_LINE]. *)
Definition same_but_unused (s1 s2 : counter) : Prop :=
  door_name (cfg s1) = door_name (cfg s2) /\
  url (cfg s1) = url (cfg s2) /\
  entry_line (cfg s1) = entry_line (cfg s2) /\
  MATCH_DISTANCE (cfg s1) = MATCH_DISTANCE (cfg s2) /\
  DEBOUNCE_FRAMES (cfg s1) = DEBOUNCE_FRAMES (cfg s2) /\
  MAX_FRAMES_NOT_SEEN (cfg s1) = MAX_FRAMES_NOT_SEEN (cfg s2) /\
  PROCESS_EVERY_N_FRAMES (cfg s1) = PROCESS_EVERY_N_FRAMES (cfg s2) /\
  entries s1 = entries s2 /\ exits s1 = exits s2 /\
  is_person_detected s1 = is_person_detected s2 /\
  tracked_people s1 = tracked_people s2 /\
  next_id s1 = next_id s2 /\ frame_count s1 = frame_count s2.

(** Track [k] is bound to no detection, and not created, on any of the
    ticks. *)
Fixpoint unmatched (k : Z) (s : counter) (ticks : list (list point)) : bool :=
  match ticks with
  | [] => true
  | detected_people :: rest =>
      negb (in_ids k (current_ids (detect_all s detected_people)))
      && unmatched k (after (update_tracking s detected_people)) rest
  end.

(** The states a counter built by [__init__] as [s0] goes through:
    calls of [update_tracking], of [process_frame] and of [reset], in any
    order. *)
Inductive reachable (s0 : counter) : counter -> Prop :=
| reach_start : reachable s0 s0
| reach_update s l :
    reachable s0 s -> reachable s0 (after (update_tracking s l))
| reach_frame s landmarks :
    reachable s0 s ->
    reachable s0 (fst (fst (fst (process_frame s landmarks))))
| reach_reset s : reachable s0 s -> reachable s0 (reset s).

(** Door 1 of [DOOR_CONFIGS]. *)
Definition door1 : counter :=
  init "Door 1" "http://192.168.2.100:4747/video" 240 "horizontal".

(** Door 1 after a first tick with one person above the line, aged by the
    next tick. *)
Definition seen_above : counter :=
  age (after (update_tracking door1 [(100, 230)])).

(** ** Closed forms and invariants used in the proofs *)


(** What the first loop of [update_tracking] does to a dict with distinct
    keys. *)
Definition age_all (d : PyDict.t track) : PyDict.t track :=
  map (fun kv => (fst kv, age_track (snd kv))) d.

(** The test of the last loop on an item of the dict. *)
Definition kept (s : counter) (ids : list Z) (kv : Z * track) : bool :=
  keep s ids (fst kv) (snd kv).

(** The test "Check for crossing with debouncing" on the data of the
    matched track. *)
Definition crosses (s : counter) (t : track) (p : point) : bool :=
  negb (side_eqb (last_side t) (get_side s (snd p)))
  && (frames_since_crossing t >=? DEBOUNCE_FRAMES (cfg s)).

(** What the matched branch leaves under the matched id; [c] tells
    whether the crossing was counted. *)
Definition matched_track (s : counter) (p : point) (c : bool) (t : track) : track :=
  mkTrack p (get_side s (snd p)) (if c then 0 else frames_since_crossing t) 0.

(** The kind of a crossing that leaves side [old]. *)
Definition kind_from (old : side) : crossing_kind :=
  match old with top => entry | bottom => exit end.

(** The track id of a printed crossing, and of a printed creation. *)
Definition crossing_id (e : event) : option Z :=
  match e with
  | EntryDetected k _ | ExitDetected k _ => Some k
  | _ => None
  end.

Definition created_id (e : event) : option Z :=
  match e with NewPerson k => Some k | _ => None end.

Definition is_crossing_of (k : Z) (e : event) : bool :=
  match crossing_id e with Some k' => k' =? k | None => false end.

(** The crossings printed for track [k]. *)
Definition crossings_of (k : Z) (out : list event) : list event :=
  filter (is_crossing_of k) out.

(** All crossings printed. *)
Definition crossings (out : list event) : list event :=
  filter (fun e => match crossing_id e with Some _ => true | None => false end) out.

Definition is_entry (e : event) : bool :=
  match e with EntryDetected _ _ => true | _ => false end.

Definition is_exit (e : event) : bool :=
  match e with ExitDetected _ _ => true | _ => false end.

(** A [person_dict] with id [k] and a ['crossing'] key. *)
Definition marked (k : Z) (pd : person) : bool :=
  match id pd, crossing pd with
  | Some k', Some _ => k' =? k
  | _, _ => false
  end.

(** The ids handed out, in the order of the printed creations. *)
Fixpoint created (out : list event) : list Z :=
  match out with
  | [] => []
  | e :: out' =>
      match created_id e with
      | Some k => k :: created out'
      | None => created out'
      end
  end.

(** [nearest p d bound k t]: the item [(k, t)] of [d] is the first one, in
    iteration order, at the least distance from [p], and that distance is
    below [bound]. *)
Definition nearest (p : point) (d : PyDict.t track) (bound : Z)
           (k : Z) (t : track) : Prop :=
  exists d1 d2,
    d = d1 ++ (k, t) :: d2 /\
    dist2 p (position t) < bound /\
    Forall (fun kv => dist2 p (position t) < dist2 p (position (snd kv))) d1 /\
    Forall (fun kv => dist2 p (position t) <= dist2 p (position (snd kv))) d2.

(** The registry is a dict (distinct keys) and every id in it was handed
    out by the counter [next_id]. *)
Definition wf (s : counter) : Prop :=
  NoDup (PyDict.keys (tracked_people s)) /\
  Forall (fun k => k < next_id s) (PyDict.keys (tracked_people s)).

(** The invariant of the loop over the detections behind "at most one
    crossing per track and tick": [e0] and [x0] are the tallies at the start
    of the tick.  A track with a crossing on this tick has
    [frames_since_crossing = 0]. *)
Definition counted_once (e0 x0 : Z) (tk : tick) : Prop :=
  wf (st tk) /\
  entries (st tk) = e0 + Z.of_nat (List.length (filter is_entry (printed tk))) /\
  exits (st tk) = x0 + Z.of_nat (List.length (filter is_exit (printed tk))) /\
  forall k,
    (List.length (crossings_of k (printed tk)) <= 1)%nat /\
    List.length (filter (marked k) (people tk)) =
      List.length (crossings_of k (printed tk)) /\
    (crossings_of k (printed tk) <> [] ->
     exists t, PyDict.get k (tracked_people (st tk)) = Some t /\
               frames_since_crossing t = 0).

(** The ids of [l] grow strictly and lie in [lo, hi). *)
Definition ids_between (lo hi : Z) (l : list Z) : Prop :=
  StronglySorted Z.lt l /\ Forall (fun k => lo <= k < hi) l.

(** Every track created since [next_id] was [n0], and with no crossing
    among the lines [out] printed since, still has at least the 999 it was
    created with in [frames_since_crossing]. *)
Definition sentinel_kept (n0 : Z) (s : counter) (out : list event) : Prop :=
  forall k t,
    n0 <= k -> PyDict.get k (tracked_people s) = Some t ->
    crossings_of k out = [] -> 999 <= frames_since_crossing t.

(** ** The rest of app.py: the monitor of several doors *)

(** One entry of [DOOR_CONFIGS]: ["url"], ["entry_line"] and, when it is
    there, ["direction"]. *)
Record door_config := mkDoor {
  door_url : string;
  door_entry_line : Z;
  door_direction : option string
}.

(** [LectureHallMonitor.initialize]: [connect] tells for each door whether
    its camera opens.  The result is [self.counters], in the order of the
    configuration, and the value returned.  [door_configs] lists the items
    of a dict, so its door names are distinct. *)
Definition initialize (door_configs : list (string * door_config))
           (connect : string -> bool) : list (string * counter) * bool :=
  let counters :=
    flat_map
      (fun nc =>
         let counter :=
           init (fst nc) (door_url (snd nc)) (door_entry_line (snd nc))
                (match door_direction (snd nc) with
                 | Some d => d
                 | None => "horizontal"
                 end) in
         if connect (fst nc) then [(fst nc, counter)] else [])
      door_configs in
  (counters, (0 <? List.length counters)%nat).

(** What the loop of [run] does with the value of [cv2.waitKey(1)]:
    [key = waitKey & 0xFF], then [ord('q')] = 113 breaks and [ord('r')] =
    114 resets. *)
Inductive key_action := Quit | ResetAll | Continue.

Definition handle_key (waitKey : Z) : key_action :=
  let key := Z.land waitKey 255 in
  if key =? 113 then Quit
  else if key =? 114 then ResetAll
  else Continue.

(** The lines [run] prints that carry data; the fixed banners are left
    out.  [DoorLine] is a line of [update_tracking] for that door. *)
Inductive line :=
| DoorLine (door : string) (e : event)
| OccupancyLine (total : Z)
| CountersReset
| NoCamerasConnected
| FinalDoorLine (door : string) (ins outs : Z)
| FinalOccupancy (total : Z).

(** One door in the pass "Process each camera": [read] is [None] when
    [counter.cap.read()] gives [ret = False], else what the detector finds
    in the frame read. *)
Definition read_door (c : counter) (read : option (option point))
  : counter * list event :=
  match read with
  | Some landmarks =>
      let '(c', _, out, _) := process_frame c landmarks in (c', out)
  | None => (c, [])
  end.

(** The state of the loop of [run]: [self.counters] and the local
    [frame_count]. *)
Record monitor := mkMonitor {
  counters : list (string * counter);
  loop_frame_count : Z
}.

(** One turn of [while True]: the pass over the doors, the status line
    every 30 turns, the key.  The boolean tells whether the loop breaks. *)
Definition iteration (m : monitor) (reads : string -> option (option point))
           (waitKey : Z) : monitor * list line * bool :=
  let cs :=
    map (fun nc => (fst nc, fst (read_door (snd nc) (reads (fst nc)))))
        (counters m) in
  let out1 :=
    flat_map (fun nc => map (DoorLine (fst nc))
                            (snd (read_door (snd nc) (reads (fst nc)))))
             (counters m) in
  let frame_count := loop_frame_count m + 1 in
  let out2 :=
    if frame_count mod 30 =? 0
    then [OccupancyLine (status_total (map snd cs))] else [] in
  match handle_key waitKey with
  | Quit => (mkMonitor cs frame_count, out1 ++ out2, true)
  | ResetAll =>
      (mkMonitor (map (fun nc => (fst nc, reset (snd nc))) cs) frame_count,
       out1 ++ out2 ++ [CountersReset], false)
  | Continue => (mkMonitor cs frame_count, out1 ++ out2, false)
  end.

(** What a turn of the loop does to the counter of one door: the read,
    then the reset when the key asks for it. *)
Definition turn_door (read : option (option point)) (waitKey : Z)
           (c : counter) : counter :=
  let c' := fst (read_door c read) in
  match handle_key waitKey with
  | ResetAll => reset c'
  | _ => c'
  end.

(** The loop of [run] on the turns [inputs] tells of; the boolean is true
    when the loop was left by a quit key, false when [inputs] ran out
    first. *)
Fixpoint main_loop (m : monitor)
         (inputs : list ((string -> option (option point)) * Z))
  : monitor * list line * bool :=
  match inputs with
  | [] => (m, [], false)
  | (reads, waitKey) :: rest =>
      let '(m', out, stop) := iteration m reads waitKey in
      if stop then (m', out, true)
      else
        let '(m'', out', stop') := main_loop m' rest in
        (m'', out ++ out', stop')
  end.

(** "Final stats" *)
Definition final_stats (cs : list (string * counter)) : list line :=
  map (fun nc => FinalDoorLine (fst nc) (entries (snd nc)) (exits (snd nc))) cs
  ++ [FinalOccupancy (status_total (map snd cs))].

(** [LectureHallMonitor.run] *)
Definition monitor_run (door_configs : list (string * door_config))
           (connect : string -> bool)
           (inputs : list ((string -> option (option point)) * Z))
  : list line :=
  let '(cs, ok) := initialize door_configs connect in
  if negb ok then [NoCamerasConnected]
  else
    let '(m, out, stopped) := main_loop (mkMonitor cs 0) inputs in
    if stopped then out ++ final_stats (counters m) else out.

(** The states the loop of [run] takes the counter of a door through,
    from the counter [c0] that [initialize] built: calls of
    [process_frame] and of [reset], nothing else. *)
Inductive door_states (c0 : counter) : counter -> Prop :=
| door_start : door_states c0 c0
| door_frame c landmarks :
    door_states c0 c ->
    door_states c0 (fst (fst (fst (process_frame c landmarks))))
| door_reset c : door_states c0 c -> door_states c0 (reset c).

(** The numpy and OpenCV calls of [create_dashboard] as terms over the
    frames; [hstack] and [vstack] are only called on two pictures.
    [InfoPanel] is the panel of height 100 as wide as [combined], with the
    three numbers written on it and the colour of the occupancy. *)
Inductive picture (F : Type) :=
| Frame (f : F)
| hstack (left right : picture F)
| vstack (upper lower : picture F)
| zeros_like (p : picture F)
| InfoPanel (combined : picture F) (total_in total_out occupancy : Z)
            (color : Z * Z * Z).

Arguments Frame {F}.
Arguments hstack {F}.
Arguments vstack {F}.
Arguments zeros_like {F}.
Arguments InfoPanel {F}.

(** "Add info panel" and the final [np.vstack], for the picture [combined]
    of the cameras. *)
Definition add_info_panel {F : Type} (cs : list counter)
           (combined : picture F) : picture F :=
  let '(total_in, total_out, occupancy) := create_dashboard cs in
  let color := if occupancy >=? 0 then (0, 255, 0) else (0, 0, 255) in
  let info_panel := InfoPanel combined total_in total_out occupancy color in
  vstack info_panel combined.

(** [create_dashboard], the picture it returns ([None] for no frames);
    [frame_list] is [list(frames.values())]. *)
Definition create_dashboard_picture {F : Type} (frame_list : list F)
           (cs : list counter) : option (picture F) :=
  match frame_list with
  | [] => None
  | [f] => Some (add_info_panel cs (Frame f))
  | [f1; f2] => Some (add_info_panel cs (hstack (Frame f1) (Frame f2)))
  | f1 :: f2 :: bottom_frame :: _ =>
      let top_row := hstack (Frame f1) (Frame f2) in
      let padding := zeros_like (Frame bottom_frame) in
      let bottom_row := hstack (Frame bottom_frame) padding in
      Some (add_info_panel cs (vstack top_row bottom_row))
  end.

(** ** Invariants and relations for the further properties *)

(** The data of a track: the stored side is the side of the stored
    position, and the track was seen no longer ago than it last crossed. *)
Definition track_ok (s : counter) (t : track) : Prop :=
  last_side t = get_side s (snd (position t)) /\
  0 <= frames_not_seen t <= frames_since_crossing t.

(** The registry at any point of a call: ids in growing order, all handed
    out by [next_id]; tallies not negative; every track [track_ok]. *)
Definition sane (s : counter) : Prop :=
  StronglySorted Z.lt (PyDict.keys (tracked_people s)) /\
  Forall (fun k => 0 <= k < next_id s) (PyDict.keys (tracked_people s)) /\
  0 <= next_id s /\ 0 <= entries s /\ 0 <= exits s /\
  Forall (fun kv => track_ok s (snd kv)) (tracked_people s).

(** The registry between calls: moreover no track is at the limit. *)
Definition settled (s : counter) : Prop :=
  sane s /\
  Forall (fun kv => frames_not_seen (snd kv) < MAX_FRAMES_NOT_SEEN (cfg s))
         (tracked_people s).

Definition is_blocked (e : event) : bool :=
  match e with CrossingBlocked _ _ => true | _ => false end.

(** The printed lines without the "Crossing blocked" ones. *)
Definition unblocked (out : list event) : list event :=
  filter (fun e => negb (is_blocked e)) out.

(** The same counter with another [frame_count] and another
    [is_person_detected]. *)
Definition reframe (n : Z) (b : bool) (s : counter) : counter :=
  with_frame_count n (with_detected b s).

(** The ids [a], [a + 1], ..., [a + n - 1]. *)
Fixpoint ids_from (a : Z) (n : nat) : list Z :=
  match n with
  | O => []
  | S n' => a :: ids_from (a + 1) n'
  end.

(** The counter of door [name] in [self.counters]. *)
Fixpoint door (name : string) (cs : list (string * counter)) : option counter :=
  match cs with
  | [] => None
  | (name', c) :: cs' => if String.eqb name' name then Some c else door name cs'
  end.

(** ** Facts about the dict operations *)

Module PyDictFacts.
Import PyDict.

Section Facts.
Context {V : Type}.
Implicit Types (d : PyDict.t V) (k : Z) (v : V).

Lemma get_In k v d : get k d = Some v -> In (k, v) d.
Proof.
  induction d as [|[k' v'] d IH]; simpl; [discriminate|].
  destruct (Z.eqb_spec k' k) as [->|_].
  - intros [= ->]. now left.
  - intros H. right. now apply IH.
Qed.

Lemma get_keys k d : In k (keys d) <-> exists v, get k d = Some v.
Proof.
  induction d as [|[k' v'] d IH]; simpl.
  - split; [tauto | intros [? [=]]].
  - destruct (Z.eqb_spec k' k) as [->|Hne].
    + split; [eauto | tauto].
    + rewrite <- IH. split; [intros [?|?]; [contradiction | assumption] | tauto].
Qed.

Lemma get_not_in k d : ~ In k (keys d) -> get k d = None.
Proof.
  intros H. destruct (get k d) eqn:E; [|reflexivity].
  exfalso. apply H, get_keys. eauto.
Qed.

Lemma In_get k v d : NoDup (keys d) -> In (k, v) d -> get k d = Some v.
Proof.
  induction d as [|[k' v'] d IH]; simpl; [tauto|].
  intros Hnd [[= -> ->]|Hin].
  - now rewrite Z.eqb_refl.
  - inversion Hnd as [|? ? Hk Hnd']; subst.
    destruct (Z.eqb_spec k' k) as [->|_]; [|now apply IH].
    exfalso. apply Hk. change k with (fst (k, v)). now apply in_map.
Qed.

Lemma keys_app d1 d2 : keys (d1 ++ d2) = keys d1 ++ keys d2.
Proof. apply map_app. Qed.

Lemma get_app k d1 d2 :
  get k (d1 ++ d2) = match get k d1 with Some v => Some v | None => get k d2 end.
Proof.
  induction d1 as [|[k' v'] d1 IH]; simpl; [reflexivity|].
  now destruct (k' =? k).
Qed.

Lemma keys_update k f d : keys (update k f d) = keys d.
Proof.
  induction d as [|[k' v'] d IH]; simpl; [reflexivity|].
  destruct (k' =? k); simpl; now rewrite IH.
Qed.

Lemma get_update k k' f d :
  get k (update k' f d) =
  if k =? k' then option_map f (get k d) else get k d.
Proof.
  induction d as [|[k0 v0] d IH]; simpl; [now destruct (k =? k')|].
  destruct (Z.eqb_spec k0 k') as [->|Hne]; simpl.
  - destruct (Z.eqb_spec k' k) as [->|Hne'].
    + now rewrite Z.eqb_refl.
    + rewrite IH. destruct (Z.eqb_spec k k'); [congruence | reflexivity].
  - destruct (Z.eqb_spec k0 k) as [->|Hne'].
    + destruct (Z.eqb_spec k k'); [congruence | reflexivity].
    + apply IH.
Qed.

Lemma update_not_in k f d : ~ In k (keys d) -> update k f d = d.
Proof.
  induction d as [|[k' v'] d IH]; simpl; [reflexivity|].
  intros H. destruct (Z.eqb_spec k' k) as [->|_]; [tauto|].
  f_equal. apply IH. tauto.
Qed.

Lemma update_app k f d1 d2 :
  update k f (d1 ++ d2) = update k f d1 ++ update k f d2.
Proof.
  induction d1 as [|[k' v'] d1 IH]; simpl; [reflexivity|].
  destruct (k' =? k); simpl; now rewrite IH.
Qed.

(** With distinct keys, [update] touches the one entry of its key. *)
Lemma update_split k v f d1 d2 :
  NoDup (keys (d1 ++ (k, v) :: d2)) ->
  update k f (d1 ++ (k, v) :: d2) = d1 ++ (k, f v) :: d2.
Proof.
  intros Hnd. rewrite keys_app in Hnd. simpl in Hnd.
  pose proof (NoDup_remove_2 _ _ _ Hnd) as Hk.
  rewrite update_app. simpl. rewrite Z.eqb_refl.
  rewrite !update_not_in; [reflexivity | |];
    intros Hin; apply Hk, in_or_app; tauto.
Qed.

Lemma update_update k f g d :
  update k f (update k g d) = update k (fun v => f (g v)) d.
Proof.
  induction d as [|[k' v'] d IH]; simpl; [reflexivity|].
  destruct (Z.eqb_spec k' k) as [->|Hne]; simpl.
  - now rewrite Z.eqb_refl, IH.
  - destruct (Z.eqb_spec k' k); [congruence | now rewrite IH].
Qed.

Lemma update_ext k f g d :
  (forall v, f v = g v) -> update k f d = update k g d.
Proof.
  intros H. induction d as [|[k' v'] d IH]; simpl; [reflexivity|].
  now rewrite IH, H.
Qed.

Lemma set_fresh k v d : ~ In k (keys d) -> set k v d = d ++ [(k, v)].
Proof.
  induction d as [|[k' v'] d IH]; simpl; [reflexivity|].
  intros H. destruct (Z.eqb_spec k' k) as [->|_]; [tauto|].
  f_equal. apply IH. tauto.
Qed.

Lemma get_set k k' v d :
  get k (set k' v d) = if k =? k' then Some v else get k d.
Proof.
  induction d as [|[k0 v0] d IH]; simpl.
  - rewrite (Z.eqb_sym k' k). reflexivity.
  - destruct (Z.eqb_spec k0 k') as [->|Hne]; simpl.
    + rewrite (Z.eqb_sym k' k). now destruct (k =? k').
    + destruct (Z.eqb_spec k0 k) as [->|Hne'].
      * destruct (Z.eqb_spec k k'); [congruence | reflexivity].
      * apply IH.
Qed.

Lemma del_not_in k d : ~ In k (keys d) -> del k d = d.
Proof.
  induction d as [|[k' v'] d IH]; simpl; [reflexivity|].
  intros H. destruct (Z.eqb_spec k' k) as [->|_]; [tauto|].
  f_equal. apply IH. tauto.
Qed.

Lemma del_split k v d1 d2 :
  ~ In k (keys d1) -> del k (d1 ++ (k, v) :: d2) = d1 ++ d2.
Proof.
  induction d1 as [|[k' v'] d1 IH]; simpl; intros H.
  - now rewrite Z.eqb_refl.
  - destruct (Z.eqb_spec k' k) as [->|_]; [tauto|].
    f_equal. apply IH. tauto.
Qed.

Lemma keys_filter_incl (f : Z * V -> bool) d k :
  In k (keys (filter f d)) -> In k (keys d).
Proof.
  unfold keys. rewrite !in_map_iff. intros [x [Hx Hin]].
  apply filter_In in Hin. exists x. tauto.
Qed.

Lemma NoDup_keys_filter (f : Z * V -> bool) d :
  NoDup (keys d) -> NoDup (keys (filter f d)).
Proof.
  induction d as [|[k' v'] d IH]; simpl; [trivial|].
  intros Hnd. inversion Hnd as [|? ? Hk Hnd']; subst.
  destruct (f (k', v')); simpl; [|now apply IH].
  constructor; [|now apply IH].
  intros Hin. apply Hk. eapply keys_filter_incl, Hin.
Qed.

Lemma get_filter (f : Z * V -> bool) k d :
  NoDup (keys d) ->
  get k (filter f d) =
  match get k d with
  | Some v => if f (k, v) then Some v else None
  | None => None
  end.
Proof.
  induction d as [|[k' v'] d IH]; simpl; [reflexivity|].
  intros Hnd. inversion Hnd as [|? ? Hk Hnd']; subst.
  destruct (Z.eqb_spec k' k) as [->|Hne].
  - destruct (f (k, v')) eqn:Ef; simpl.
    + now rewrite Z.eqb_refl.
    + apply get_not_in. intros Hin. apply Hk. eapply keys_filter_incl, Hin.
  - destruct (f (k', v')); simpl.
    + destruct (Z.eqb_spec k' k); [congruence | now apply IH].
    + now apply IH.
Qed.
End Facts.

End PyDictFacts.

(** ** The two loops over the whole registry, in closed form *)

Section WholeRegistryLoops.
Import PyDict PyDictFacts.

Lemma age_loop pre suf :
  NoDup (keys (pre ++ suf)) ->
  fold_left (fun d person_id => update person_id age_track d)
            (keys suf) (pre ++ suf)
  = pre ++ age_all suf.
Proof.
  revert pre. induction suf as [|[k v] suf IH]; intros pre Hnd; [reflexivity|].
  cbn [keys map fst fold_left age_all snd].
  rewrite update_split by assumption.
  change (pre ++ (k, age_track v) :: suf)
    with (pre ++ [(k, age_track v)] ++ suf).
  rewrite app_assoc, IH, <- app_assoc; [reflexivity|].
  rewrite <- app_assoc. rewrite keys_app in *. exact Hnd.
Qed.

Lemma tracked_people_age s :
  NoDup (keys (tracked_people s)) ->
  tracked_people (age s) = age_all (tracked_people s).
Proof. intros H. exact (age_loop [] (tracked_people s) H). Qed.

Lemma keys_age_all d : keys (age_all d) = keys d.
Proof. unfold keys, age_all. rewrite map_map. reflexivity. Qed.

Lemma get_age_all k d : get k (age_all d) = option_map age_track (get k d).
Proof.
  induction d as [|[k' v'] d IH]; simpl; [reflexivity|].
  now destruct (k' =? k).
Qed.

Lemma expire_loop cf ids pre suf out :
  NoDup (keys (pre ++ suf)) ->
  fold_left (expire_one cf ids) (keys suf) (pre ++ suf, out)
  = (pre ++ filter (kept cf ids) suf,
     out ++ map (fun kv => LostTrack (fst kv))
                (filter (fun kv => negb (kept cf ids kv)) suf)).
Proof.
  revert pre out. induction suf as [|[k v] suf IH]; intros pre out Hnd.
  - simpl. now rewrite !app_nil_r.
  - assert (Hk : ~ In k (keys pre)).
    { rewrite keys_app in Hnd. simpl in Hnd.
      apply NoDup_remove_2 in Hnd. intros Hin. apply Hnd, in_or_app. tauto. }
    cbn [keys map fst fold_left]. unfold expire_one at 2. cbn [fst snd].
    rewrite get_app, (get_not_in _ _ Hk). simpl get. rewrite Z.eqb_refl.
    cbn [filter]. change (kept cf ids (k, v)) with (keep cf ids k v).
    destruct (keep cf ids k v); cbn [negb map fst].
    + change (pre ++ (k, v) :: suf) with (pre ++ [(k, v)] ++ suf).
      rewrite app_assoc, IH, <- app_assoc; [reflexivity|].
      now rewrite <- app_assoc.
    + rewrite del_split by assumption. rewrite IH.
      * now rewrite <- app_assoc.
      * rewrite keys_app in *. simpl in Hnd.
        eapply NoDup_remove_1, Hnd.
Qed.

Lemma expire_closed s ids :
  NoDup (keys (tracked_people s)) ->
  expire s ids =
  (with_tracks (filter (kept s ids) (tracked_people s)) s,
   map (fun kv => LostTrack (fst kv))
       (filter (fun kv => negb (kept s ids kv)) (tracked_people s))).
Proof.
  intros H. unfold expire.
  change (tracked_people s, @nil event)
    with ([] ++ tracked_people s, @nil event).
  now rewrite (expire_loop s ids [] (tracked_people s) [] H).
Qed.
End WholeRegistryLoops.

(** ** Comparing distances through their squares *)

Section DistanceOrder.

(** Over the reals, the comparisons of the source, [dist < min_dist] with
    [min_dist] first [MATCH_DISTANCE] and then an earlier [dist], are the
    comparisons of the model.  (The source computes [np.sqrt] in double
    precision; for pixel coordinates the radicands are small integers, whose
    square roots are far from colliding after rounding.) *)
Lemma sqrt_lt_sqrt (a b : Z) :
  0 <= a -> 0 <= b -> (sqrt (IZR a) < sqrt (IZR b))%R <-> a < b.
Proof.
  intros Ha Hb. split.
  - intros H. apply lt_IZR, sqrt_lt_0_alt, H.
  - intros H. apply sqrt_lt_1_alt. split; [now apply IZR_le | now apply IZR_lt].
Qed.

Lemma sqrt_lt_threshold (a m : Z) :
  0 <= a -> (sqrt (IZR a) < IZR m)%R <-> a < Z.max 0 m ^ 2.
Proof.
  intros Ha. destruct (Z.le_gt_cases m 0) as [Hm|Hm].
  - rewrite Z.max_l by lia. split; [|simpl; lia].
    intros H. exfalso.
    pose proof (sqrt_pos (IZR a)). apply IZR_le in Hm. lra.
  - rewrite Z.max_r by lia.
    assert (E : IZR m = sqrt (IZR (m ^ 2))).
    { rewrite Z.pow_2_r, mult_IZR. symmetry. apply sqrt_square.
      apply IZR_le. lia. }
    rewrite E. apply sqrt_lt_sqrt; [assumption | nia].
Qed.

Lemma dist2_nonneg p q : 0 <= dist2 p q.
Proof. unfold dist2. nia. Qed.

Lemma dist_lt_dist p q q' :
  (dist p q < dist p q')%R <-> dist2 p q < dist2 p q'.
Proof. apply sqrt_lt_sqrt; apply dist2_nonneg. Qed.

Lemma dist_le_dist p q q' :
  (dist p q <= dist p q')%R <-> dist2 p q <= dist2 p q'.
Proof.
  split; intros H.
  - apply Z.le_ngt. intros Hlt. apply dist_lt_dist in Hlt. lra.
  - apply Rnot_lt_le. intros Hlt. apply dist_lt_dist in Hlt. lia.
Qed.

Lemma dist_lt_match_distance s p q :
  (dist p q < IZR (MATCH_DISTANCE (cfg s)))%R <-> dist2 p q < match_bound s.
Proof. apply sqrt_lt_threshold, dist2_nonneg. Qed.

Lemma dist_ge_match_distance s p q :
  (IZR (MATCH_DISTANCE (cfg s)) <= dist p q)%R <-> match_bound s <= dist2 p q.
Proof.
  split; intros H.
  - apply Z.le_ngt. intros Hlt. apply dist_lt_match_distance in Hlt. lra.
  - apply Rnot_lt_le. intros Hlt. apply dist_lt_match_distance in Hlt. lia.
Qed.
End DistanceOrder.

(** ** The nearest-track search *)

Section Matcher.
Import PyDict PyDictFacts.

Lemma dist2_same p : dist2 p p = 0.
Proof. unfold dist2. rewrite !Z.sub_diag. reflexivity. Qed.

(** The loop either leaves [matched_id] as it was, every track being at
    [min_dist] or farther, or ends on the first nearest track. *)
Lemma closest_cases p d m a :
  (closest p d m a = a /\
   Forall (fun kv => m <= dist2 p (position (snd kv))) d)
  \/ (exists k t, closest p d m a = Some k /\ nearest p d m k t).
Proof.
  revert m a. induction d as [|[k1 t1] d IH]; intros m a; simpl.
  - left. split; [reflexivity | constructor].
  - destruct (Z.ltb_spec (dist2 p (position t1)) m) as [Hlt|Hge].
    + right.
      destruct (IH (dist2 p (position t1)) (Some k1))
        as [[Heq Hall]|(k & t & Heq & d1 & d2 & -> & Hb & H1 & H2)].
      * exists k1, t1. split; [assumption|].
        exists [], d. repeat split; [assumption | constructor | assumption].
      * exists k, t. split; [assumption|].
        exists ((k1, t1) :: d1), d2. repeat split; try assumption; [lia|].
        constructor; assumption.
    + destruct (IH m a)
        as [[Heq Hall]|(k & t & Heq & d1 & d2 & -> & Hb & H1 & H2)].
      * left. split; [assumption|]. constructor; assumption.
      * right. exists k, t. split; [assumption|].
        exists ((k1, t1) :: d1), d2. repeat split; try assumption.
        constructor; [simpl; lia | assumption].
Qed.

Lemma nearest_unique p d m k t k' t' :
  nearest p d m k t -> nearest p d m k' t' -> k = k' /\ t = t'.
Proof.
  intros (d1 & d2 & -> & _ & H1 & H2) (d1' & d2' & E & _ & H1' & H2').
  revert d1' E H1'. induction d1 as [|x d1 IH]; intros [|x' d1'] E H1'.
  - simpl in E. now injection E as -> ->.
  - simpl in E. injection E as <- ->.
    inversion H1' as [|? ? Hx _]; subst. simpl in Hx.
    rewrite Forall_forall in H2.
    specialize (H2 (k', t') (in_elt _ _ _)). simpl in H2. lia.
  - simpl in E. injection E as -> <-.
    inversion H1 as [|? ? Hx _]; subst. simpl in Hx.
    rewrite Forall_forall in H2'.
    specialize (H2' (k, t) (in_elt _ _ _)). simpl in H2'. lia.
  - simpl in E. injection E as <- E.
    inversion H1; inversion H1'; subst. now apply (IH ltac:(assumption) d1').
Qed.

Lemma nearest_In p d m k t : nearest p d m k t -> In (k, t) d.
Proof. intros (d1 & d2 & -> & _). apply in_elt. Qed.

Lemma nearest_least p d m k t :
  nearest p d m k t ->
  dist2 p (position t) < m /\
  forall k' t', In (k', t') d ->
                dist2 p (position t) <= dist2 p (position t').
Proof.
  intros (d1 & d2 & -> & Hb & H1 & H2). split; [assumption|].
  intros k' t' Hin. rewrite Forall_forall in H1, H2.
  apply in_app_or in Hin. destruct Hin as [Hin|[[= <- <-]|Hin]].
  - specialize (H1 _ Hin). simpl in H1. lia.
  - lia.
  - exact (H2 _ Hin).
Qed.

Lemma closest_Some p d m k :
  closest p d m None = Some k <-> exists t, nearest p d m k t.
Proof.
  destruct (closest_cases p d m None) as [[Heq Hall]|(k' & t' & Heq & Hn)].
  - rewrite Heq. split; [discriminate|].
    intros [t Hn]. exfalso.
    destruct (nearest_least _ _ _ _ _ Hn) as [Hb _].
    rewrite Forall_forall in Hall.
    specialize (Hall _ (nearest_In _ _ _ _ _ Hn)). simpl in Hall. lia.
  - rewrite Heq. split.
    + intros [= <-]. eauto.
    + intros [t Hn']. destruct (nearest_unique _ _ _ _ _ _ _ Hn Hn'). congruence.
Qed.

Lemma closest_None p d m :
  closest p d m None = None <->
  Forall (fun kv => m <= dist2 p (position (snd kv))) d.
Proof.
  destruct (closest_cases p d m None) as [[Heq Hall]|(k' & t' & Heq & Hn)].
  - tauto.
  - rewrite Heq. split; [discriminate|].
    intros Hall. exfalso.
    destruct (nearest_least _ _ _ _ _ Hn) as [Hb _].
    rewrite Forall_forall in Hall.
    specialize (Hall _ (nearest_In _ _ _ _ _ Hn)). simpl in Hall. lia.
Qed.

(** The matched id is a key of the dict: the lookups that follow the
    search in [update_tracking] do not fail. *)
Lemma find_match_get s p k :
  find_match s p = Some k ->
  exists t, get k (tracked_people s) = Some t.
Proof.
  intros H. apply closest_Some in H. destruct H as [t Hn].
  apply get_keys. change k with (fst (k, t)).
  apply in_map, (nearest_In _ _ _ _ _ Hn).
Qed.

Lemma find_match_nearest s p k t :
  NoDup (keys (tracked_people s)) ->
  find_match s p = Some k -> get k (tracked_people s) = Some t ->
  nearest p (tracked_people s) (match_bound s) k t.
Proof.
  intros Hnd H Hg. apply closest_Some in H. destruct H as [t' Hn].
  pose proof (In_get _ _ _ Hnd (nearest_In _ _ _ _ _ Hn)). congruence.
Qed.
End Matcher.

(** ** One detection *)

Section Steps.
Import PyDict PyDictFacts.

Lemma side_eqb_eq a b : side_eqb a b = true <-> a = b.
Proof. destruct a, b; simpl; split; congruence. Qed.

Lemma side_eqb_neq a b : side_eqb a b = false <-> a <> b.
Proof. destruct a, b; simpl; split; congruence. Qed.

Lemma get_side_bottom s y : get_side s y = bottom <-> y > entry_line (cfg s).
Proof.
  unfold get_side. destruct (Z.gtb_spec y (entry_line (cfg s))).
  - split; [lia | reflexivity].
  - split; [discriminate | lia].
Qed.

Lemma get_side_cfg s s' y : cfg s = cfg s' -> get_side s y = get_side s' y.
Proof. unfold get_side. now intros ->. Qed.

#[local] Ltac ms_cases s t p :=
  unfold matched_step, crosses, matched_track;
  destruct (last_side t) eqn:Eold, (get_side s (snd p)) eqn:Enew,
           (frames_since_crossing t >=? DEBOUNCE_FRAMES (cfg s)) eqn:Ecan;
  cbn [side_eqb negb andb st current_ids people printed
       with_tracks with_entries with_exits cfg entries exits next_id
       frame_count is_person_detected tracked_people kind_from Z.b2z].

Lemma matched_step_frame s k t p :
  let r := matched_step s k t p in
  cfg (st r) = cfg s /\ next_id (st r) = next_id s /\
  frame_count (st r) = frame_count s /\
  is_person_detected (st r) = is_person_detected s /\
  current_ids r = [k].
Proof. ms_cases s t p; repeat split. Qed.

Lemma matched_step_tracks s k t p :
  tracked_people (st (matched_step s k t p)) =
  update k (matched_track s p (crosses s t p)) (tracked_people s).
Proof.
  ms_cases s t p; rewrite ?update_update; apply update_ext; intros [? ? ? ?];
    reflexivity.
Qed.

Lemma matched_step_tally s k t p :
  let r := matched_step s k t p in
  entries (st r) = entries s + Z.b2z (crosses s t p && side_eqb (last_side t) top) /\
  exits (st r) = exits s + Z.b2z (crosses s t p && side_eqb (last_side t) bottom).
Proof. ms_cases s t p; split; lia. Qed.

Lemma matched_step_people s k t p :
  people (matched_step s k t p) =
  [mkPerson p (Some k)
            (if crosses s t p then Some (kind_from (last_side t)) else None)].
Proof. ms_cases s t p; reflexivity. Qed.

(** What the matched branch prints: one crossing when it counts one, no
    crossing otherwise, and never a creation. *)
Lemma matched_step_printed s k t p :
  let r := matched_step s k t p in
  created (printed r) = [] /\
  (forall k', crossings_of k' (printed r) =
              if crosses s t p && (k =? k') then crossings (printed r) else []) /\
  Z.of_nat (List.length (crossings (printed r))) = Z.b2z (crosses s t p).
Proof.
  ms_cases s t p; repeat split; intros;
    unfold crossings_of, crossings, is_crossing_of;
    try (destruct (frame_count s mod 30 =? 0)); simpl;
    try reflexivity; destruct (k =? k'); reflexivity.
Qed.

Lemma detect_matched s p k t :
  find_match s p = Some k -> get k (tracked_people s) = Some t ->
  detect s p = matched_step s k t p.
Proof. unfold detect. now intros -> ->. Qed.

Lemma detect_new s p : find_match s p = None -> detect s p = new_step s p.
Proof. unfold detect. now intros ->. Qed.

(** The two ways an iteration can go. *)
Lemma detect_cases s p :
  (exists k t, find_match s p = Some k /\ get k (tracked_people s) = Some t /\
               detect s p = matched_step s k t p)
  \/ (find_match s p = None /\ detect s p = new_step s p).
Proof.
  destruct (find_match s p) as [k|] eqn:E.
  - left. destruct (find_match_get _ _ _ E) as [t Ht].
    exists k, t. repeat split; try assumption. now apply detect_matched.
  - right. split; [reflexivity | now apply detect_new].
Qed.
End Steps.

(** ** What a tick leaves unchanged, and the registry invariant *)

Section Invariants.
Import PyDict PyDictFacts.

Lemma age_frame s :
  cfg (age s) = cfg s /\ next_id (age s) = next_id s /\
  entries (age s) = entries s /\ exits (age s) = exits s /\
  frame_count (age s) = frame_count s.
Proof. repeat split. Qed.

Lemma wf_age s : wf s -> wf (age s).
Proof.
  intros [Hnd Hlt]. unfold wf.
  rewrite (tracked_people_age s Hnd), keys_age_all. now split.
Qed.

Lemma new_step_tracks s p :
  wf s ->
  tracked_people (st (new_step s p)) =
  tracked_people s ++ [(next_id s, new_track s p)].
Proof.
  intros [_ Hlt]. simpl. apply set_fresh. intros Hin.
  rewrite Forall_forall in Hlt. specialize (Hlt _ Hin). lia.
Qed.

Lemma detect_frame s p :
  cfg (st (detect s p)) = cfg s /\
  frame_count (st (detect s p)) = frame_count s /\
  next_id s <= next_id (st (detect s p)).
Proof.
  destruct (detect_cases s p) as [(k & t & _ & _ & ->)|[_ ->]].
  - destruct (matched_step_frame s k t p) as (-> & -> & -> & _).
    repeat split; lia.
  - simpl. repeat split; lia.
Qed.

Lemma wf_detect s p : wf s -> wf (st (detect s p)).
Proof.
  intros Hwf. pose proof Hwf as [Hnd Hlt].
  destruct (detect_cases s p) as [(k & t & _ & _ & ->)|[_ ->]].
  - unfold wf. rewrite matched_step_tracks, keys_update.
    destruct (matched_step_frame s k t p) as (_ & -> & _). now split.
  - unfold wf. rewrite new_step_tracks, keys_app by assumption.
    cbn [keys map fst next_id st new_step with_next_id]. split.
    + apply NoDup_app; [assumption | repeat constructor; simpl; tauto |].
      intros x Hx [<-|[]]. rewrite Forall_forall in Hlt.
      specialize (Hlt _ Hx). lia.
    + apply Forall_app. split.
      * eapply Forall_impl; [|exact Hlt]. simpl. intros; lia.
      * repeat constructor. lia.
Qed.

(** No iteration removes a key. *)
Lemma detect_keys s p k :
  In k (keys (tracked_people s)) ->
  In k (keys (tracked_people (st (detect s p)))).
Proof.
  intros Hin.
  destruct (detect_cases s p) as [(k' & t & _ & _ & ->)|[_ ->]].
  - now rewrite matched_step_tracks, keys_update.
  - simpl. apply get_keys. rewrite get_set.
    destruct (k =? next_id s); [eauto | now apply get_keys].
Qed.

Lemma loop_snoc k l p : loop k (l ++ [p]) = detect_tick (loop k l) p.
Proof. unfold loop. now rewrite fold_left_app. Qed.

(** A property of the loop state that every iteration keeps holds at the
    end of the loop. *)
Lemma loop_ind (P : tick -> Prop) :
  (forall k p, P k -> P (detect_tick k p)) ->
  forall l k, P k -> P (loop k l).
Proof.
  intros Hstep l. induction l as [|p l IH]; intros k Hk; [exact Hk|].
  simpl. apply IH, Hstep, Hk.
Qed.

Lemma loop_frame k l :
  cfg (st (loop k l)) = cfg (st k) /\
  frame_count (st (loop k l)) = frame_count (st k) /\
  next_id (st k) <= next_id (st (loop k l)).
Proof.
  revert k. induction l as [|p l IH]; intros k; simpl; [repeat split; lia|].
  destruct (IH (detect_tick k p)) as (-> & -> & Hle).
  destruct (detect_frame (st k) p) as (Hc & Hf & Hn).
  cbn [detect_tick st] in *. repeat split; [assumption | assumption | lia].
Qed.

Lemma wf_loop k l : wf (st k) -> wf (st (loop k l)).
Proof.
  apply (loop_ind (fun k => wf (st k))). intros k' p. apply wf_detect.
Qed.

Lemma wf_detect_all s l : wf s -> wf (st (detect_all s l)).
Proof. intros H. apply wf_loop. simpl. now apply wf_age. Qed.

Lemma expire_frame s ids :
  cfg (fst (expire s ids)) = cfg s /\
  next_id (fst (expire s ids)) = next_id s /\
  entries (fst (expire s ids)) = entries s /\
  exits (fst (expire s ids)) = exits s /\
  frame_count (fst (expire s ids)) = frame_count s.
Proof. repeat split. Qed.

Lemma wf_expire s ids : wf s -> wf (fst (expire s ids)).
Proof.
  intros [Hnd Hlt]. rewrite expire_closed by assumption. split; simpl.
  - now apply NoDup_keys_filter.
  - rewrite Forall_forall in *. intros k Hk.
    apply Hlt. eapply keys_filter_incl, Hk.
Qed.

Lemma update_tracking_after s l :
  after (update_tracking s l) =
  fst (expire (st (detect_all s l)) (current_ids (detect_all s l))).
Proof. unfold update_tracking. now destruct (expire _ _). Qed.

Lemma update_tracking_log s l :
  log (update_tracking s l) =
  printed (detect_all s l)
  ++ snd (expire (st (detect_all s l)) (current_ids (detect_all s l))).
Proof. unfold update_tracking. now destruct (expire _ _). Qed.

Lemma update_tracking_dicts s l :
  dicts (update_tracking s l) = people (detect_all s l).
Proof. unfold update_tracking. now destruct (expire _ _). Qed.

Lemma update_tracking_frame s l :
  cfg (after (update_tracking s l)) = cfg s /\
  frame_count (after (update_tracking s l)) = frame_count s /\
  next_id s <= next_id (after (update_tracking s l)).
Proof.
  rewrite update_tracking_after.
  destruct (expire_frame (st (detect_all s l)) (current_ids (detect_all s l)))
    as (-> & -> & _ & _ & ->).
  exact (loop_frame (mkTick (age s) [] [] []) l).
Qed.

Lemma wf_update_tracking s l : wf s -> wf (after (update_tracking s l)).
Proof.
  intros H. rewrite update_tracking_after. now apply wf_expire, wf_detect_all.
Qed.

Lemma wf_init name u line dir : wf (init name u line dir).
Proof. split; constructor. Qed.

Lemma wf_reset s : wf (reset s).
Proof. split; constructor. Qed.

Lemma run_cons s l ticks :
  run s (l :: ticks) =
  (fst (run (after (update_tracking s l)) ticks),
   log (update_tracking s l) ++ snd (run (after (update_tracking s l)) ticks)).
Proof. simpl. now destruct (run _ ticks). Qed.

Lemma run_app s t1 t2 :
  run s (t1 ++ t2) =
  (fst (run (fst (run s t1)) t2), snd (run s t1) ++ snd (run (fst (run s t1)) t2)).
Proof.
  revert s. induction t1 as [|l t1 IH]; intros s.
  - simpl. now destruct (run s t2).
  - rewrite <- app_comm_cons, !run_cons, IH. simpl. now rewrite app_assoc.
Qed.

Lemma run_frame s ticks :
  cfg (fst (run s ticks)) = cfg s /\
  next_id s <= next_id (fst (run s ticks)).
Proof.
  revert s. induction ticks as [|l ticks IH]; intros s.
  - simpl. split; [reflexivity | lia].
  - rewrite run_cons. cbn [fst].
    destruct (IH (after (update_tracking s l))) as [-> Hle].
    destruct (update_tracking_frame s l) as (-> & _ & Hle').
    split; [reflexivity | lia].
Qed.

Lemma wf_run s ticks : wf s -> wf (fst (run s ticks)).
Proof.
  revert s. induction ticks as [|l ticks IH]; intros s H; [exact H|].
  rewrite run_cons. apply IH, wf_update_tracking, H.
Qed.
End Invariants.

(** ** The crossing rule and the matcher *)

Section CrossingAndMatching.
Import PyDict PyDictFacts.

(** C1.  A detection [p] bound to track [k], whose data is [t]: the new
    side is bottom exactly when [p]'s y is strictly greater than the line;
    the track ends with position [p] and the new side in every case; when
    the sides differ and [frames_since_crossing >= DEBOUNCE_FRAMES], one
    crossing is counted (from top: entries + 1, an entry; from bottom:
    exits + 1, an exit) and [frames_since_crossing] becomes 0; when the
    sides differ and the debounce test fails, or the sides agree, entries,
    exits and [frames_since_crossing] stay as they were and nothing is
    counted. *)
Theorem crossing_rule s p k t :
  find_match s p = Some k ->
  get k (tracked_people s) = Some t ->
  let r := detect s p in
  let new_side := get_side s (snd p) in
  (new_side = bottom <-> snd p > entry_line (cfg s)) /\
  exists t',
    get k (tracked_people (st r)) = Some t' /\
    position t' = p /\ last_side t' = new_side /\
    (last_side t <> new_side ->
     frames_since_crossing t >= DEBOUNCE_FRAMES (cfg s) ->
     frames_since_crossing t' = 0 /\
     List.length (crossings (printed r)) = 1%nat /\
     crossings_of k (printed r) = crossings (printed r) /\
     (last_side t = top ->
      entries (st r) = entries s + 1 /\ exits (st r) = exits s /\
      people r = [mkPerson p (Some k) (Some entry)]) /\
     (last_side t = bottom ->
      exits (st r) = exits s + 1 /\ entries (st r) = entries s /\
      people r = [mkPerson p (Some k) (Some exit)])) /\
    (last_side t <> new_side ->
     frames_since_crossing t < DEBOUNCE_FRAMES (cfg s) ->
     entries (st r) = entries s /\ exits (st r) = exits s /\
     frames_since_crossing t' = frames_since_crossing t /\
     crossings (printed r) = [] /\ people r = [mkPerson p (Some k) None]) /\
    (last_side t = new_side ->
     entries (st r) = entries s /\ exits (st r) = exits s /\
     frames_since_crossing t' = frames_since_crossing t /\
     crossings (printed r) = [] /\ people r = [mkPerson p (Some k) None]).
Proof.
  intros Hm Hg r new_side. subst r new_side.
  rewrite (detect_matched _ _ _ _ Hm Hg).
  split; [apply get_side_bottom|].
  exists (matched_track s p (crosses s t p) t).
  rewrite matched_step_tracks, get_update, Z.eqb_refl, Hg.
  destruct (matched_step_tally s k t p) as [He Hx].
  destruct (matched_step_printed s k t p) as (_ & Hof & Hlen).
  specialize (Hof k). rewrite Z.eqb_refl, andb_true_r in Hof.
  rewrite matched_step_people, He, Hx, Hof. clear He Hx Hof.
  unfold crosses in *.
  destruct (side_eqb (last_side t) (get_side s (snd p))) eqn:Es;
    [apply side_eqb_eq in Es | apply side_eqb_neq in Es];
    destruct (Z.geb_spec (frames_since_crossing t) (DEBOUNCE_FRAMES (cfg s)));
    cbn [negb andb matched_track position last_side frames_since_crossing
         Z.b2z] in *;
    repeat split; intros; try contradiction; try lia;
    try (destruct (crossings _); [reflexivity | discriminate]);
    try (destruct (last_side t); simpl; (reflexivity || congruence || lia)).
Qed.
End CrossingAndMatching.

Section Matching.
Import PyDict PyDictFacts.

Lemma match_bound_cfg s s' : cfg s = cfg s' -> match_bound s = match_bound s'.
Proof. unfold match_bound. now intros ->. Qed.

(** A detection bound to a track binds to it again if it is repeated. *)
Lemma find_match_again s p k :
  wf s -> find_match s p = Some k ->
  find_match (st (detect s p)) p = Some k.
Proof.
  intros [Hnd _] Hm. destruct (find_match_get _ _ _ Hm) as [t Hg].
  pose proof (find_match_nearest _ _ _ _ Hnd Hm Hg)
    as (d1 & d2 & Hd & Hb & H1 & H2).
  rewrite (detect_matched _ _ _ _ Hm Hg). unfold find_match.
  rewrite matched_step_tracks.
  destruct (matched_step_frame s k t p) as (Hc & _).
  rewrite (match_bound_cfg _ s Hc).
  apply closest_Some.
  exists (matched_track s p (crosses s t p) t), d1, d2.
  rewrite Hd in Hnd |- *. rewrite update_split by assumption.
  cbn [matched_track position]. rewrite dist2_same.
  pose proof (dist2_nonneg p (position t)).
  repeat split; [lia | |].
  - eapply Forall_impl; [|exact H1]. simpl. intros; lia.
  - apply Forall_forall. intros x _. apply dist2_nonneg.
Qed.

(** One detection [p] on a well-formed registry: the bound track is a
    nearest one and strictly nearer than [MATCH_DISTANCE], and a match
    changes no key; with no track that near, a track is appended under
    [next_id]. *)
Lemma nearest_or_new_gen s p :
  wf s ->
  let r := detect s p in
  (forall k,
      find_match s p = Some k ->
      exists t,
        get k (tracked_people s) = Some t /\
        (dist p (position t) < IZR (MATCH_DISTANCE (cfg s)))%R /\
        (forall k' t', get k' (tracked_people s) = Some t' ->
                       (dist p (position t) <= dist p (position t'))%R) /\
        current_ids r = [k] /\ map id (people r) = [Some k] /\
        next_id (st r) = next_id s /\
        keys (tracked_people (st r)) = keys (tracked_people s) /\
        find_match (st r) p = Some k) /\
  ((exists k t, get k (tracked_people s) = Some t /\
                (dist p (position t) < IZR (MATCH_DISTANCE (cfg s)))%R) ->
   exists k, find_match s p = Some k) /\
  (find_match s p = None ->
   (forall k t, get k (tracked_people s) = Some t ->
                (IZR (MATCH_DISTANCE (cfg s)) <= dist p (position t))%R) /\
   ~ In (next_id s) (keys (tracked_people s)) /\
   tracked_people (st r) =
     tracked_people s ++ [(next_id s, mkTrack p (get_side s (snd p)) 999 0)] /\
   next_id (st r) = next_id s + 1 /\
   current_ids r = [next_id s] /\
   people r = [mkPerson p (Some (next_id s)) None] /\
   printed r = [NewPerson (next_id s)]) /\
  (forall s0 l q,
      detect_all s0 (l ++ [q]) = detect_tick (detect_all s0 l) q /\
      st (detect_tick (detect_all s0 l) q) = st (detect (st (detect_all s0 l)) q)).
Proof.
  intros Hwf r. subst r. pose proof Hwf as [Hnd Hlt].
  split; [|split; [|split]].
  - intros k Hm. destruct (find_match_get _ _ _ Hm) as [t Hg].
    exists t. split; [assumption|].
    pose proof (find_match_nearest _ _ _ _ Hnd Hm Hg) as Hn.
    destruct (nearest_least _ _ _ _ _ Hn) as [Hb Hmin].
    split; [now apply dist_lt_match_distance|]. split.
    { intros k' t' Hg'. eapply dist_le_dist, Hmin, get_In, Hg'. }
    pose proof (find_match_again s p k Hwf Hm) as Hagain.
    rewrite (detect_matched _ _ _ _ Hm Hg) in Hagain |- *.
    destruct (matched_step_frame s k t p) as (_ & -> & _ & _ & ->).
    rewrite matched_step_people, matched_step_tracks, keys_update.
    repeat split. exact Hagain.
  - intros (k & t & Hg & Hb). apply dist_lt_match_distance in Hb.
    destruct (find_match s p) as [k'|] eqn:E; [eauto|].
    exfalso. apply closest_None in E. rewrite Forall_forall in E.
    specialize (E _ (get_In _ _ _ Hg)). simpl in E. lia.
  - intros Hm. rewrite (detect_new _ _ Hm), (new_step_tracks _ _ Hwf).
    repeat split.
    + intros k t Hg. apply dist_ge_match_distance.
      apply closest_None in Hm. rewrite Forall_forall in Hm.
      exact (Hm _ (get_In _ _ _ Hg)).
    + intros Hin. rewrite Forall_forall in Hlt. specialize (Hlt _ Hin). lia.
  - intros s0 l q. split; [apply loop_snoc | reflexivity].
Qed.
End Matching.

(** ** Tallies, reset and the configuration fields no rule reads *)

Section Tallies.

Lemma fold_add_shift l a : fold_left Z.add l a = a + fold_left Z.add l 0.
Proof.
  revert a. induction l as [|x l IH]; intros a; simpl; [lia|].
  rewrite (IH (a + x)), (IH x). lia.
Qed.

Lemma sum_ints_cons x l : sum_ints (x :: l) = x + sum_ints l.
Proof. unfold sum_ints. simpl. apply fold_add_shift. Qed.

Lemma create_dashboard_cons c counters :
  create_dashboard (c :: counters) =
  let '(total_in, total_out, occupancy) := create_dashboard counters in
  (entries c + total_in, exits c + total_out,
   (entries c - exits c) + occupancy).
Proof.
  unfold create_dashboard. simpl map. rewrite !sum_ints_cons.
  f_equal. lia.
Qed.

Lemma status_total_dashboard counters :
  status_total counters = snd (create_dashboard counters).
Proof.
  induction counters as [|c counters IH]; [reflexivity|].
  rewrite create_dashboard_cons. unfold status_total in *.
  simpl map. rewrite sum_ints_cons, IH.
  now destruct (create_dashboard counters) as [[? ?] ?].
Qed.

(** C3.  The occupancy [process_frame] shows is [entries - exits] of the
    counter as the frame leaves it, and it goes below zero when exits
    exceed entries (as after a first detection below the line that moves
    above it).  The dashboard totals are the sums of the doors' entries
    and of their exits, door by door; its occupancy is their difference,
    which is also the sum of the doors' occupancies. *)
Theorem occupancy_is_difference :
  (forall s landmarks,
      let '(s', _, _, total_people) := process_frame s landmarks in
      total_people = entries s' - exits s' /\
      (entries s' < exits s' -> total_people < 0)) /\
  (let door := init "Door 1" "" 240 "horizontal" in
   let '(s', shown) :=
     play door [None; Some (100, 260); None; Some (100, 230)] in
   entries s' = 0 /\ exits s' = 1 /\ shown = [0; 0; 0; -1]) /\
  create_dashboard [] = (0, 0, 0) /\
  (forall c counters,
      let '(total_in, total_out, occupancy) := create_dashboard counters in
      create_dashboard (c :: counters) =
      (entries c + total_in, exits c + total_out,
       (entries c - exits c) + occupancy)) /\
  (forall counters,
      let '(total_in, total_out, occupancy) := create_dashboard counters in
      occupancy = total_in - total_out /\
      occupancy = status_total counters).
Proof.
  split; [|split; [|split; [|split]]].
  - intros s landmarks. unfold process_frame.
    destruct (_ =? 0), landmarks; split; lia.
  - vm_compute. repeat split.
  - reflexivity.
  - intros c counters. rewrite create_dashboard_cons.
    now destruct (create_dashboard counters) as [[? ?] ?].
  - intros counters. rewrite status_total_dashboard.
    unfold create_dashboard. simpl. split; reflexivity.
Qed.
End Tallies.

Section Reset.
Import PyDict PyDictFacts.

Lemma loop_prefix k l :
  exists ps out,
    people (loop k l) = people k ++ ps /\
    printed (loop k l) = printed k ++ out.
Proof.
  revert k. induction l as [|p l IH]; intros k; simpl.
  - exists [], []. now rewrite !app_nil_r.
  - destruct (IH (detect_tick k p)) as (ps & out & -> & ->).
    cbn [detect_tick people printed]. rewrite <- !app_assoc. eauto.
Qed.

(** C8.  After [reset]: entries and exits are 0, the registry is empty and
    [next_id] is 0, the value [__init__] gives it; the configuration, the
    frame count and the detection flag are kept.  The next track created,
    for the first detection of the next call, gets id 0. *)
Theorem reset_fresh_start s :
  entries (reset s) = 0 /\ exits (reset s) = 0 /\
  tracked_people (reset s) = [] /\
  next_id (reset s) = 0 /\
  (forall name u line dir, next_id (reset s) = next_id (init name u line dir)) /\
  reset s = mkCounter (cfg s) 0 0 (is_person_detected s) [] 0 (frame_count s) /\
  (forall p l,
      exists ps out,
        dicts (update_tracking (reset s) (p :: l)) =
          mkPerson p (Some 0) None :: ps /\
        log (update_tracking (reset s) (p :: l)) = NewPerson 0 :: out).
Proof.
  repeat split. intros p l.
  rewrite update_tracking_dicts, update_tracking_log.
  unfold detect_all. simpl loop.
  destruct (loop_prefix
              (detect_tick (mkTick (age (reset s)) [] [] []) p) l)
    as (ps & out & -> & ->).
  exists ps. eexists. split; reflexivity.
Qed.
End Reset.

Section UnusedConfiguration.
Import PyDict.

Variables (dir : string) (min_dist : Z).

Lemma detect_reconfigure s p :
  detect (reconfigure dir min_dist s) p = retick dir min_dist (detect s p).
Proof.
  unfold detect.
  change (find_match (reconfigure dir min_dist s) p) with (find_match s p).
  change (tracked_people (reconfigure dir min_dist s)) with (tracked_people s).
  destruct (find_match s p) as [k|]; [|reflexivity].
  destruct (get k (tracked_people s)) as [t|]; [|reflexivity].
  unfold matched_step.
  change (get_side (reconfigure dir min_dist s) (snd p)) with (get_side s (snd p)).
  change (DEBOUNCE_FRAMES (cfg (reconfigure dir min_dist s)))
    with (DEBOUNCE_FRAMES (cfg s)).
  destruct (last_side t), (get_side s (snd p)),
           (frames_since_crossing t >=? DEBOUNCE_FRAMES (cfg s));
    cbn [side_eqb negb andb]; reflexivity.
Qed.

Lemma loop_reconfigure k l :
  loop (retick dir min_dist k) l = retick dir min_dist (loop k l).
Proof.
  revert k. induction l as [|p l IH]; intros k; [reflexivity|].
  simpl. rewrite <- IH. f_equal.
  unfold detect_tick. cbn [retick st current_ids people printed].
  now rewrite detect_reconfigure.
Qed.

Lemma update_tracking_reconfigure s l :
  update_tracking (reconfigure dir min_dist s) l =
  mkOutcome (reconfigure dir min_dist (after (update_tracking s l)))
            (dicts (update_tracking s l)) (log (update_tracking s l)).
Proof.
  unfold update_tracking, detect_all.
  change (mkTick (age (reconfigure dir min_dist s)) [] [] [])
    with (retick dir min_dist (mkTick (age s) [] [] [])).
  rewrite loop_reconfigure.
  set (k := loop (mkTick (age s) [] [] []) l).
  change (expire (st (retick dir min_dist k)) (current_ids (retick dir min_dist k)))
    with (reconfigure dir min_dist (fst (expire (st k) (current_ids k))),
          snd (expire (st k) (current_ids k))).
  now destruct (expire (st k) (current_ids k)).
Qed.

Lemma run_reconfigure s ticks :
  run (reconfigure dir min_dist s) ticks =
  (reconfigure dir min_dist (fst (run s ticks)), snd (run s ticks)).
Proof.
  revert s. induction ticks as [|l ticks IH]; intros s; [reflexivity|].
  rewrite !run_cons, update_tracking_reconfigure. cbn [after log].
  now rewrite IH.
Qed.

Lemma process_frame_reconfigure s landmarks :
  process_frame (reconfigure dir min_dist s) landmarks =
  let '(s', ps, out, total_people) := process_frame s landmarks in
  (reconfigure dir min_dist s', ps, out, total_people).
Proof.
  unfold process_frame.
  change (with_frame_count (frame_count (reconfigure dir min_dist s) + 1)
                           (reconfigure dir min_dist s))
    with (reconfigure dir min_dist (with_frame_count (frame_count s + 1) s)).
  set (s1 := with_frame_count (frame_count s + 1) s).
  change (PROCESS_EVERY_N_FRAMES (cfg (reconfigure dir min_dist s1)))
    with (PROCESS_EVERY_N_FRAMES (cfg s1)).
  change (frame_count (reconfigure dir min_dist s1)) with (frame_count s1).
  destruct (frame_count s1 mod PROCESS_EVERY_N_FRAMES (cfg s1) =? 0);
    [|reflexivity].
  destruct landmarks as [center|]; [|reflexivity].
  rewrite update_tracking_reconfigure. reflexivity.
Qed.
End UnusedConfiguration.

Lemma same_but_unused_reconfigure s1 s2 :
  same_but_unused s1 s2 ->
  s2 = reconfigure (direction (cfg s2)) (MIN_DISTANCE_FROM_LINE (cfg s2)) s1.
Proof.
  destruct s1 as [[] ? ? ? ? ? ?], s2 as [[] ? ? ? ? ? ?].
  unfold same_but_unused, reconfigure. simpl.
  intros (-> & -> & -> & -> & -> & -> & -> & -> & -> & -> & -> & -> & ->).
  reflexivity.
Qed.

Lemma same_but_unused_intro dir min_dist s :
  same_but_unused s (reconfigure dir min_dist s).
Proof. repeat split. Qed.

(** C9.  Two counters that differ only in [direction] and
    [MIN_DISTANCE_FROM_LINE] stay so through a call of [update_tracking],
    through any sequence of calls and through [process_frame] on the same
    input: same registry, same entries and exits, same ids, and the same
    [person_dict]s and printed lines. *)
Theorem unused_configuration s1 s2 :
  same_but_unused s1 s2 ->
  (forall l,
      same_but_unused (after (update_tracking s1 l)) (after (update_tracking s2 l)) /\
      dicts (update_tracking s1 l) = dicts (update_tracking s2 l) /\
      log (update_tracking s1 l) = log (update_tracking s2 l)) /\
  (forall ticks,
      same_but_unused (fst (run s1 ticks)) (fst (run s2 ticks)) /\
      snd (run s1 ticks) = snd (run s2 ticks)) /\
  (forall landmarks,
      same_but_unused (fst (fst (fst (process_frame s1 landmarks))))
                      (fst (fst (fst (process_frame s2 landmarks)))) /\
      snd (process_frame s1 landmarks) = snd (process_frame s2 landmarks)) /\
  (forall y, get_side s1 y = get_side s2 y).
Proof.
  intros H. rewrite (same_but_unused_reconfigure _ _ H).
  set (dir := direction (cfg s2)). set (m := MIN_DISTANCE_FROM_LINE (cfg s2)).
  split; [|split; [|split]].
  - intros l. rewrite update_tracking_reconfigure. cbn [after dicts log].
    split; [apply same_but_unused_intro | split; reflexivity].
  - intros ticks. rewrite run_reconfigure. cbn [fst snd].
    split; [apply same_but_unused_intro | reflexivity].
  - intros landmarks. rewrite process_frame_reconfigure.
    destruct (process_frame s1 landmarks) as [[[s' ps] out] total].
    cbn [fst snd]. split; [apply same_but_unused_intro | reflexivity].
  - reflexivity.
Qed.

(** ** Expiry *)

Section Expiry.
Import PyDict PyDictFacts.

Lemma in_ids_app k a b : in_ids k (a ++ b) = in_ids k a || in_ids k b.
Proof. apply existsb_app. Qed.

Lemma in_ids_one k k' : in_ids k [k'] = (k =? k').
Proof. unfold in_ids. simpl. apply orb_false_r. Qed.

Lemma get_age s k t :
  wf s -> get k (tracked_people s) = Some t ->
  get k (tracked_people (age s)) = Some (age_track t).
Proof.
  intros [Hnd _] Hg. now rewrite tracked_people_age, get_age_all, Hg.
Qed.

(** [current_ids] only grows. *)
Lemma loop_ids_mono k k0 l :
  in_ids k (current_ids k0) = true ->
  in_ids k (current_ids (loop k0 l)) = true.
Proof.
  revert k0. induction l as [|p l IH]; intros k0 H; [exact H|].
  change (loop k0 (p :: l)) with (loop (detect_tick k0 p) l).
  apply IH. cbn [detect_tick current_ids]. now rewrite in_ids_app, H.
Qed.

(** A track stays as it is while no detection of the tick is bound to it. *)
Lemma loop_unbound k t k0 l :
  wf (st k0) -> get k (tracked_people (st k0)) = Some t ->
  in_ids k (current_ids (loop k0 l)) = false ->
  get k (tracked_people (st (loop k0 l))) = Some t.
Proof.
  revert k0. induction l as [|p l IH]; intros k0 Hwf Hg Hids; [exact Hg|].
  change (loop k0 (p :: l)) with (loop (detect_tick k0 p) l) in *.
  apply IH; [now apply wf_detect| |assumption]. clear IH.
  assert (Hk : in_ids k (current_ids (detect_tick k0 p)) = false).
  { destruct (in_ids k (current_ids (detect_tick k0 p))) eqn:E; [|reflexivity].
    apply (loop_ids_mono _ _ l) in E. congruence. }
  cbn [detect_tick current_ids st] in *. rewrite in_ids_app in Hk.
  apply orb_false_elim in Hk. destruct Hk as [_ Hk].
  destruct (detect_cases (st k0) p) as [(k' & t' & _ & _ & E)|[_ E]];
    rewrite E in *.
  - destruct (matched_step_frame (st k0) k' t' p) as (_ & _ & _ & _ & Hi).
    rewrite Hi, in_ids_one in Hk.
    now rewrite matched_step_tracks, get_update, Hk.
  - cbn [new_step current_ids st tracked_people with_next_id with_tracks] in *.
    rewrite in_ids_one in Hk. now rewrite get_set, Hk.
Qed.

(** Every id of [current_ids] names a track with [frames_not_seen = 0]. *)
Lemma loop_bound_seen k0 l :
  wf (st k0) ->
  (forall k, in_ids k (current_ids k0) = true ->
             exists t, get k (tracked_people (st k0)) = Some t /\
                       frames_not_seen t = 0) ->
  forall k, in_ids k (current_ids (loop k0 l)) = true ->
            exists t, get k (tracked_people (st (loop k0 l))) = Some t /\
                      frames_not_seen t = 0.
Proof.
  revert k0. induction l as [|p l IH]; intros k0 Hwf H0; [exact H0|].
  change (loop k0 (p :: l)) with (loop (detect_tick k0 p) l).
  apply IH; [now apply wf_detect|]. clear IH.
  intros k. cbn [detect_tick current_ids st]. rewrite in_ids_app.
  destruct (detect_cases (st k0) p) as [(k' & t' & _ & Hg & E)|[_ E]];
    rewrite E.
  - destruct (matched_step_frame (st k0) k' t' p) as (_ & _ & _ & _ & ->).
    rewrite in_ids_one, matched_step_tracks, get_update.
    destruct (Z.eqb_spec k k') as [->|Hne].
    + intros _. rewrite Hg. simpl. eauto.
    + rewrite orb_false_r. apply H0.
  - cbn [new_step current_ids st tracked_people with_next_id with_tracks].
    rewrite in_ids_one, get_set.
    destruct (Z.eqb_spec k (next_id (st k0))) as [->|Hne].
    + intros _. simpl. eauto.
    + rewrite orb_false_r. apply H0.
Qed.

(** One tick on which track [k] is bound to no detection. *)
Lemma unmatched_tick s k t l :
  wf s -> get k (tracked_people s) = Some t ->
  in_ids k (current_ids (detect_all s l)) = false ->
  (frames_not_seen t + 1 < MAX_FRAMES_NOT_SEEN (cfg s) ->
   get k (tracked_people (after (update_tracking s l))) = Some (age_track t)) /\
  (MAX_FRAMES_NOT_SEEN (cfg s) <= frames_not_seen t + 1 ->
   get k (tracked_people (after (update_tracking s l))) = None /\
   In (LostTrack k) (log (update_tracking s l))).
Proof.
  intros Hwf Hg Hids.
  pose proof (wf_detect_all s l Hwf) as [Hnd _].
  assert (Hk : get k (tracked_people (st (detect_all s l))) = Some (age_track t)).
  { apply loop_unbound; [now apply wf_age | now apply get_age | assumption]. }
  rewrite update_tracking_after, update_tracking_log, expire_closed by assumption.
  cbn [fst snd tracked_people with_tracks].
  rewrite get_filter, Hk by assumption.
  unfold kept, keep. cbn [fst snd]. rewrite Hids. cbn [orb].
  destruct (loop_frame (mkTick (age s) [] [] []) l) as (Hc & _).
  change (cfg (st (detect_all s l)) = cfg s) in Hc.
  rewrite Hc.
  cbn [age_track set_frames_not_seen frames_not_seen].
  destruct (Z.ltb_spec (frames_not_seen t + 1) (MAX_FRAMES_NOT_SEEN (cfg s))).
  - split; [reflexivity | lia].
  - split; [lia|]. intros _. split; [reflexivity|].
    apply in_or_app. right.
    change (LostTrack k) with ((fun kv : Z * track => LostTrack (fst kv)) (k, age_track t)).
    apply in_map, filter_In. split; [now apply get_In|].
    cbn [fst snd]. rewrite Hids. cbn [orb].
    cbn [age_track set_frames_not_seen frames_not_seen].
    apply negb_true_iff, Z.ltb_ge. assumption.
Qed.

Lemma unmatched_app k s t1 t2 :
  unmatched k s (t1 ++ t2) =
  unmatched k s t1 && unmatched k (fst (run s t1)) t2.
Proof.
  revert s. induction t1 as [|l t1 IH]; intros s; [reflexivity|].
  rewrite <- app_comm_cons, run_cons. cbn [unmatched fst].
  now rewrite IH, andb_assoc.
Qed.

Lemma run_one s l :
  run s [l] = (after (update_tracking s l), log (update_tracking s l) ++ []).
Proof. reflexivity. Qed.

(** Ticks on which track [k] is bound to no detection, short of the
    limit: the track stays, and [frames_not_seen] counts the ticks. *)
Lemma unmatched_run s k t ticks :
  wf s -> get k (tracked_people s) = Some t ->
  unmatched k s ticks = true ->
  frames_not_seen t + Z.of_nat (List.length ticks) < MAX_FRAMES_NOT_SEEN (cfg s) ->
  exists t',
    get k (tracked_people (fst (run s ticks))) = Some t' /\
    frames_not_seen t' = frames_not_seen t + Z.of_nat (List.length ticks).
Proof.
  revert s t. induction ticks as [|l ticks IH]; intros s t Hwf Hg Hu Hlt.
  - exists t. split; [assumption | simpl; lia].
  - cbn [unmatched] in Hu. apply andb_prop in Hu. destruct Hu as [Hl Hu].
    apply negb_true_iff in Hl.
    change (List.length (l :: ticks)) with (S (List.length ticks)) in *.
    rewrite Nat2Z.inj_succ in *.
    destruct (unmatched_tick s k t l Hwf Hg Hl) as [Hkeep _].
    specialize (Hkeep ltac:(lia)).
    destruct (update_tracking_frame s l) as (Hc & _).
    destruct (IH (after (update_tracking s l)) (age_track t))
      as (t' & Hg' & Hn); try assumption.
    + now apply wf_update_tracking.
    + rewrite Hc. cbn [age_track set_frames_not_seen frames_not_seen]. lia.
    + exists t'. rewrite run_cons. cbn [fst]. split; [assumption|].
      rewrite Hn. cbn [age_track set_frames_not_seen frames_not_seen]. lia.
Qed.

(** A track seen on the last tick and then bound to no detection for
    [n] ticks in a row stays while [n < MAX_FRAMES_NOT_SEEN] and is removed
    by the [n]-th tick when [n = MAX_FRAMES_NOT_SEEN], for any positive
    limit. *)
Lemma expiry_after_max_unseen_gen s k t ticks :
  wf s ->
  get k (tracked_people s) = Some t ->
  frames_not_seen t = 0 ->
  0 < MAX_FRAMES_NOT_SEEN (cfg s) ->
  unmatched k s ticks = true ->
  let n := Z.of_nat (List.length ticks) in
  (n < MAX_FRAMES_NOT_SEEN (cfg s) ->
   exists t', get k (tracked_people (fst (run s ticks))) = Some t' /\
              frames_not_seen t' = n) /\
  (n = MAX_FRAMES_NOT_SEEN (cfg s) ->
   get k (tracked_people (fst (run s ticks))) = None /\
   exists before l,
     ticks = before ++ [l] /\
     In k (keys (tracked_people (fst (run s before)))) /\
     In (LostTrack k) (log (update_tracking (fst (run s before)) l))) /\
  (forall k1 t1,
      get k1 (tracked_people s) = Some t1 ->
      get k1 (tracked_people (age s)) =
      Some (mkTrack (position t1) (last_side t1)
                    (frames_since_crossing t1 + 1) (frames_not_seen t1 + 1))) /\
  (forall l k1,
      in_ids k1 (current_ids (detect_all s l)) = true ->
      exists t1,
        get k1 (tracked_people (after (update_tracking s l))) = Some t1 /\
        frames_not_seen t1 = 0).
Proof.
  intros Hwf Hg H0 Hmax Hu n. subst n. split; [|split; [|split]].
  - intros Hn. destruct (unmatched_run s k t ticks) as (t' & Hg' & Ht');
      try assumption; [lia|].
    exists t'. split; [assumption | lia].
  - intros Hn.
    destruct ticks as [|l0 ticks0] using rev_ind; [simpl in Hn; lia|].
    clear IHticks0. rename ticks0 into before, l0 into l.
    rewrite length_app, Nat2Z.inj_add in Hn. simpl in Hn.
    rewrite unmatched_app in Hu. apply andb_prop in Hu. destruct Hu as [Hb Hl].
    cbn [unmatched] in Hl. rewrite andb_true_r in Hl.
    apply negb_true_iff in Hl.
    destruct (unmatched_run s k t before) as (t' & Hg' & Ht');
      try assumption; [lia|].
    destruct (run_frame s before) as [Hc _].
    destruct (unmatched_tick (fst (run s before)) k t' l) as [_ Hgone];
      try assumption; [now apply wf_run|].
    rewrite Hc in Hgone. destruct (Hgone ltac:(lia)) as [Hnone Hlost].
    rewrite run_app, run_one. cbn [fst]. split; [assumption|].
    exists before, l. repeat split; [|assumption].
    apply get_keys. eauto.
  - intros k1 t1 Hg1. now rewrite (get_age _ _ _ Hwf Hg1).
  - intros l k1 Hin.
    pose proof (wf_detect_all s l Hwf) as [Hnd _].
    destruct (loop_bound_seen (mkTick (age s) [] [] []) l) with (k := k1)
      as (t1 & Hg1 & Hz); try assumption.
    + simpl. now apply wf_age.
    + simpl. discriminate.
    + exists t1. split; [|assumption].
      rewrite update_tracking_after, expire_closed by assumption.
      cbn [fst tracked_people with_tracks].
      change (loop (mkTick (age s) [] [] []) l) with (detect_all s l) in Hg1.
      rewrite get_filter, Hg1 by assumption.
      unfold kept, keep. cbn [fst snd]. now rewrite Hin.
Qed.
End Expiry.

(** ** At most one crossing per track and tick *)

Section OncePerTick.
Import PyDict PyDictFacts.

Lemma crossings_of_app k a b :
  crossings_of k (a ++ b) = crossings_of k a ++ crossings_of k b.
Proof. apply filter_app. Qed.

Lemma crossings_of_lost k (d : PyDict.t track) :
  crossings_of k (map (fun kv => LostTrack (fst kv)) d) = [].
Proof. induction d as [|x d IH]; [reflexivity | exact IH]. Qed.

Lemma filter_lost (f : event -> bool) (d : PyDict.t track) :
  (forall k, f (LostTrack k) = false) ->
  filter f (map (fun kv => LostTrack (fst kv)) d) = [].
Proof.
  intros H. induction d as [|x d IH]; [reflexivity|].
  simpl. now rewrite H.
Qed.

Lemma expire_lost s ids :
  exists d : PyDict.t track,
    snd (expire s ids) = map (fun kv => LostTrack (fst kv)) d.
Proof.
  unfold expire. cbn [snd].
  assert (H : forall ks acc,
             (exists d : PyDict.t track,
                 snd acc = map (fun kv => LostTrack (fst kv)) d) ->
             exists d : PyDict.t track,
               snd (fold_left (expire_one s ids) ks acc) =
               map (fun kv => LostTrack (fst kv)) d).
  { induction ks as [|k ks IH]; intros acc Hacc; [exact Hacc|].
    simpl. apply IH. unfold expire_one.
    destruct (get k (fst acc)) as [t|]; [|exact Hacc].
    destruct (keep s ids k t); [exact Hacc|].
    destruct Hacc as [d Hd]. exists (d ++ [(k, t)]).
    cbn [snd]. now rewrite Hd, map_app. }
  apply H. now exists [].
Qed.

(** What one iteration prints and writes about crossings. *)
Lemma detect_crossings s p :
  wf s ->
  let r := detect s p in
  entries (st r) = entries s + Z.of_nat (List.length (filter is_entry (printed r))) /\
  exits (st r) = exits s + Z.of_nat (List.length (filter is_exit (printed r))) /\
  forall k,
    (List.length (crossings_of k (printed r)) <= 1)%nat /\
    List.length (filter (marked k) (people r)) =
      List.length (crossings_of k (printed r)) /\
    (crossings_of k (printed r) <> [] ->
     exists t, get k (tracked_people s) = Some t /\
               DEBOUNCE_FRAMES (cfg s) <= frames_since_crossing t) /\
    (forall t, get k (tracked_people s) = Some t ->
               (crossings_of k (printed r) <> [] \/ frames_since_crossing t = 0) ->
               exists t', get k (tracked_people (st r)) = Some t' /\
                          frames_since_crossing t' = 0).
Proof.
  intros Hwf r. subst r.
  destruct (detect_cases s p) as [(k0 & t0 & _ & Hg & ->)|[_ ->]].
  - split; [|split].
    + unfold matched_step.
      destruct (last_side t0), (get_side s (snd p)),
               (frames_since_crossing t0 >=? DEBOUNCE_FRAMES (cfg s)),
               (frame_count s mod 30 =? 0); simpl; lia.
    + unfold matched_step.
      destruct (last_side t0), (get_side s (snd p)),
               (frames_since_crossing t0 >=? DEBOUNCE_FRAMES (cfg s)),
               (frame_count s mod 30 =? 0); simpl; lia.
    + intros k.
      destruct (matched_step_printed s k0 t0 p) as (_ & Hof & Hlen).
      rewrite matched_step_people, matched_step_tracks, (Hof k). clear Hof.
      unfold marked. cbn [filter id crossing].
      destruct (crosses s t0 p) eqn:Ec; cbn [andb Z.b2z] in *.
      * destruct (Z.eqb_spec k0 k) as [<-|Hne].
        { repeat split; simpl List.length; try lia.
          - intros _. exists t0. split; [assumption|].
            unfold crosses in Ec. apply andb_prop in Ec.
            destruct Ec as [_ Ec]. now apply Z.geb_le in Ec.
          - intros t _ _. rewrite get_update, Z.eqb_refl, Hg. simpl. eauto. }
        { repeat split; simpl; try lia; try congruence.
          intros t Ht [H|H]; [congruence|].
          rewrite get_update. destruct (Z.eqb_spec k k0); [congruence|]. eauto. }
      * repeat split; simpl; try lia; try congruence.
        intros t Ht [H|H]; [congruence|].
        rewrite get_update; destruct (Z.eqb_spec k k0) as [->|Hne]; [|eauto].
        rewrite Hg. simpl. eexists; split; [reflexivity|]. simpl. congruence.
  - cbn [new_step st printed people entries exits with_next_id with_tracks
         tracked_people].
    repeat split; simpl; try lia; try congruence.
    intros t Ht [H|H]; [congruence|].
    rewrite get_set. destruct (Z.eqb_spec k (next_id s)) as [->|Hne]; [|eauto].
    exfalso. destruct Hwf as [_ Hlt]. rewrite Forall_forall in Hlt.
    assert (Hin : In (next_id s) (keys (tracked_people s)))
      by (apply get_keys; eauto).
    specialize (Hlt _ Hin). lia.
Qed.

Lemma counted_once_step e0 x0 tk p :
  0 < DEBOUNCE_FRAMES (cfg (st tk)) ->
  counted_once e0 x0 tk -> counted_once e0 x0 (detect_tick tk p).
Proof.
  intros Hd (Hwf & He & Hx & Hk).
  destruct (detect_crossings (st tk) p Hwf) as (He' & Hx' & Hk').
  unfold counted_once. cbn [detect_tick st printed people].
  split; [now apply wf_detect|].
  rewrite !filter_app, !length_app, !Nat2Z.inj_add.
  split; [lia|]. split; [lia|].
  intros k. rewrite crossings_of_app, filter_app, !length_app.
  destruct (Hk k) as (Hle & Hmark & Hzero).
  destruct (Hk' k) as (Hle' & Hmark' & Hdeb & Hstay).
  destruct (crossings_of k (printed tk)) as [|e es] eqn:Eold.
  - split; [simpl; lia|]. split; [lia|]. simpl app. intros Hne.
    destruct (Hdeb Hne) as (t & Ht & _). apply (Hstay t Ht). now left.
  - destruct (Hzero ltac:(discriminate)) as (t & Ht & Hz).
    assert (Hnone : crossings_of k (printed (detect (st tk) p)) = []).
    { destruct (crossings_of k (printed (detect (st tk) p))) eqn:E;
        [reflexivity|].
      destruct (Hdeb ltac:(discriminate)) as (t1 & Ht1 & Hge).
      rewrite Ht in Ht1. injection Ht1 as <-. lia. }
    rewrite Hnone in *. rewrite app_nil_r. simpl List.length in *.
    split; [lia|]. split; [lia|]. intros _. apply (Hstay t Ht). now right.
Qed.

Lemma counted_once_loop e0 x0 l tk :
  0 < DEBOUNCE_FRAMES (cfg (st tk)) ->
  counted_once e0 x0 tk -> counted_once e0 x0 (loop tk l).
Proof.
  revert tk. induction l as [|p l IH]; intros tk Hd H; [exact H|].
  change (loop tk (p :: l)) with (loop (detect_tick tk p) l).
  apply IH; [|now apply counted_once_step].
  destruct (detect_frame (st tk) p) as (Hc & _).
  cbn [detect_tick st]. now rewrite Hc.
Qed.

(** On one call of [update_tracking], for any positive
    [DEBOUNCE_FRAMES]: the tallies grow by the crossings printed, and at
    most one crossing is printed for a track. *)
Lemma one_crossing_per_track_gen s l :
  wf s ->
  0 < DEBOUNCE_FRAMES (cfg s) ->
  let o := update_tracking s l in
  entries (after o) = entries s + Z.of_nat (List.length (filter is_entry (log o))) /\
  exits (after o) = exits s + Z.of_nat (List.length (filter is_exit (log o))) /\
  forall k,
    (List.length (crossings_of k (log o)) <= 1)%nat /\
    List.length (filter (marked k) (dicts o)) =
      List.length (crossings_of k (log o)).
Proof.
  intros Hwf Hd o. subst o.
  assert (H : counted_once (entries s) (exits s) (detect_all s l)).
  { apply counted_once_loop; [exact Hd|].
    split; [now apply wf_age|]. simpl. repeat split; try lia.
    intros; congruence. }
  destruct H as (_ & He & Hx & Hk).
  rewrite update_tracking_after, update_tracking_log, update_tracking_dicts.
  destruct (expire_frame (st (detect_all s l)) (current_ids (detect_all s l)))
    as (_ & _ & -> & -> & _).
  destruct (expire_lost (st (detect_all s l)) (current_ids (detect_all s l)))
    as [d ->].
  rewrite !filter_app, !filter_lost, !app_nil_r by reflexivity.
  split; [assumption|]. split; [assumption|].
  intros k. rewrite crossings_of_app, crossings_of_lost, app_nil_r.
  destruct (Hk k) as (Hle & Hmark & _). split; assumption.
Qed.
End OncePerTick.

(** ** Track ids *)

Section TrackIds.
Import PyDict PyDictFacts.

Lemma created_app a b : created (a ++ b) = created a ++ created b.
Proof.
  induction a as [|e a IH]; [reflexivity|].
  simpl. destruct (created_id e); simpl; now rewrite IH.
Qed.

Lemma created_lost (d : PyDict.t track) :
  created (map (fun kv => LostTrack (fst kv)) d) = [].
Proof. induction d as [|x d IH]; [reflexivity | exact IH]. Qed.

Lemma ids_between_nil lo hi : ids_between lo hi [].
Proof. split; constructor. Qed.

Lemma ids_between_app lo mid hi a b :
  lo <= mid <= hi ->
  ids_between lo mid a -> ids_between mid hi b -> ids_between lo hi (a ++ b).
Proof.
  intros Hm [Sa Fa] [Sb Fb]. split.
  - induction a as [|x a IH]; [exact Sb|].
    inversion Sa as [|? ? Sa' Hx]; inversion Fa as [|? ? Hlo Fa'']; subst.
    simpl. constructor; [now apply IH|].
    apply Forall_app. split; [assumption|].
    eapply Forall_impl; [|exact Fb]. simpl. intros; lia.
  - apply Forall_app. split;
      (eapply Forall_impl; [|eassumption]); simpl; intros; lia.
Qed.

Lemma detect_created s p :
  ids_between (next_id s) (next_id (st (detect s p)))
              (created (printed (detect s p))).
Proof.
  destruct (detect_cases s p) as [(k & t & _ & _ & ->)|[_ ->]].
  - destruct (matched_step_printed s k t p) as (-> & _).
    apply ids_between_nil.
  - simpl. split; repeat constructor; lia.
Qed.

Lemma loop_created n0 l tk :
  n0 <= next_id (st tk) ->
  ids_between n0 (next_id (st tk)) (created (printed tk)) ->
  ids_between n0 (next_id (st (loop tk l))) (created (printed (loop tk l))).
Proof.
  revert tk. induction l as [|p l IH]; intros tk Hle H; [exact H|].
  change (loop tk (p :: l)) with (loop (detect_tick tk p) l).
  destruct (detect_frame (st tk) p) as (_ & _ & Hn).
  apply IH; cbn [detect_tick st printed]; [lia|].
  rewrite created_app.
  eapply ids_between_app; [|exact H|apply detect_created]. lia.
Qed.

Lemma update_tracking_created s l :
  ids_between (next_id s) (next_id (after (update_tracking s l)))
              (created (log (update_tracking s l))).
Proof.
  rewrite update_tracking_after, update_tracking_log.
  destruct (expire_frame (st (detect_all s l)) (current_ids (detect_all s l)))
    as (_ & -> & _).
  destruct (expire_lost (st (detect_all s l)) (current_ids (detect_all s l)))
    as [d ->].
  rewrite created_app, created_lost, app_nil_r.
  apply (loop_created (next_id s) l (mkTick (age s) [] [] []));
    [simpl; lia | apply ids_between_nil].
Qed.

(** The ids created on a run are those from the [next_id] it starts with
    up to the [next_id] it ends with, in growing order. *)
Lemma run_created s ticks :
  ids_between (next_id s) (next_id (fst (run s ticks)))
              (created (snd (run s ticks))).
Proof.
  revert s. induction ticks as [|l ticks IH]; intros s.
  - apply ids_between_nil.
  - rewrite run_cons. cbn [fst snd]. rewrite created_app.
    destruct (update_tracking_frame s l) as (_ & _ & Hn).
    destruct (run_frame (after (update_tracking s l)) ticks) as [_ Hn'].
    eapply ids_between_app; [|apply update_tracking_created|apply IH]. lia.
Qed.

Lemma expire_lost_key s ids k :
  NoDup (keys (tracked_people s)) ->
  In (LostTrack k) (snd (expire s ids)) -> In k (keys (tracked_people s)).
Proof.
  intros Hnd. rewrite expire_closed by assumption. cbn [snd].
  rewrite in_map_iff. intros ([k' t'] & [= <-] & Hin).
  apply filter_In in Hin. destruct Hin as [Hin _].
  change k' with (fst (k', t')). now apply in_map.
Qed.

Lemma in_created k out : In k (created out) <-> In (NewPerson k) out.
Proof.
  induction out as [|e out IH]; simpl; [tauto|].
  destruct e; simpl; rewrite IH; split;
    try (intros [H|H]; [discriminate | assumption]); try tauto.
  - intros [->|H]; tauto.
  - intros [[= ->]|H]; tauto.
Qed.

Lemma detect_no_lost s p k : ~ In (LostTrack k) (printed (detect s p)).
Proof.
  destruct (detect_cases s p) as [(k' & t & _ & _ & ->)|[_ ->]].
  - unfold matched_step.
    destruct (last_side t), (get_side s (snd p)),
             (frames_since_crossing t >=? DEBOUNCE_FRAMES (cfg s)),
             (frame_count s mod 30 =? 0);
      simpl; intuition discriminate.
  - simpl. intuition discriminate.
Qed.

Lemma loop_no_lost k l tk :
  ~ In (LostTrack k) (printed tk) -> ~ In (LostTrack k) (printed (loop tk l)).
Proof.
  revert tk. induction l as [|p l IH]; intros tk H; [exact H|].
  change (loop tk (p :: l)) with (loop (detect_tick tk p) l).
  apply IH. cbn [detect_tick printed]. intros Hin.
  apply in_app_or in Hin. destruct Hin as [Hin|Hin]; [tauto|].
  exact (detect_no_lost _ _ _ Hin).
Qed.

(** Every id printed by a tick, as created or as lost, is below the
    [next_id] the tick ends with. *)
Lemma update_tracking_ids_below s l k :
  wf s ->
  In (NewPerson k) (log (update_tracking s l)) \/
  In (LostTrack k) (log (update_tracking s l)) ->
  k < next_id (after (update_tracking s l)).
Proof.
  intros Hwf [H|H].
  - apply in_created in H.
    destruct (update_tracking_created s l) as [_ Hb].
    rewrite Forall_forall in Hb. specialize (Hb _ H). lia.
  - rewrite update_tracking_log in H. rewrite update_tracking_after.
    destruct (expire_frame (st (detect_all s l)) (current_ids (detect_all s l)))
      as (_ & -> & _).
    pose proof (wf_detect_all s l Hwf) as [Hnd Hlt].
    apply in_app_or in H. destruct H as [H|H].
    + exfalso. revert H. apply loop_no_lost. simpl. tauto.
    + apply expire_lost_key in H; [|assumption].
      rewrite Forall_forall in Hlt. now apply Hlt.
Qed.

Lemma run_ids_below s ticks k :
  wf s ->
  In (NewPerson k) (snd (run s ticks)) \/ In (LostTrack k) (snd (run s ticks)) ->
  k < next_id (fst (run s ticks)).
Proof.
  revert s. induction ticks as [|l ticks IH]; intros s Hwf H.
  - simpl in H. tauto.
  - rewrite run_cons in *. cbn [fst snd] in *.
    pose proof (wf_update_tracking s l Hwf) as Hwf'.
    destruct (run_frame (after (update_tracking s l)) ticks) as [_ Hn].
    assert (Hc : (In (NewPerson k) (log (update_tracking s l)) \/
                  In (LostTrack k) (log (update_tracking s l))) \/
                 (In (NewPerson k) (snd (run (after (update_tracking s l)) ticks)) \/
                  In (LostTrack k) (snd (run (after (update_tracking s l)) ticks)))).
    { destruct H as [H|H]; apply in_app_or in H; tauto. }
    destruct Hc as [Hc|Hc].
    + pose proof (update_tracking_ids_below s l k Hwf Hc). lia.
    + now apply IH.
Qed.

(** Over any sequence of calls of [update_tracking] from a well-formed
    registry, the ids created grow strictly and exceed every id known
    before. *)
Lemma ids_never_reused_gen s before later :
  wf s ->
  let r1 := run s before in
  let r2 := run (fst r1) later in
  snd (run s (before ++ later)) = snd r1 ++ snd r2 /\
  StronglySorted Z.lt (created (snd (run s (before ++ later)))) /\
  NoDup (created (snd (run s (before ++ later)))) /\
  forall k',
    In k' (created (snd r2)) ->
    forall k,
      In k (keys (tracked_people s)) \/ In k (created (snd r1)) \/
      In (LostTrack k) (snd r1) \/ In k (keys (tracked_people (fst r1))) ->
      k < k'.
Proof.
  intros Hwf r1 r2. subst r1 r2.
  split; [now rewrite run_app|].
  destruct (run_created s (before ++ later)) as [Hs _].
  split; [exact Hs|]. split.
  - clear - Hs. induction Hs as [|x l Hs IH Hx]; constructor; [|assumption].
    intros Hin. rewrite Forall_forall in Hx. specialize (Hx _ Hin). lia.
  - intros k' Hk' k Hk.
    destruct (run_created (fst (run s before)) later) as [_ Hb].
    rewrite Forall_forall in Hb. specialize (Hb _ Hk').
    enough (k < next_id (fst (run s before))) by lia.
    pose proof (wf_run s before Hwf) as [_ Hlt'].
    pose proof Hwf as [_ Hlt]. rewrite Forall_forall in Hlt, Hlt'.
    destruct (run_frame s before) as [_ Hn].
    destruct Hk as [Hk|[Hk|[Hk|Hk]]].
    + specialize (Hlt _ Hk). lia.
    + destruct (run_created s before) as [_ Hb1].
      rewrite Forall_forall in Hb1. specialize (Hb1 _ Hk). lia.
    + apply run_ids_below; [assumption | tauto].
    + now apply Hlt'.
Qed.
End TrackIds.

(** ** The first crossing of a track *)

Section FirstCrossing.
Import PyDict PyDictFacts.

Lemma crossings_of_app_nil k a b :
  crossings_of k (a ++ b) = [] ->
  crossings_of k a = [] /\ crossings_of k b = [].
Proof. rewrite crossings_of_app. apply app_eq_nil. Qed.

Lemma sentinel_kept_start s : wf s -> sentinel_kept (next_id s) s [].
Proof.
  intros [_ Hlt] k t Hk Hg _. exfalso.
  rewrite Forall_forall in Hlt.
  assert (Hin : In k (keys (tracked_people s))) by (apply get_keys; eauto).
  specialize (Hlt _ Hin). lia.
Qed.

Lemma sentinel_kept_age n0 s out :
  wf s -> sentinel_kept n0 s out -> sentinel_kept n0 (age s) out.
Proof.
  intros [Hnd _] H k t Hk Hg Hc.
  rewrite tracked_people_age, get_age_all in Hg by assumption.
  destruct (get k (tracked_people s)) as [t0|] eqn:E; [|discriminate].
  injection Hg as <-. specialize (H k t0 Hk E Hc). simpl. lia.
Qed.

Lemma sentinel_kept_detect n0 s out p :
  sentinel_kept n0 s out ->
  sentinel_kept n0 (st (detect s p)) (out ++ printed (detect s p)).
Proof.
  intros H k t Hk Hg Hc. apply crossings_of_app_nil in Hc.
  destruct Hc as [Hc Hc'].
  destruct (detect_cases s p) as [(k0 & t0 & _ & Hg0 & E)|[_ E]];
    rewrite E in *.
  - rewrite matched_step_tracks, get_update in Hg.
    destruct (matched_step_printed s k0 t0 p) as (_ & Hof & Hlen).
    rewrite (Hof k) in Hc'. clear Hof.
    destruct (Z.eqb_spec k k0) as [->|Hne]; [|now apply (H k t)].
    rewrite Hg0 in Hg. injection Hg as <-.
    rewrite Z.eqb_refl, andb_true_r in Hc'.
    destruct (crosses s t0 p).
    + rewrite Hc' in Hlen. discriminate.
    + simpl. now apply (H k0 t0).
  - cbn [new_step st tracked_people with_next_id with_tracks] in Hg.
    rewrite get_set in Hg.
    destruct (k =? next_id s); [|now apply (H k t)].
    injection Hg as <-. simpl. lia.
Qed.

Lemma sentinel_kept_loop n0 l tk :
  sentinel_kept n0 (st tk) (printed tk) ->
  sentinel_kept n0 (st (loop tk l)) (printed (loop tk l)).
Proof.
  revert tk. induction l as [|p l IH]; intros tk H; [exact H|].
  change (loop tk (p :: l)) with (loop (detect_tick tk p) l).
  apply IH. now apply sentinel_kept_detect.
Qed.

Lemma sentinel_kept_more n0 s out more :
  sentinel_kept n0 s out -> sentinel_kept n0 s (out ++ more).
Proof.
  intros H k t Hk Hg Hc. apply crossings_of_app_nil in Hc.
  now apply (H k t).
Qed.

(** The loop started on lines [out] printed earlier. *)
Lemma loop_printed_from out l tk :
  st (loop (mkTick (st tk) (current_ids tk) (people tk) (out ++ printed tk)) l)
    = st (loop tk l) /\
  printed (loop (mkTick (st tk) (current_ids tk) (people tk) (out ++ printed tk)) l)
    = out ++ printed (loop tk l).
Proof.
  revert tk. induction l as [|p l IH]; intros tk; [split; reflexivity|].
  change (loop ?k (p :: l)) with (loop (detect_tick k p) l).
  specialize (IH (detect_tick tk p)).
  cbn [detect_tick st current_ids people printed] in *.
  rewrite app_assoc in IH. exact IH.
Qed.

Lemma sentinel_kept_detect_all n0 s out l :
  wf s -> sentinel_kept n0 s out ->
  sentinel_kept n0 (st (detect_all s l)) (out ++ printed (detect_all s l)).
Proof.
  intros Hwf H. unfold detect_all.
  destruct (loop_printed_from out l (mkTick (age s) [] [] [])) as [<- <-].
  apply sentinel_kept_loop. cbn [st printed]. rewrite app_nil_r.
  now apply sentinel_kept_age.
Qed.

Lemma sentinel_kept_update_tracking n0 s out l :
  wf s -> sentinel_kept n0 s out ->
  sentinel_kept n0 (after (update_tracking s l))
                (out ++ log (update_tracking s l)).
Proof.
  intros Hwf H k t Hk Hg Hc.
  pose proof (wf_detect_all s l Hwf) as [Hnd _].
  rewrite update_tracking_after, expire_closed in Hg by assumption.
  cbn [fst tracked_people with_tracks] in Hg.
  rewrite get_filter in Hg by assumption.
  destruct (get k (tracked_people (st (detect_all s l)))) as [t0|] eqn:E;
    [|discriminate].
  destruct (kept _ _ (k, t0)); [|discriminate]. injection Hg as <-.
  rewrite update_tracking_log, app_assoc in Hc.
  apply crossings_of_app_nil in Hc. destruct Hc as [Hc _].
  exact (sentinel_kept_detect_all n0 s out l Hwf H k t0 Hk E Hc).
Qed.

Lemma sentinel_kept_run n0 s out ticks :
  wf s -> sentinel_kept n0 s out ->
  sentinel_kept n0 (fst (run s ticks)) (out ++ snd (run s ticks)).
Proof.
  revert s out. induction ticks as [|l ticks IH]; intros s out Hwf H.
  - simpl. now rewrite app_nil_r.
  - rewrite run_cons. cbn [fst snd]. rewrite app_assoc.
    apply IH; [now apply wf_update_tracking|].
    now apply sentinel_kept_update_tracking.
Qed.

(** A detection bound to a track on the other side of the line, the
    debounce test passing: the crossing is counted. *)
Lemma counted_step s p k t :
  find_match s p = Some k ->
  get k (tracked_people s) = Some t ->
  last_side t <> get_side s (snd p) ->
  DEBOUNCE_FRAMES (cfg s) <= frames_since_crossing t ->
  let r := detect s p in
  entries (st r) + exits (st r) = entries s + exits s + 1 /\
  people r = [mkPerson p (Some k) (Some (kind_from (last_side t)))] /\
  List.length (crossings_of k (printed r)) = 1%nat /\
  (exists t', get k (tracked_people (st r)) = Some t' /\
              frames_since_crossing t' = 0).
Proof.
  intros Hm Hg Hside Hd r. subst r.
  assert (Hx : crosses s t p = true).
  { unfold crosses. apply andb_true_intro. split.
    - apply negb_true_iff, side_eqb_neq, Hside.
    - apply Z.geb_le. exact Hd. }
  rewrite (detect_matched _ _ _ _ Hm Hg).
  destruct (matched_step_tally s k t p) as [He Hxs].
  destruct (matched_step_printed s k t p) as (_ & Hof & Hlen).
  rewrite matched_step_people, matched_step_tracks, He, Hxs, (Hof k), Hx.
  rewrite Z.eqb_refl, get_update, Z.eqb_refl, Hg. rewrite Hx in Hlen.
  cbn [andb Z.b2z] in *.
  repeat split; try lia.
  - destruct (last_side t); simpl; lia.
  - simpl. eauto.
Qed.

(** A track created after the state [s] and with no crossing counted
    since passes the debounce test at its next side transition, for any
    [DEBOUNCE_FRAMES <= 999]. *)
Lemma first_crossing_counted_gen s ticks l p k t :
  wf s ->
  DEBOUNCE_FRAMES (cfg s) <= 999 ->
  next_id s <= k ->
  let tk := detect_all (fst (run s ticks)) l in
  crossings_of k (snd (run s ticks) ++ printed tk) = [] ->
  find_match (st tk) p = Some k ->
  get k (tracked_people (st tk)) = Some t ->
  last_side t <> get_side (st tk) (snd p) ->
  let r := detect (st tk) p in
  999 <= frames_since_crossing t /\
  frames_since_crossing t >= DEBOUNCE_FRAMES (cfg (st tk)) /\
  entries (st r) + exits (st r) = entries (st tk) + exits (st tk) + 1 /\
  people r = [mkPerson p (Some k) (Some (kind_from (last_side t)))] /\
  List.length (crossings_of k (printed r)) = 1%nat /\
  (exists t', get k (tracked_people (st r)) = Some t' /\
              frames_since_crossing t' = 0).
Proof.
  intros Hwf Hd Hk tk Hc Hm Hg Hside r. subst r.
  assert (Hs : 999 <= frames_since_crossing t).
  { pose proof (sentinel_kept_run (next_id s) s [] ticks Hwf
                                  (sentinel_kept_start s Hwf)) as H1.
    pose proof (sentinel_kept_detect_all
                  (next_id s) _ _ l (wf_run s ticks Hwf) H1) as H2.
    simpl app in H2. exact (H2 k t Hk Hg Hc). }
  assert (Hcfg : cfg (st tk) = cfg s).
  { destruct (loop_frame (mkTick (age (fst (run s ticks))) [] [] []) l)
      as (Hc1 & _).
    destruct (run_frame s ticks) as [Hc2 _].
    subst tk. unfold detect_all. rewrite Hc1. exact Hc2. }
  split; [exact Hs|]. split; [rewrite Hcfg; lia|].
  apply counted_step; try assumption. rewrite Hcfg. lia.
Qed.
End FirstCrossing.

(** ** A track created and matched on the same tick *)

Section SameTick.
Import PyDict PyDictFacts.

Lemma last_item_split {V} (d d1 d2 : PyDict.t V) k v v' :
  ~ In k (keys d) ->
  d ++ [(k, v)] = d1 ++ (k, v') :: d2 -> d1 = d /\ v' = v /\ d2 = [].
Proof.
  revert d1. induction d as [|[k0 v0] d IH]; intros d1 Hk E.
  - destruct d1 as [|x d1]; simpl in E.
    + injection E as <- <-. auto.
    + injection E as _ E. now destruct d1.
  - destruct d1 as [|x d1]; simpl in E.
    + injection E as -> _ _. exfalso. apply Hk. now left.
    + injection E as <- E. destruct (IH d1) as (-> & -> & ->); auto.
      intros Hin. apply Hk. now right.
Qed.

Lemma loop_keys k l tk :
  In k (keys (tracked_people (st tk))) ->
  In k (keys (tracked_people (st (loop tk l)))).
Proof.
  revert tk. induction l as [|p l IH]; intros tk H; [exact H|].
  change (loop tk (p :: l)) with (loop (detect_tick tk p) l).
  apply IH. cbn [detect_tick st]. now apply detect_keys.
Qed.

Lemma detect_all_app s l1 l2 :
  detect_all s (l1 ++ l2) = loop (detect_all s l1) l2.
Proof. unfold detect_all, loop. apply fold_left_app. Qed.

Lemma tick_eta tk :
  mkTick (st tk) (current_ids tk) (people tk) (printed tk) = tk.
Proof. now destruct tk. Qed.

(** Right after its creation a track has the 999 in place. *)
Lemma sentinel_kept_created s p :
  wf s -> sentinel_kept (next_id s) (st (new_step s p)) [].
Proof.
  intros Hwf k t Hk Hg _.
  rewrite new_step_tracks, get_app in Hg by assumption.
  destruct (get k (tracked_people s)) as [t0|] eqn:E.
  - exfalso. destruct Hwf as [_ Hlt]. rewrite Forall_forall in Hlt.
    assert (Hin : In k (keys (tracked_people s))) by (apply get_keys; eauto).
    specialize (Hlt _ Hin). lia.
  - simpl in Hg. destruct (next_id s =? k); [|discriminate].
    injection Hg as <-. simpl. lia.
Qed.

(** A track created on a tick stays in the registry for the later
    detections of the tick; one of them strictly within [MATCH_DISTANCE]
    of it creates no track and binds to a nearest track, and a crossing of
    the new track counts at once for any [DEBOUNCE_FRAMES <= 999]. *)
Lemma same_tick_match_gen s0 l1 p1 l2 p2 :
  wf s0 ->
  let tk1 := detect_all s0 l1 in
  let n := next_id (st tk1) in
  let tk2 := detect_all s0 (l1 ++ p1 :: l2) in
  find_match (st tk1) p1 = None ->
  exists t,
    get n (tracked_people (st tk2)) = Some t /\
    (l2 = [] -> t = new_track (st tk1) p1) /\
    ((dist p2 (position t) < IZR (MATCH_DISTANCE (cfg s0)))%R ->
     (exists k t',
         find_match (st tk2) p2 = Some k /\
         get k (tracked_people (st tk2)) = Some t' /\
         forall k'' t'', get k'' (tracked_people (st tk2)) = Some t'' ->
                         (dist p2 (position t') <= dist p2 (position t''))%R) /\
     next_id (st (detect (st tk2) p2)) = next_id (st tk2) /\
     created (printed (detect (st tk2) p2)) = []) /\
    (l2 = [] ->
     (find_match (st tk2) p2 = Some n <->
      (dist p2 p1 < IZR (MATCH_DISTANCE (cfg s0)))%R /\
      forall k t', get k (tracked_people (st tk1)) = Some t' ->
                   (dist p2 p1 < dist p2 (position t'))%R)) /\
    (find_match (st tk2) p2 = Some n ->
     last_side t <> get_side (st tk2) (snd p2) ->
     DEBOUNCE_FRAMES (cfg s0) <= 999 ->
     crossings_of n (printed tk2) = [] ->
     let r := detect (st tk2) p2 in
     entries (st r) + exits (st r) = entries (st tk2) + exits (st tk2) + 1 /\
     people r = [mkPerson p2 (Some n) (Some (kind_from (last_side t)))] /\
     List.length (crossings_of n (printed r)) = 1%nat /\
     (exists t', get n (tracked_people (st r)) = Some t' /\
                 frames_since_crossing t' = 0)).
Proof.
  intros Hwf tk1 n tk2 Hnone.
  pose proof (wf_detect_all s0 l1 Hwf) as Hwf1. fold tk1 in Hwf1.
  pose proof Hwf1 as [Hnd1 Hlt1].
  assert (Hfresh : ~ In n (keys (tracked_people (st tk1)))).
  { intros Hin. rewrite Forall_forall in Hlt1. specialize (Hlt1 _ Hin).
    subst n. lia. }
  set (tkc := detect_tick tk1 p1).
  assert (Etk2 : tk2 = loop tkc l2).
  { subst tk2 tkc tk1. now rewrite detect_all_app. }
  assert (Estc : st tkc = st (new_step (st tk1) p1)).
  { subst tkc. cbn [detect_tick st]. now rewrite (detect_new _ _ Hnone). }
  assert (Htc : tracked_people (st tkc) =
                tracked_people (st tk1) ++ [(n, new_track (st tk1) p1)]).
  { rewrite Estc. now apply new_step_tracks. }
  assert (Hgc : get n (tracked_people (st tkc)) = Some (new_track (st tk1) p1)).
  { rewrite Htc, get_app, (get_not_in _ _ Hfresh). simpl.
    now rewrite Z.eqb_refl. }
  assert (Hwfc : wf (st tkc)).
  { subst tkc. cbn [detect_tick st]. now apply wf_detect. }
  assert (Hwf2 : wf (st tk2)) by (rewrite Etk2; now apply wf_loop).
  assert (Hin2 : In n (keys (tracked_people (st tk2)))).
  { rewrite Etk2. apply loop_keys, get_keys. eauto. }
  apply get_keys in Hin2. destruct Hin2 as [t Ht].
  assert (Hcfg1 : cfg (st tk1) = cfg s0).
  { exact (proj1 (loop_frame (mkTick (age s0) [] [] []) l1)). }
  assert (Hcfg2 : cfg (st tk2) = cfg s0).
  { exact (proj1 (loop_frame (mkTick (age s0) [] [] []) (l1 ++ p1 :: l2))). }
  exists t. split; [exact Ht|]. split; [|split; [|split]].
  - intros ->. rewrite Etk2 in Ht. change (loop tkc []) with tkc in Ht.
    congruence.
  - intros Hnear. rewrite <- Hcfg2 in Hnear.
    apply dist_lt_match_distance in Hnear.
    destruct (find_match (st tk2) p2) as [k|] eqn:E.
    + destruct (find_match_get _ _ _ E) as [t' Hg'].
      split.
      * exists k, t'. split; [reflexivity|]. split; [assumption|].
        pose proof (find_match_nearest _ _ _ _ (proj1 Hwf2) E Hg') as Hn.
        destruct (nearest_least _ _ _ _ _ Hn) as [_ Hmin].
        intros k'' t'' Hg''. eapply dist_le_dist, Hmin, get_In, Hg''.
      * rewrite (detect_matched _ _ _ _ E Hg').
        destruct (matched_step_frame (st tk2) k t' p2) as (_ & -> & _).
        destruct (matched_step_printed (st tk2) k t' p2) as (-> & _).
        split; reflexivity.
    + exfalso. apply closest_None in E. rewrite Forall_forall in E.
      specialize (E _ (get_In _ _ _ Ht)). simpl in E. lia.
  - intros ->. rewrite Etk2. change (loop tkc []) with tkc.
    assert (Hb : match_bound (st tkc) = match_bound (st tk1)).
    { apply match_bound_cfg. rewrite Estc. reflexivity. }
    rewrite <- Hcfg1, dist_lt_match_distance.
    unfold find_match. rewrite closest_Some, Htc, Hb. split.
    + intros (t' & d1 & d2 & E & Hlt & H1 & _).
      destruct (last_item_split _ _ _ _ _ _ Hfresh E) as (-> & -> & ->).
      split; [exact Hlt|]. intros k t' Hg. apply dist_lt_dist.
      rewrite Forall_forall in H1. exact (H1 _ (get_In _ _ _ Hg)).
    + intros [Hlt Hfar].
      exists (new_track (st tk1) p1), (tracked_people (st tk1)), [].
      repeat split; [assumption | | constructor].
      apply Forall_forall. intros [k t'] Hin.
      apply dist_lt_dist, (Hfar k t'). now apply In_get.
  - intros Hm Hside Hd Hc.
    apply counted_step; try assumption.
    rewrite Hcfg2.
    enough (999 <= frames_since_crossing t) by lia.
    set (tk0 := mkTick (st tkc) (current_ids tkc) (people tkc) []).
    destruct (loop_printed_from (printed tkc) l2 tk0) as [Est Epr].
    cbn [tk0 st current_ids people printed] in Est, Epr.
    rewrite app_nil_r, tick_eta, <- Etk2 in Est, Epr.
    rewrite Epr in Hc. apply crossings_of_app_nil in Hc. destruct Hc as [_ Hc].
    rewrite Est in Ht.
    apply (sentinel_kept_loop n l2 tk0) with (k := n); try assumption; [|lia].
    cbn [tk0 st printed]. rewrite Estc.
    now apply sentinel_kept_created.
Qed.
End SameTick.

(** ** Every state of a running counter meets the hypotheses above *)

Section Reachable.

Lemma process_frame_wf s landmarks :
  wf s ->
  wf (fst (fst (fst (process_frame s landmarks)))) /\
  cfg (fst (fst (fst (process_frame s landmarks)))) = cfg s.
Proof.
  intros Hwf. unfold process_frame.
  destruct (_ =? 0); [|split; [exact Hwf | reflexivity]].
  destruct landmarks as [center|]; [|split; [exact Hwf | reflexivity]].
  cbn [fst].
  set (s1 := with_frame_count (frame_count s + 1) s).
  assert (Hwf1 : wf s1) by exact Hwf.
  pose proof (wf_update_tracking s1 [center] Hwf1) as H.
  destruct (update_tracking_frame s1 [center]) as (Hc & _).
  split; [exact H | exact Hc].
Qed.

(** The registry invariant holds, and the configuration is the one of
    [__init__], in every state of a counter. *)
Lemma reachable_wf s0 s :
  wf s0 -> reachable s0 s -> wf s /\ cfg s = cfg s0.
Proof.
  intros H0 Hr. induction Hr as [|s l _ [IHw IHc]|s lm _ [IHw IHc]|s _ [IHw IHc]].
  - split; [assumption | reflexivity].
  - split; [now apply wf_update_tracking|].
    destruct (update_tracking_frame s l) as (-> & _). exact IHc.
  - destruct (process_frame_wf s lm IHw) as [Hw ->]. split; assumption.
  - split; [apply wf_reset | exact IHc].
Qed.

Lemma reachable_init name u line dir s :
  reachable (init name u line dir) s ->
  wf s /\
  MATCH_DISTANCE (cfg s) = 80 /\ DEBOUNCE_FRAMES (cfg s) = 15 /\
  MIN_DISTANCE_FROM_LINE (cfg s) = 30 /\ MAX_FRAMES_NOT_SEEN (cfg s) = 150 /\
  PROCESS_EVERY_N_FRAMES (cfg s) = 2 /\ entry_line (cfg s) = line.
Proof.
  intros Hr.
  destruct (reachable_wf _ _ (wf_init name u line dir) Hr) as [Hw ->].
  split; [exact Hw | repeat split].
Qed.
End Reachable.

(** ** Which detection a track id comes from *)

Section IdsAndState.
Import PyDict PyDictFacts.

(** The id a detection adds to [current_ids]: the track the search
    returns, or [next_id] when it returns none. *)
Lemma detect_ids s p :
  current_ids (detect s p) =
  [match find_match s p with Some k => k | None => next_id s end].
Proof.
  destruct (detect_cases s p) as [(k & t & Hf & _ & ->)|[Hf ->]]; rewrite Hf.
  - now destruct (matched_step_frame s k t p) as (_ & _ & _ & _ & ->).
  - reflexivity.
Qed.

(** An id is in [current_ids] exactly when the search returned it for a
    detection of the tick, or a detection of the tick created it. *)
Lemma loop_ids_find_match l tk k :
  in_ids k (current_ids (loop tk l)) = true <->
  in_ids k (current_ids tk) = true \/
  exists l1 p l2,
    l = l1 ++ p :: l2 /\
    (find_match (st (loop tk l1)) p = Some k \/
     (find_match (st (loop tk l1)) p = None /\
      next_id (st (loop tk l1)) = k)).
Proof.
  induction l as [|p l IH] using rev_ind.
  - simpl. split; [auto|]. intros [H|(l1 & p & l2 & H & _)]; [assumption|].
    destruct l1; discriminate.
  - rewrite loop_snoc. cbn [detect_tick current_ids].
    rewrite in_ids_app, detect_ids, in_ids_one, orb_true_iff, IH. split.
    + intros [[H|(l1 & q & l2 & -> & H)]|H].
      * now left.
      * right. exists l1, q, (l2 ++ [p]). rewrite <- app_assoc.
        split; [reflexivity | assumption].
      * right. exists l, p, []. split; [reflexivity|].
        apply Z.eqb_eq in H.
        destruct (find_match (st (loop tk l)) p); [left | right]; subst; auto.
    + intros [H|(l1 & q & l2 & E & H)]; [now left; left|].
      destruct l2 as [|x l2 _] using rev_ind.
      * apply app_inj_tail in E. destruct E as [-> ->]. right.
        apply Z.eqb_eq. destruct H as [->|[-> ->]]; reflexivity.
      * left. right. exists l1, q, l2. split; [|assumption].
        change (l1 ++ q :: l2 ++ [x]) with (l1 ++ (q :: l2) ++ [x]) in E.
        rewrite app_assoc in E. now apply app_inj_tail in E.
Qed.

Lemma detect_all_ids_find_match s l k :
  in_ids k (current_ids (detect_all s l)) = true <->
  exists l1 p l2,
    l = l1 ++ p :: l2 /\
    (find_match (st (detect_all s l1)) p = Some k \/
     (find_match (st (detect_all s l1)) p = None /\
      next_id (st (detect_all s l1)) = k)).
Proof.
  unfold detect_all. rewrite loop_ids_find_match. cbn [current_ids in_ids existsb].
  split; [intros [H|H]; [discriminate | exact H] | now right].
Qed.

(** The matched branch sets [frames_not_seen] of the matched track to 0
    and moves it to the detection. *)
Lemma detect_matched_seen s p k :
  find_match s p = Some k ->
  exists t, get k (tracked_people (st (detect s p))) = Some t /\
            frames_not_seen t = 0 /\ position t = p.
Proof.
  intros Hf. destruct (find_match_get s p k Hf) as [t Hg].
  rewrite (detect_matched s p k t Hf Hg), matched_step_tracks, get_update,
    Z.eqb_refl, Hg.
  simpl. eexists. repeat split.
Qed.

Lemma lost_not_bound s ids k :
  NoDup (keys (tracked_people s)) ->
  In (LostTrack k) (snd (expire s ids)) ->
  in_ids k ids = false /\
  exists t, get k (tracked_people s) = Some t /\ kept s ids (k, t) = false.
Proof.
  intros Hnd. rewrite expire_closed by assumption. cbn [snd].
  rewrite in_map_iff. intros ([k' t] & [= ->] & Hin).
  apply filter_In in Hin. destruct Hin as [Hin Hk].
  apply negb_true_iff in Hk. split.
  - unfold kept, keep in Hk. cbn [fst snd] in Hk.
    now apply orb_false_iff in Hk.
  - exists t. split; [now apply In_get | exact Hk].
Qed.

(** A track bound on a tick is not printed as lost on it. *)
Lemma bound_not_lost s l k :
  wf s ->
  in_ids k (current_ids (detect_all s l)) = true ->
  ~ In (LostTrack k) (log (update_tracking s l)).
Proof.
  intros Hwf Hin. rewrite update_tracking_log. intros H.
  apply in_app_or in H. destruct H as [H|H].
  - revert H. apply loop_no_lost. simpl. tauto.
  - destruct (wf_detect_all s l Hwf) as [Hnd _].
    destruct (lost_not_bound _ _ _ Hnd H) as [Hf _]. congruence.
Qed.

(** A track bound on a tick is in the registry after it, with
    [frames_not_seen = 0]. *)
Lemma bound_kept s l k :
  wf s ->
  in_ids k (current_ids (detect_all s l)) = true ->
  exists t, get k (tracked_people (after (update_tracking s l))) = Some t /\
            frames_not_seen t = 0.
Proof.
  intros Hwf Hin.
  destruct (wf_detect_all s l Hwf) as [Hnd _].
  destruct (loop_bound_seen (mkTick (age s) [] [] []) l) with (k := k)
    as (t & Hg & Hz).
  - simpl. now apply wf_age.
  - simpl. discriminate.
  - exact Hin.
  - exists t. split; [|exact Hz].
    rewrite update_tracking_after, expire_closed by assumption. cbn [fst].
    change (tracked_people (with_tracks ?d _)) with d.
    rewrite get_filter by assumption.
    change (loop (mkTick (age s) [] [] []) l) with (detect_all s l) in Hg.
    rewrite Hg. unfold kept, keep. cbn [fst snd]. now rewrite Hin.
Qed.

(** For a track of the registry, [unmatched] says that the search returns
    it for no detection of these ticks. *)
Lemma unmatched_find_match ticks s k :
  wf s -> k < next_id s ->
  unmatched k s ticks = true <->
  forall before l rest l1 p l2,
    ticks = before ++ l :: rest -> l = l1 ++ p :: l2 ->
    find_match (st (detect_all (fst (run s before)) l1)) p <> Some k.
Proof.
  revert s. induction ticks as [|l0 ticks IH]; intros s Hwf Hk.
  - split; [|reflexivity]. intros _ before l rest l1 p l2 E.
    destruct before; discriminate.
  - cbn [unmatched]. rewrite andb_true_iff, negb_true_iff.
    assert (Hwf' : wf (after (update_tracking s l0)))
      by now apply wf_update_tracking.
    assert (Hk' : k < next_id (after (update_tracking s l0))).
    { destruct (update_tracking_frame s l0) as (_ & _ & H). lia. }
    rewrite (IH _ Hwf' Hk'). split.
    + intros [H0 Hrest] before l rest l1 p l2 E El Hf.
      destruct before as [|b before].
      * simpl in E. injection E as <- <-. cbn [run fst] in Hf.
        assert (in_ids k (current_ids (detect_all s l0)) = true); [|congruence].
        apply detect_all_ids_find_match. exists l1, p, l2. auto.
      * simpl in E. injection E as <- ->.
        rewrite run_cons in Hf. cbn [fst] in Hf.
        exact (Hrest before l rest l1 p l2 eq_refl El Hf).
    + intros H. split.
      * destruct (in_ids k (current_ids (detect_all s l0))) eqn:E; [|reflexivity].
        apply detect_all_ids_find_match in E.
        destruct E as (l1 & p & l2 & El & [Hf|[_ Hn]]).
        -- exfalso. exact (H [] l0 ticks l1 p l2 eq_refl El Hf).
        -- destruct (loop_frame (mkTick (age s) [] [] []) l1) as (_ & _ & Hm).
           fold (detect_all s l1) in Hm. simpl in Hm. lia.
      * intros before l rest l1 p l2 E El.
        specialize (H (l0 :: before) l rest l1 p l2).
        rewrite run_cons in H. cbn [fst] in H. apply H; [|exact El].
        now rewrite E.
Qed.

(** The branch "New person detected": the track goes under the key
    [next_id], which is not in use, the [person_dict] and the printed line
    carry that id, and [next_id] grows by one. *)
Lemma detect_new_id s p :
  wf s -> find_match s p = None ->
  ~ In (next_id s) (keys (tracked_people s)) /\
  tracked_people (st (detect s p)) =
    tracked_people s ++ [(next_id s, new_track s p)] /\
  people (detect s p) = [mkPerson p (Some (next_id s)) None] /\
  printed (detect s p) = [NewPerson (next_id s)] /\
  next_id (st (detect s p)) = next_id s + 1.
Proof.
  intros Hwf Hf. rewrite (detect_new s p Hf). split.
  - destruct Hwf as [_ Hlt]. rewrite Forall_forall in Hlt.
    intros Hin. specialize (Hlt _ Hin). lia.
  - split; [now apply new_step_tracks | repeat split].
Qed.

(** The matched branch creates no track: same keys, same [next_id], the
    [person_dict] carries the matched id. *)
Lemma detect_matched_no_id s p k :
  find_match s p = Some k ->
  keys (tracked_people (st (detect s p))) = keys (tracked_people s) /\
  created (printed (detect s p)) = [] /\
  next_id (st (detect s p)) = next_id s /\
  map id (people (detect s p)) = [Some k].
Proof.
  intros Hf. destruct (find_match_get s p k Hf) as [t Hg].
  rewrite (detect_matched s p k t Hf Hg), matched_step_tracks, keys_update,
    matched_step_people.
  destruct (matched_step_printed s k t p) as (-> & _).
  destruct (matched_step_frame s k t p) as (_ & -> & _).
  repeat split.
Qed.

Lemma detect_keys_created s p :
  wf s ->
  keys (tracked_people (st (detect s p))) =
  keys (tracked_people s) ++ created (printed (detect s p)).
Proof.
  intros Hwf. destruct (find_match s p) as [k|] eqn:Hf.
  - destruct (detect_matched_no_id s p k Hf) as (-> & -> & _).
    now rewrite app_nil_r.
  - destruct (detect_new_id s p Hwf Hf) as (_ & -> & _ & -> & _).
    now rewrite keys_app.
Qed.

Lemma loop_keys_created l tk :
  wf (st tk) ->
  exists out,
    printed (loop tk l) = printed tk ++ out /\
    keys (tracked_people (st (loop tk l))) =
      keys (tracked_people (st tk)) ++ created out /\
    forall k, In k (created out) ->
              in_ids k (current_ids (loop tk l)) = true.
Proof.
  revert tk. induction l as [|p l IH]; intros tk Hwf.
  - exists []. simpl. rewrite !app_nil_r. repeat split. intros k [].
  - change (loop tk (p :: l)) with (loop (detect_tick tk p) l).
    destruct (IH (detect_tick tk p)) as (out & Hp & Hk & Hc).
    { cbn [detect_tick st]. now apply wf_detect. }
    exists (printed (detect (st tk) p) ++ out).
    cbn [detect_tick st printed] in Hp, Hk.
    rewrite Hp, Hk, detect_keys_created, created_app, <- !app_assoc
      by assumption.
    repeat split. intros k Hin. apply in_app_or in Hin.
    destruct Hin as [Hin|Hin]; [|now apply Hc].
    apply loop_ids_mono. cbn [detect_tick current_ids].
    rewrite in_ids_app, detect_ids. apply orb_true_iff. right.
    destruct (find_match (st tk) p) as [k'|] eqn:Hf.
    + destruct (detect_matched_no_id _ _ _ Hf) as (_ & E & _).
      rewrite E in Hin. destruct Hin.
    + destruct (detect_new_id _ _ Hwf Hf) as (_ & _ & _ & E & _).
      rewrite E in Hin. simpl in Hin. destruct Hin as [<-|[]].
      rewrite in_ids_one. apply Z.eqb_refl.
Qed.

(** The registry after a call: the tracks that were there and are not
    printed as lost, and the tracks printed as created. *)
Lemma update_tracking_keys s l k :
  wf s ->
  let o := update_tracking s l in
  (In k (keys (tracked_people (after o))) <->
   (In k (keys (tracked_people s)) /\ ~ In (LostTrack k) (log o)) \/
   In k (created (log o))) /\
  (In k (created (log o)) -> ~ In (LostTrack k) (log o)) /\
  (In k (created (log o)) -> ~ In k (keys (tracked_people s))).
Proof.
  intros Hwf o. subst o.
  pose proof (wf_detect_all s l Hwf) as [Hnd Hlt].
  destruct (loop_keys_created l (mkTick (age s) [] [] [])) as (out & Hp & Hk & Hc).
  { simpl. now apply wf_age. }
  fold (detect_all s l) in Hp, Hk, Hc. cbn [printed st app] in Hp, Hk.
  rewrite (tracked_people_age s (proj1 Hwf)), keys_age_all in Hk. subst out.
  assert (Hcr : created (log (update_tracking s l)) =
                created (printed (detect_all s l))).
  { rewrite update_tracking_log.
    destruct (expire_lost (st (detect_all s l)) (current_ids (detect_all s l)))
      as [d ->].
    now rewrite created_app, created_lost, app_nil_r. }
  assert (Hlost : In (LostTrack k) (log (update_tracking s l)) <->
                  exists t, get k (tracked_people (st (detect_all s l))) = Some t /\
                            kept (st (detect_all s l))
                                 (current_ids (detect_all s l)) (k, t) = false).
  { rewrite update_tracking_log, in_app_iff. split.
    - intros [H|H].
      + exfalso. revert H. apply loop_no_lost. simpl. tauto.
      + now destruct (lost_not_bound _ _ _ Hnd H) as [_ H'].
    - intros (t & Hg & Hf). right.
      rewrite expire_closed by assumption. cbn [snd].
      apply in_map_iff. exists (k, t). split; [reflexivity|].
      apply filter_In. split; [now apply get_In|]. now rewrite Hf. }
  assert (Hin : In k (keys (tracked_people (after (update_tracking s l)))) <->
                exists t, get k (tracked_people (st (detect_all s l))) = Some t /\
                          kept (st (detect_all s l))
                               (current_ids (detect_all s l)) (k, t) = true).
  { rewrite update_tracking_after, expire_closed by assumption. cbn [fst].
    change (tracked_people (with_tracks ?d _)) with d.
    rewrite get_keys. split.
    - intros [t Hg]. rewrite get_filter in Hg by assumption.
      destruct (get k (tracked_people (st (detect_all s l)))) as [t'|] eqn:E;
        [|discriminate].
      exists t'. split; [reflexivity|].
      destruct (kept _ _ (k, t')); [reflexivity | discriminate].
    - intros (t & Hg & Hf). exists t.
      rewrite get_filter by assumption. now rewrite Hg, Hf. }
  assert (Hnew : In k (created (printed (detect_all s l))) ->
                 exists t, get k (tracked_people (st (detect_all s l))) = Some t /\
                           kept (st (detect_all s l))
                                (current_ids (detect_all s l)) (k, t) = true).
  { intros H. assert (Hkeys : In k (keys (tracked_people (st (detect_all s l)))))
      by (rewrite Hk; apply in_or_app; now right).
    apply get_keys in Hkeys. destruct Hkeys as [t Hg]. exists t.
    split; [assumption|]. unfold kept, keep. cbn [fst snd].
    now rewrite (Hc k H). }
  rewrite Hcr. split; [|split].
  - rewrite Hin, Hlost. split.
    + intros (t & Hg & Hf).
      assert (Hkeys : In k (keys (tracked_people (st (detect_all s l)))))
        by (apply get_keys; eauto).
      rewrite Hk in Hkeys. apply in_app_or in Hkeys.
      destruct Hkeys as [H|H]; [left | now right].
      split; [assumption|]. intros (t' & Hg' & Hf'). congruence.
    + intros [[H Hn]|H]; [|now apply Hnew].
      assert (Hkeys : In k (keys (tracked_people (st (detect_all s l)))))
        by (rewrite Hk; apply in_or_app; now left).
      apply get_keys in Hkeys. destruct Hkeys as [t Hg]. exists t.
      split; [assumption|].
      destruct (kept _ _ (k, t)) eqn:E; [reflexivity|].
      exfalso. apply Hn. eauto.
  - intros H. rewrite Hlost. intros (t' & Hg' & Hf').
    destruct (Hnew H) as (t & Hg & Hf). congruence.
  - intros H Hold. rewrite Hk in Hnd.
    apply NoDup_app_remove_l in Hnd as Hnd'.
    clear - Hnd H Hold.
    induction (keys (tracked_people s)) as [|a ks IH]; [destruct Hold|].
    simpl in Hnd. inversion Hnd as [|? ? Ha Hnd']; subst.
    destruct Hold as [->|Hold]; [|now apply IH].
    apply Ha. apply in_or_app. now right.
Qed.

(** The registry after a call lists the tracks that stay, then the tracks
    created on the call, in the order of their creation. *)
Lemma update_tracking_keys_order s l :
  wf s ->
  let o := update_tracking s l in
  exists old,
    keys (tracked_people (after o)) = old ++ created (log o) /\
    forall k, In k old <->
              In k (keys (tracked_people s)) /\ ~ In (LostTrack k) (log o).
Proof.
  intros Hwf o. subst o.
  pose proof (wf_detect_all s l Hwf) as [Hnd Hlt].
  pose proof (wf_update_tracking s l Hwf) as [Hnd' _].
  destruct (loop_keys_created l (mkTick (age s) [] [] [])) as (out & Hp & Hk & Hc).
  { simpl. now apply wf_age. }
  fold (detect_all s l) in Hp, Hk, Hc. cbn [printed st app] in Hp, Hk.
  rewrite (tracked_people_age s (proj1 Hwf)), keys_age_all in Hk. subst out.
  assert (Hcr : created (log (update_tracking s l)) =
                created (printed (detect_all s l))).
  { rewrite update_tracking_log.
    destruct (expire_lost (st (detect_all s l)) (current_ids (detect_all s l)))
      as [d ->].
    now rewrite created_app, created_lost, app_nil_r. }
  unfold keys in Hk. apply map_eq_app in Hk.
  destruct Hk as (d1 & d2 & Hd & H1 & H2).
  exists (keys (filter (kept (st (detect_all s l))
                             (current_ids (detect_all s l))) d1)).
  assert (Hkeys : keys (tracked_people (after (update_tracking s l))) =
                  keys (filter (kept (st (detect_all s l))
                                     (current_ids (detect_all s l))) d1)
                  ++ created (log (update_tracking s l))).
  { rewrite update_tracking_after, expire_closed by assumption. cbn [fst].
    change (tracked_people (with_tracks ?d _)) with d.
    rewrite Hd, filter_app, keys_app, Hcr, <- H2. f_equal.
    assert (E : filter (kept (st (detect_all s l))
                             (current_ids (detect_all s l))) d2 = d2);
      [|now rewrite E].
    assert (Hall : forall kv, In kv d2 ->
                     kept (st (detect_all s l))
                          (current_ids (detect_all s l)) kv = true).
    { intros [k t] Hin. unfold kept, keep. cbn [fst snd].
      rewrite (Hc k); [reflexivity|]. rewrite <- H2.
      apply in_map_iff. now exists (k, t). }
    clear - Hall. induction d2 as [|kv d2 IH]; [reflexivity|].
    simpl. rewrite (Hall kv) by now left.
    f_equal. apply IH. intros kv' H. apply Hall. now right. }
  split; [exact Hkeys|].
  intros k.
  destruct (update_tracking_keys s l k Hwf) as (Hiff & Hnl & Hno).
  rewrite Hkeys in Hiff, Hnd'. split.
  - intros Hin.
    destruct (proj1 Hiff (in_or_app _ _ _ (or_introl Hin))) as [H|H];
      [exact H|].
    exfalso. clear - Hnd' Hin H.
    induction (keys (filter _ d1)) as [|a ks IH]; [destruct Hin|].
    simpl in Hnd'. inversion Hnd' as [|? ? Ha Hn]; subst.
    destruct Hin as [->|Hin]; [|now apply IH].
    apply Ha. apply in_or_app. now right.
  - intros H. pose proof (proj2 Hiff (or_introl H)) as Hin.
    apply in_app_or in Hin. destruct Hin as [Hin|Hin]; [exact Hin|].
    exfalso. exact (Hno Hin (proj1 H)).
Qed.

(** The registry after any sequence of calls: the tracks of the start and
    the tracks created since, without those printed as lost.  A lost id
    does not come back. *)
Lemma run_keys ticks s k :
  wf s ->
  In k (keys (tracked_people (fst (run s ticks)))) <->
  (In k (keys (tracked_people s)) \/ In k (created (snd (run s ticks)))) /\
  ~ In (LostTrack k) (snd (run s ticks)).
Proof.
  revert s. induction ticks as [|l ticks IH]; intros s Hwf.
  - simpl. tauto.
  - rewrite run_cons. cbn [fst snd].
    pose proof (wf_update_tracking s l Hwf) as Hwf'.
    rewrite (IH _ Hwf'), created_app, !in_app_iff.
    destruct (update_tracking_keys s l k Hwf) as (Hiff & Hnl & Hno).
    rewrite Hiff.
    destruct (run_created (after (update_tracking s l)) ticks) as [_ Hb].
    rewrite Forall_forall in Hb.
    assert (Hlate : In k (created (snd (run (after (update_tracking s l)) ticks))) ->
                    ~ In (LostTrack k) (log (update_tracking s l))).
    { intros Hc Hl. specialize (Hb _ Hc).
      pose proof (update_tracking_ids_below s l k Hwf (or_intror Hl)). lia. }
    tauto.
Qed.
End IdsAndState.

(** ** The matcher, the lifecycle and the crossing rule on a running counter *)

(** In this section [s] (or [s0]) is any state of a counter built by
    [__init__], after any calls of [update_tracking], [process_frame] and
    [reset]. *)

Section Running.
Import PyDict PyDictFacts.

Variables (name u : string) (line : Z) (dir : string).

(** C2.  A detection [p] of a tick, taken after the detections [l] on the
    registry they left.  If the search finds track [k], that track is at
    the least distance from [p] among all tracks, and that distance is
    strictly below [MATCH_DISTANCE]; [p] gets id [k], no id is handed out,
    the registry keeps its keys, and [p] repeated would bind to [k] again.
    The search finds a track whenever one is strictly below
    [MATCH_DISTANCE].  Otherwise every track is at [MATCH_DISTANCE] or
    beyond, and a track is appended under [next_id], which is not in use,
    with the side of [p], [frames_since_crossing = 999] and
    [frames_not_seen = 0], and [next_id] grows by one.  The detections are
    taken in input order, each on the state the earlier ones left. *)
Theorem nearest_or_new s0 l p :
  reachable (init name u line dir) s0 ->
  let s := st (detect_all s0 l) in
  let r := detect s p in
  (forall k,
      find_match s p = Some k ->
      exists t,
        get k (tracked_people s) = Some t /\
        (dist p (position t) < IZR (MATCH_DISTANCE (cfg s)))%R /\
        (forall k' t', get k' (tracked_people s) = Some t' ->
                       (dist p (position t) <= dist p (position t'))%R) /\
        current_ids r = [k] /\ map id (people r) = [Some k] /\
        next_id (st r) = next_id s /\
        keys (tracked_people (st r)) = keys (tracked_people s) /\
        find_match (st r) p = Some k) /\
  ((exists k t, get k (tracked_people s) = Some t /\
                (dist p (position t) < IZR (MATCH_DISTANCE (cfg s)))%R) ->
   exists k, find_match s p = Some k) /\
  (find_match s p = None ->
   (forall k t, get k (tracked_people s) = Some t ->
                (IZR (MATCH_DISTANCE (cfg s)) <= dist p (position t))%R) /\
   ~ In (next_id s) (keys (tracked_people s)) /\
   tracked_people (st r) =
     tracked_people s ++ [(next_id s, mkTrack p (get_side s (snd p)) 999 0)] /\
   next_id (st r) = next_id s + 1 /\
   current_ids r = [next_id s] /\
   people r = [mkPerson p (Some (next_id s)) None] /\
   printed r = [NewPerson (next_id s)]) /\
  detect_all s0 (l ++ [p]) = detect_tick (detect_all s0 l) p /\
  st (detect_all s0 (l ++ [p])) = st r.
Proof.
  intros Hr s r.
  destruct (reachable_init _ _ _ _ _ Hr) as (Hwf & _).
  assert (Hwfs : wf s) by (apply wf_detect_all, Hwf).
  destruct (nearest_or_new_gen s p Hwfs) as (H1 & H2 & H3 & H4).
  split; [exact H1|]. split; [exact H2|]. split; [exact H3|].
  destruct (H4 s0 l p) as [H5 H6].
  split; [exact H5|]. rewrite H5. exact H6.
Qed.

(** C4.  Track [k] is created after the state [s] ([k >= next_id s]),
    some ticks pass, and on a further tick, after the detections [l], a
    detection [p] is bound to [k] on the other side of the line; no
    crossing of [k] was counted before, as at its first side transition.
    Then the track still has [frames_since_crossing >= 999], the 999 it was
    created with plus the increments, the debounce test passes, and the
    crossing is counted: one more in entries plus exits, marked in the
    [person_dict] and printed. *)
Theorem first_crossing_counted s ticks l p k t :
  reachable (init name u line dir) s ->
  next_id s <= k ->
  let tk := detect_all (fst (run s ticks)) l in
  crossings_of k (snd (run s ticks) ++ printed tk) = [] ->
  find_match (st tk) p = Some k ->
  get k (tracked_people (st tk)) = Some t ->
  last_side t <> get_side (st tk) (snd p) ->
  let r := detect (st tk) p in
  999 <= frames_since_crossing t /\
  frames_since_crossing t >= DEBOUNCE_FRAMES (cfg (st tk)) /\
  entries (st r) + exits (st r) = entries (st tk) + exits (st tk) + 1 /\
  people r = [mkPerson p (Some k) (Some (kind_from (last_side t)))] /\
  List.length (crossings_of k (printed r)) = 1%nat /\
  (exists t', get k (tracked_people (st r)) = Some t' /\
              frames_since_crossing t' = 0).
Proof.
  intros Hr. destruct (reachable_init _ _ _ _ _ Hr) as (Hwf & _ & Hd & _).
  apply first_crossing_counted_gen; [exact Hwf | lia].
Qed.

(** C5.  Track [k] was seen on the last tick ([frames_not_seen = 0]) and
    is then bound to no detection for [n] ticks in a row.  While
    [n < MAX_FRAMES_NOT_SEEN] it is still in the registry, with
    [frames_not_seen = n]; when [n = MAX_FRAMES_NOT_SEEN] it is gone, and
    it is the last of these ticks that removes it: the track is there
    before that tick, and that tick prints its loss.  The first loop adds
    one to both counters of every track; and an id bound to a detection
    of a tick, or created on it, is in the registry after the tick with
    [frames_not_seen = 0].  Bound means matched: an id is in
    [current_ids] exactly when the search returned it for a detection of
    the tick or a detection of the tick created it.  A track the search
    returns has [frames_not_seen = 0] as soon as its detection is
    handled, is in the registry after the call with [frames_not_seen = 0],
    and is not printed as lost by the call.  And for track [k],
    [unmatched] says that on none of the ticks the search returns [k]
    for a detection. *)
Theorem expiry_after_max_unseen s k t ticks :
  reachable (init name u line dir) s ->
  get k (tracked_people s) = Some t ->
  frames_not_seen t = 0 ->
  unmatched k s ticks = true ->
  let n := Z.of_nat (List.length ticks) in
  (n < MAX_FRAMES_NOT_SEEN (cfg s) ->
   exists t', get k (tracked_people (fst (run s ticks))) = Some t' /\
              frames_not_seen t' = n) /\
  (n = MAX_FRAMES_NOT_SEEN (cfg s) ->
   get k (tracked_people (fst (run s ticks))) = None /\
   exists before l,
     ticks = before ++ [l] /\
     In k (keys (tracked_people (fst (run s before)))) /\
     In (LostTrack k) (log (update_tracking (fst (run s before)) l))) /\
  (forall k1 t1,
      get k1 (tracked_people s) = Some t1 ->
      get k1 (tracked_people (age s)) =
      Some (mkTrack (position t1) (last_side t1)
                    (frames_since_crossing t1 + 1) (frames_not_seen t1 + 1))) /\
  (forall l k1,
      in_ids k1 (current_ids (detect_all s l)) = true ->
      exists t1,
        get k1 (tracked_people (after (update_tracking s l))) = Some t1 /\
        frames_not_seen t1 = 0) /\
  (forall l k1,
      in_ids k1 (current_ids (detect_all s l)) = true <->
      exists l1 p l2,
        l = l1 ++ p :: l2 /\
        (find_match (st (detect_all s l1)) p = Some k1 \/
         (find_match (st (detect_all s l1)) p = None /\
          next_id (st (detect_all s l1)) = k1))) /\
  (forall l1 p l2 k1,
      find_match (st (detect_all s l1)) p = Some k1 ->
      (exists t1,
          get k1 (tracked_people (st (detect_all s (l1 ++ [p])))) = Some t1 /\
          frames_not_seen t1 = 0) /\
      (exists t2,
          get k1 (tracked_people (after (update_tracking s (l1 ++ p :: l2))))
          = Some t2 /\
          frames_not_seen t2 = 0) /\
      ~ In (LostTrack k1) (log (update_tracking s (l1 ++ p :: l2)))) /\
  (forall ticks',
      unmatched k s ticks' = true <->
      forall before l rest l1 p l2,
        ticks' = before ++ l :: rest -> l = l1 ++ p :: l2 ->
        find_match (st (detect_all (fst (run s before)) l1)) p <> Some k).
Proof.
  intros Hr Hg H0 Hu.
  destruct (reachable_init _ _ _ _ _ Hr) as (Hwf & _ & _ & _ & Hmax & _).
  destruct (expiry_after_max_unseen_gen s k t ticks Hwf Hg H0 ltac:(lia) Hu)
    as (H1 & H2 & H3 & H4).
  cbv zeta. split; [exact H1|]. split; [exact H2|]. split; [exact H3|].
  split; [exact H4|]. split; [exact (detect_all_ids_find_match s)|].
  split.
  - intros l1 p l2 k1 Hf.
    assert (Hin : in_ids k1 (current_ids (detect_all s (l1 ++ p :: l2))) = true).
    { apply detect_all_ids_find_match. exists l1, p, l2. auto. }
    split; [|split].
    + rewrite detect_all_app.
      change (loop (detect_all s l1) [p])
        with (detect_tick (detect_all s l1) p).
      cbn [detect_tick st].
      destruct (detect_matched_seen _ _ _ Hf) as (t1 & Hg1 & Hz & _). eauto.
    + now apply bound_kept.
    + now apply bound_not_lost.
  - intros ticks'. apply unmatched_find_match; [exact Hwf|].
    destruct Hwf as [_ Hlt]. rewrite Forall_forall in Hlt.
    apply Hlt, get_keys. eauto.
Qed.

(** C6.  On one call of [update_tracking]: entries grow by the number of
    entries printed and exits by the number of exits printed, and for
    every track id at most one crossing is printed, and as many
    [person_dict]s carry that id with a crossing mark; so the growth of
    entries plus exits that goes to one track is at most 1, whatever the
    number of detections bound to it. *)
Theorem one_crossing_per_track s l :
  reachable (init name u line dir) s ->
  let o := update_tracking s l in
  entries (after o) = entries s + Z.of_nat (List.length (filter is_entry (log o))) /\
  exits (after o) = exits s + Z.of_nat (List.length (filter is_exit (log o))) /\
  forall k,
    (List.length (crossings_of k (log o)) <= 1)%nat /\
    List.length (filter (marked k) (dicts o)) =
      List.length (crossings_of k (log o)).
Proof.
  intros Hr. destruct (reachable_init _ _ _ _ _ Hr) as (Hwf & _ & Hd & _).
  apply one_crossing_per_track_gen; [exact Hwf | lia].
Qed.

(** C7.  Over any sequence of calls of [update_tracking], cut anywhere in
    two: the ids created over the whole sequence grow strictly, so no id
    is created twice; and an id created after the cut is greater than
    every id known before it, whether it was in the registry at the
    start, created before the cut, printed as lost before the cut, or in
    the registry at the cut.  The ids created are the ids the tracks get:
    a detection without a match puts its track in the registry under the
    key [next_id], which is not in use, writes that id in its
    [person_dict], prints it, and adds one to [next_id].  After a call the
    registry holds the tracks it held that the call does not print as
    lost, and the tracks the call created, none of which it held; and
    over the calls before the cut, and over those after it, the registry
    holds the tracks it started with and the tracks created, without
    those printed as lost: the id of a lost track does not come back.  So
    a track that is in the registry after the later calls and was not at
    the cut has an id greater than every id known before the cut. *)
Theorem ids_never_reused s before later :
  reachable (init name u line dir) s ->
  let r1 := run s before in
  let r2 := run (fst r1) later in
  snd (run s (before ++ later)) = snd r1 ++ snd r2 /\
  StronglySorted Z.lt (created (snd (run s (before ++ later)))) /\
  NoDup (created (snd (run s (before ++ later)))) /\
  (forall k',
    In k' (created (snd r2)) ->
    forall k,
      In k (keys (tracked_people s)) \/ In k (created (snd r1)) \/
      In (LostTrack k) (snd r1) \/ In k (keys (tracked_people (fst r1))) ->
      k < k') /\
  (forall l1 p,
      let m := st (detect_all s l1) in
      find_match m p = None ->
      ~ In (next_id m) (keys (tracked_people m)) /\
      tracked_people (st (detect m p)) =
        tracked_people m ++ [(next_id m, new_track m p)] /\
      people (detect m p) = [mkPerson p (Some (next_id m)) None] /\
      printed (detect m p) = [NewPerson (next_id m)] /\
      next_id (st (detect m p)) = next_id m + 1) /\
  (forall l k,
      let o := update_tracking s l in
      (In k (keys (tracked_people (after o))) <->
       (In k (keys (tracked_people s)) /\ ~ In (LostTrack k) (log o)) \/
       In k (created (log o))) /\
      (In k (created (log o)) -> ~ In (LostTrack k) (log o)) /\
      (In k (created (log o)) -> ~ In k (keys (tracked_people s)))) /\
  (forall k,
      In k (keys (tracked_people (fst r1))) <->
      (In k (keys (tracked_people s)) \/ In k (created (snd r1))) /\
      ~ In (LostTrack k) (snd r1)) /\
  (forall k,
      In k (keys (tracked_people (fst r2))) <->
      (In k (keys (tracked_people (fst r1))) \/ In k (created (snd r2))) /\
      ~ In (LostTrack k) (snd r2)) /\
  (forall k',
      In k' (keys (tracked_people (fst r2))) ->
      ~ In k' (keys (tracked_people (fst r1))) ->
      forall k,
        In k (keys (tracked_people s)) \/ In k (created (snd r1)) \/
        In (LostTrack k) (snd r1) \/ In k (keys (tracked_people (fst r1))) ->
        k < k').
Proof.
  intros Hr. destruct (reachable_init _ _ _ _ _ Hr) as (Hwf & _).
  destruct (ids_never_reused_gen s before later Hwf) as (H1 & H2 & H3 & H4).
  cbv zeta. split; [exact H1|]. split; [exact H2|]. split; [exact H3|].
  split; [exact H4|]. split; [|split; [|split; [|split]]].
  - intros l1 p Hf. apply detect_new_id; [|exact Hf].
    now apply wf_detect_all.
  - intros l k. now apply update_tracking_keys.
  - intros k. now apply run_keys.
  - intros k. apply run_keys. now apply wf_run.
  - intros k' Hin Hnot. apply H4.
    apply (run_keys later (fst (run s before)) k' (wf_run s before Hwf)) in Hin.
    destruct Hin as [[Hin|Hin] _]; [contradiction | exact Hin].
Qed.

(** C10, as the code has it.  On one tick, after the detections [l1], a
    detection [p1] for which no track is near enough creates track [n];
    the detections [l2] follow, then [p2].  Track [n] is in the registry
    when [p2] is taken, with data [t].  If [p2] is strictly within
    [MATCH_DISTANCE] of [t]'s position, no track is created for [p2]: it
    is bound to a track of the registry at the least distance.  When [p2]
    comes right after [p1], that track is [n] exactly when [p2] is strictly
    within [MATCH_DISTANCE] of [p1] and every older track is strictly
    farther from [p2] than [p1] is.  When [p2] is bound to [n] on the
    other side of the line and no crossing of [n] was counted on the tick
    so far, the crossing is counted, on the tick that created the track. *)
Theorem same_tick_match s0 l1 p1 l2 p2 :
  reachable (init name u line dir) s0 ->
  let tk1 := detect_all s0 l1 in
  let n := next_id (st tk1) in
  let tk2 := detect_all s0 (l1 ++ p1 :: l2) in
  find_match (st tk1) p1 = None ->
  exists t,
    get n (tracked_people (st tk2)) = Some t /\
    (l2 = [] -> t = new_track (st tk1) p1) /\
    ((dist p2 (position t) < IZR (MATCH_DISTANCE (cfg s0)))%R ->
     (exists k t',
         find_match (st tk2) p2 = Some k /\
         get k (tracked_people (st tk2)) = Some t' /\
         forall k'' t'', get k'' (tracked_people (st tk2)) = Some t'' ->
                         (dist p2 (position t') <= dist p2 (position t''))%R) /\
     next_id (st (detect (st tk2) p2)) = next_id (st tk2) /\
     created (printed (detect (st tk2) p2)) = []) /\
    (l2 = [] ->
     (find_match (st tk2) p2 = Some n <->
      (dist p2 p1 < IZR (MATCH_DISTANCE (cfg s0)))%R /\
      forall k t', get k (tracked_people (st tk1)) = Some t' ->
                   (dist p2 p1 < dist p2 (position t'))%R)) /\
    (find_match (st tk2) p2 = Some n ->
     last_side t <> get_side (st tk2) (snd p2) ->
     crossings_of n (printed tk2) = [] ->
     let r := detect (st tk2) p2 in
     entries (st r) + exits (st r) = entries (st tk2) + exits (st tk2) + 1 /\
     people r = [mkPerson p2 (Some n) (Some (kind_from (last_side t)))] /\
     List.length (crossings_of n (printed r)) = 1%nat /\
     (exists t', get n (tracked_people (st r)) = Some t' /\
                 frames_since_crossing t' = 0)).
Proof.
  intros Hr tk1 n tk2 Hnone.
  destruct (reachable_init _ _ _ _ _ Hr) as (Hwf & _ & Hd & _).
  destruct (same_tick_match_gen s0 l1 p1 l2 p2 Hwf Hnone)
    as (t & Hg & Hnew & Hnear & Hiff & Hcross).
  exists t. split; [exact Hg|]. split; [exact Hnew|].
  split; [exact Hnear|]. split; [exact Hiff|].
  intros Hm Hside Hc. apply Hcross; try assumption. lia.
Qed.
End Running.

(** C10 as it is worded fails when an older track is as near or nearer.
    Door 1 has track 0 at (0, 0); a tick with the detections (100, 0) and
    (40, 0) creates track 1 at (100, 0), and (40, 0), although strictly
    within [MATCH_DISTANCE] of track 1, is bound to track 0. *)
Lemma same_tick_match_to_older_track :
  let s0 := after (update_tracking door1 [(0, 0)]) in
  let tk1 := detect_all s0 [] in
  let tk2 := detect_all s0 [(100, 0)] in
  reachable door1 s0 /\
  find_match (st tk1) (100, 0) = None /\
  next_id (st tk1) = 1 /\
  PyDict.get 1 (tracked_people (st tk2)) = Some (mkTrack (100, 0) top 999 0) /\
  (dist (40, 0)%Z (100, 0)%Z < IZR (MATCH_DISTANCE (cfg s0)))%R /\
  find_match (st tk2) (40, 0) = Some 0 /\
  find_match (st tk2) (40, 0) <> Some 1 /\
  map id (dicts (update_tracking s0 [(100, 0); (40, 0)])) = [Some 1; Some 0].
Proof.
  cbv zeta. split; [apply reach_update, reach_start|].
  split; [reflexivity|]. split; [reflexivity|]. split; [reflexivity|].
  split; [apply dist_lt_match_distance; reflexivity|].
  split; [reflexivity|]. split; [vm_compute; discriminate | reflexivity].
Qed.

(** ** The scenarios of the specification, run on door 1 *)

Section Scenarios.

(** A detection farther than [MATCH_DISTANCE] from the only track starts
    a new track and counts nothing. *)
Example far_detection_new_track :
  let '(s, out) := run door1 [[(100, 100)]; [(100, 300)]] in
  (entries s, exits s, PyDict.keys (tracked_people s), out) =
  (0, 0, [0; 1], [NewPerson 0; NewPerson 1]).
Proof. reflexivity. Qed.

(** A track followed across the line in steps below [MATCH_DISTANCE]
    counts one entry; bouncing back at once is blocked by the debounce. *)
Example entry_then_blocked :
  let '(s, out) :=
    run door1 [[(100, 200)]; [(100, 260)]; [(100, 300)]; [(100, 230)]] in
  (entries s, exits s, out) =
  (1, 0, [NewPerson 0; EntryDetected 0 1; CrossingBlocked 0 2]).
Proof. reflexivity. Qed.

(** Track 0 is seen once and then not for 150 ticks, on which track 1 is
    seen: track 0 is there after 149 of them and gone after the 150th; a
    detection at its last position then gets id 2. *)
Example expired_id_not_reused :
  let seen_elsewhere := repeat [(500, 400)] in
  PyDict.keys (tracked_people
                 (fst (run door1 ([(100, 100)] :: seen_elsewhere 149%nat))))
    = [0; 1] /\
  let '(s, out) :=
    run door1 ([(100, 100)] :: seen_elsewhere 150%nat ++ [[(100, 100)]]) in
  (PyDict.keys (tracked_people s), out) =
  ([1; 2], [NewPerson 0; NewPerson 1; LostTrack 0; NewPerson 2]).
Proof. vm_compute. split; reflexivity. Qed.

(** With a debounce that is not positive, which [__init__] never sets, two
    detections of one tick would count two crossings of one track. *)
Example no_debounce_two_crossings :
  let s :=
    mkCounter (mkConfig "Door 1" "" 240 "horizontal" 80 0 30 150 2)
              0 0 false [(0, mkTrack (100, 230) top 999 0)] 1 0 in
  crossings_of 0 (log (update_tracking s [(100, 250); (100, 230)])) =
  [EntryDetected 0 1; ExitDetected 0 1].
Proof. reflexivity. Qed.
End Scenarios.


(** ** The theorems at concrete inputs of door 1 *)

Section Witnesses.
Import PyDict.

Lemma crossing_rule_witness :
  find_match seen_above (100, 250) = Some 0 /\
  get 0 (tracked_people seen_above) = Some (mkTrack (100, 230) top 1000 1) /\
  entries (st (detect seen_above (100, 250))) = entries seen_above + 1.
Proof.
  split; [reflexivity|]. split; [reflexivity|].
  destruct (crossing_rule seen_above (100, 250) 0
                          (mkTrack (100, 230) top 1000 1) eq_refl eq_refl)
    as (_ & t' & _ & _ & _ & Hc & _).
  destruct Hc as (_ & _ & _ & He & _);
    [vm_compute; discriminate | vm_compute; discriminate |].
  exact (proj1 (He eq_refl)).
Defined.

Lemma nearest_or_new_witness :
  let s0 := after (update_tracking door1 [(100, 230)]) in
  let s := st (detect_all s0 []) in
  reachable door1 s0 /\
  keys (tracked_people (st (detect s (100, 250)))) = keys (tracked_people s).
Proof.
  intros s0 s.
  assert (Hr : reachable door1 s0) by apply reach_update, reach_start.
  split; [exact Hr|].
  destruct (nearest_or_new _ _ _ _ s0 [] (100, 250) Hr) as (Hm & _).
  destruct (Hm 0 eq_refl) as (t & _ & _ & _ & _ & _ & _ & Hk & _).
  exact Hk.
Defined.

Lemma first_crossing_counted_witness :
  let tk := detect_all (fst (run door1 [[(100, 230)]])) [] in
  reachable door1 door1 /\ next_id door1 <= 0 /\
  crossings_of 0 (snd (run door1 [[(100, 230)]]) ++ printed tk) = [] /\
  find_match (st tk) (100, 250) = Some 0 /\
  entries (st (detect (st tk) (100, 250)))
  + exits (st (detect (st tk) (100, 250)))
  = entries (st tk) + exits (st tk) + 1.
Proof.
  intros tk.
  split; [apply reach_start|]. split; [vm_compute; discriminate|].
  split; [reflexivity|]. split; [reflexivity|].
  assert (Hside : last_side (mkTrack (100, 230) top 1000 1)
                  <> get_side (st tk) (snd (100, 250)))
    by (vm_compute; discriminate).
  destruct (first_crossing_counted
              _ _ _ _ door1 [[(100, 230)]] [] (100, 250) 0
              (mkTrack (100, 230) top 1000 1)
              (reach_start _) ltac:(vm_compute; discriminate)
              eq_refl eq_refl eq_refl Hside)
    as (_ & _ & He & _).
  exact He.
Defined.

Lemma expiry_after_max_unseen_witness :
  let s := after (update_tracking door1 [(100, 100)]) in
  let ticks := repeat [(500, 400)] 150 in
  reachable door1 s /\
  get 0 (tracked_people s) = Some (mkTrack (100, 100) top 999 0) /\
  unmatched 0 s ticks = true /\
  get 0 (tracked_people (fst (run s ticks))) = None.
Proof.
  intros s ticks.
  assert (Hr : reachable door1 s) by apply reach_update, reach_start.
  assert (Hu : unmatched 0 s ticks = true) by (vm_compute; reflexivity).
  split; [exact Hr|]. split; [reflexivity|]. split; [exact Hu|].
  destruct (expiry_after_max_unseen
              _ _ _ _ s 0 (mkTrack (100, 100) top 999 0) ticks
              Hr eq_refl eq_refl Hu)
    as (_ & Hgone & _).
  destruct (Hgone ltac:(vm_compute; reflexivity)) as [Hnone _].
  exact Hnone.
Defined.

Lemma one_crossing_per_track_witness :
  let s := after (update_tracking door1 [(100, 230)]) in
  let l := [(100, 250); (100, 230); (100, 250)] in
  reachable door1 s /\
  map id (dicts (update_tracking s l)) = [Some 0; Some 0; Some 0] /\
  (List.length (crossings_of 0 (log (update_tracking s l))) <= 1)%nat.
Proof.
  intros s l.
  assert (Hr : reachable door1 s) by apply reach_update, reach_start.
  split; [exact Hr|]. split; [reflexivity|].
  destruct (one_crossing_per_track _ _ _ _ s l Hr) as (_ & _ & Hk).
  exact (proj1 (Hk 0)).
Defined.

Lemma ids_never_reused_witness :
  reachable door1 door1 /\
  StronglySorted Z.lt
    (created (snd (run door1 ([[(100, 100)]] ++ [[(100, 300)]])))).
Proof.
  split; [apply reach_start|].
  destruct (ids_never_reused _ _ _ _ door1 [[(100, 100)]] [[(100, 300)]]
                             (reach_start _))
    as (_ & Hs & _).
  exact Hs.
Defined.

Lemma unused_configuration_witness :
  let other := reconfigure "vertical" 0 door1 in
  same_but_unused door1 other /\
  log (update_tracking door1 [(100, 230); (100, 250)]) =
  log (update_tracking other [(100, 230); (100, 250)]).
Proof.
  intros other.
  assert (H : same_but_unused door1 other) by (repeat split).
  split; [exact H|].
  destruct (unused_configuration door1 other H) as (Hu & _).
  exact (proj2 (proj2 (Hu [(100, 230); (100, 250)]))).
Defined.

Lemma same_tick_match_witness :
  let tk2 := detect_all door1 ([] ++ [(100, 230)]) in
  reachable door1 door1 /\
  find_match (st (detect_all door1 [])) (100, 230) = None /\
  find_match (st tk2) (100, 250) = Some 0 /\
  entries (st (detect (st tk2) (100, 250))) = 1.
Proof.
  intros tk2.
  split; [apply reach_start|]. split; [reflexivity|].
  destruct (same_tick_match _ _ _ _ door1 [] (100, 230) [] (100, 250)
                            (reach_start _) eq_refl)
    as (t & _ & _ & _ & Hiff & _).
  split; [|reflexivity].
  apply (Hiff eq_refl).
  split; [apply (dist_lt_match_distance door1); reflexivity|].
  intros k t' Hg. discriminate Hg.
Defined.
End Witnesses.
(** ** Further properties of [update_tracking] *)

Section Tallies2.
Import PyDict PyDictFacts.

Lemma detect_tally_step s p :
  entries s <= entries (st (detect s p)) /\
  exits s <= exits (st (detect s p)) /\
  entries (st (detect s p)) + exits (st (detect s p))
  <= entries s + exits s + 1.
Proof.
  destruct (detect_cases s p) as [(k & t & _ & _ & ->)|[_ ->]].
  - destruct (matched_step_tally s k t p) as [-> ->].
    destruct (crosses s t p), (last_side t); simpl; lia.
  - simpl. lia.
Qed.

Lemma loop_tally tk l :
  entries (st tk) <= entries (st (loop tk l)) /\
  exits (st tk) <= exits (st (loop tk l)) /\
  entries (st (loop tk l)) + exits (st (loop tk l))
  <= entries (st tk) + exits (st tk) + Z.of_nat (List.length l).
Proof.
  revert tk. induction l as [|p l IH]; intros tk.
  - simpl. lia.
  - change (loop tk (p :: l)) with (loop (detect_tick tk p) l).
    specialize (IH (detect_tick tk p)).
    pose proof (detect_tally_step (st tk) p).
    cbn [detect_tick st] in IH.
    change (List.length (p :: l)) with (S (List.length l)).
    rewrite Nat2Z.inj_succ. lia.
Qed.

(** Entries and exits only grow through a call of [update_tracking],
    together by at most the number of detections; through
    [process_frame] they only grow too, and the occupancy shown moves by
    at most one from the occupancy before the frame. *)
Theorem tallies_grow_slowly s :
  (forall l,
      let o := update_tracking s l in
      entries s <= entries (after o) /\
      exits s <= exits (after o) /\
      entries (after o) + exits (after o)
      <= entries s + exits s + Z.of_nat (List.length l)) /\
  (forall landmarks,
      let '(s', _, _, total_people) := process_frame s landmarks in
      entries s <= entries s' /\ exits s <= exits s' /\
      -1 <= total_people - (entries s - exits s) <= 1).
Proof.
  assert (H : forall s l,
             let o := update_tracking s l in
             entries s <= entries (after o) /\
             exits s <= exits (after o) /\
             entries (after o) + exits (after o)
             <= entries s + exits s + Z.of_nat (List.length l)).
  { clear s. intros s l o. subst o. rewrite update_tracking_after.
    destruct (expire_frame (st (detect_all s l)) (current_ids (detect_all s l)))
      as (_ & _ & -> & -> & _).
    exact (loop_tally (mkTick (age s) [] [] []) l). }
  split; [apply H|].
  intros landmarks. unfold process_frame.
  destruct (_ =? 0); [|simpl; lia].
  destruct landmarks as [center|]; [|simpl; lia].
  pose proof (H (with_frame_count (frame_count s + 1) s) [center]) as Hc.
  cbn zeta in Hc. cbn [entries exits with_frame_count with_detected List.length] in *.
  lia.
Qed.
End Tallies2.

Section ConsecutiveIds.
Import PyDict PyDictFacts.

Lemma ids_from_app a n m :
  ids_from a (n + m) = ids_from a n ++ ids_from (a + Z.of_nat n) m.
Proof.
  revert a. induction n as [|n IH]; intros a.
  - simpl. now rewrite Z.add_0_r.
  - cbn [plus ids_from app]. rewrite IH.
    replace (a + Z.of_nat (S n)) with (a + 1 + Z.of_nat n) by lia.
    reflexivity.
Qed.

Lemma detect_created_exact s p :
  created (printed (detect s p)) =
    ids_from (next_id s) (List.length (created (printed (detect s p)))) /\
  next_id (st (detect s p)) =
    next_id s + Z.of_nat (List.length (created (printed (detect s p)))).
Proof.
  destruct (detect_cases s p) as [(k & t & _ & _ & ->)|[_ ->]].
  - destruct (matched_step_printed s k t p) as (-> & _).
    destruct (matched_step_frame s k t p) as (_ & -> & _).
    simpl. split; [reflexivity | lia].
  - simpl. split; [reflexivity | lia].
Qed.

Lemma loop_created_exact l tk n0 :
  created (printed tk) = ids_from n0 (List.length (created (printed tk))) ->
  next_id (st tk) = n0 + Z.of_nat (List.length (created (printed tk))) ->
  created (printed (loop tk l)) =
    ids_from n0 (List.length (created (printed (loop tk l)))) /\
  next_id (st (loop tk l)) =
    n0 + Z.of_nat (List.length (created (printed (loop tk l)))).
Proof.
  revert tk. induction l as [|p l IH]; intros tk H1 H2; [split; assumption|].
  change (loop tk (p :: l)) with (loop (detect_tick tk p) l).
  destruct (detect_created_exact (st tk) p) as [E1 E2].
  apply IH; cbn [detect_tick st printed]; rewrite created_app, length_app.
  - rewrite ids_from_app, <- H1, <- H2, <- E1. reflexivity.
  - rewrite E2, H2, Nat2Z.inj_add. lia.
Qed.

Lemma update_tracking_created_exact s l :
  created (log (update_tracking s l)) =
    ids_from (next_id s) (List.length (created (log (update_tracking s l)))) /\
  next_id (after (update_tracking s l)) =
    next_id s + Z.of_nat (List.length (created (log (update_tracking s l)))).
Proof.
  rewrite update_tracking_after, update_tracking_log.
  destruct (expire_frame (st (detect_all s l)) (current_ids (detect_all s l)))
    as (_ & -> & _).
  destruct (expire_lost (st (detect_all s l)) (current_ids (detect_all s l)))
    as [d ->].
  rewrite created_app, created_lost, app_nil_r.
  apply (loop_created_exact l (mkTick (age s) [] [] []) (next_id s)).
  - reflexivity.
  - simpl. lia.
Qed.

Lemma run_created_exact s ticks :
  created (snd (run s ticks)) =
    ids_from (next_id s) (List.length (created (snd (run s ticks)))) /\
  next_id (fst (run s ticks)) =
    next_id s + Z.of_nat (List.length (created (snd (run s ticks)))).
Proof.
  revert s. induction ticks as [|l ticks IH]; intros s.
  - simpl. split; [reflexivity | lia].
  - rewrite run_cons. cbn [fst snd].
    destruct (update_tracking_created_exact s l) as [E1 E2].
    destruct (IH (after (update_tracking s l))) as [E3 E4].
    rewrite created_app, length_app, ids_from_app, <- E1, <- E2, <- E3.
    split; [reflexivity|]. rewrite E4, E2, Nat2Z.inj_add. lia.
Qed.

Variables (name u : string) (line : Z) (dir : string).

(** The tracks created over any sequence of calls of [update_tracking]
    get consecutive ids: the [n] ids printed as created are [next_id],
    [next_id + 1], ..., in this order, [next_id] ends [n] higher, and the
    registry then holds the tracks it started with and the tracks under
    these ids, without those printed as lost.  A counter just reset
    numbers its tracks 0, 1, 2, ... again.  After one call the registry
    lists the tracks that stay, then the tracks under the new ids in
    order.  Detection by detection: without a match the track is stored
    under [next_id], the [person_dict] and the printed line carry it and
    [next_id] grows by one; with a match no key is added, nothing is
    printed as created and [next_id] stays. *)
Theorem ids_consecutive s ticks :
  reachable (init name u line dir) s ->
  (let r := run s ticks in
   let n := List.length (created (snd r)) in
   created (snd r) = ids_from (next_id s) n /\
   next_id (fst r) = next_id s + Z.of_nat n /\
   forall k,
     In k (keys (tracked_people (fst r))) <->
     (In k (keys (tracked_people s)) \/ In k (ids_from (next_id s) n)) /\
     ~ In (LostTrack k) (snd r)) /\
  (let r := run (reset s) ticks in
   let n := List.length (created (snd r)) in
   created (snd r) = ids_from 0 n /\
   next_id (fst r) = Z.of_nat n /\
   forall k,
     In k (keys (tracked_people (fst r))) <->
     In k (ids_from 0 n) /\ ~ In (LostTrack k) (snd r)) /\
  (forall l,
      let o := update_tracking s l in
      let n := List.length (created (log o)) in
      next_id (after o) = next_id s + Z.of_nat n /\
      exists old,
        keys (tracked_people (after o)) = old ++ ids_from (next_id s) n /\
        forall k, In k old <->
                  In k (keys (tracked_people s)) /\
                  ~ In (LostTrack k) (log o)) /\
  (forall l1 p,
      let m := st (detect_all s l1) in
      match find_match m p with
      | None =>
          tracked_people (st (detect m p)) =
            tracked_people m ++ [(next_id m, new_track m p)] /\
          map id (people (detect m p)) = [Some (next_id m)] /\
          printed (detect m p) = [NewPerson (next_id m)] /\
          next_id (st (detect m p)) = next_id m + 1
      | Some k =>
          keys (tracked_people (st (detect m p))) = keys (tracked_people m) /\
          map id (people (detect m p)) = [Some k] /\
          created (printed (detect m p)) = [] /\
          next_id (st (detect m p)) = next_id m
      end).
Proof.
  intros Hr. destruct (reachable_init _ _ _ _ _ Hr) as (Hwf & _).
  cbv zeta. split; [|split; [|split]].
  - destruct (run_created_exact s ticks) as [E1 E2].
    split; [exact E1|]. split; [exact E2|].
    intros k. rewrite <- E1. now apply run_keys.
  - destruct (run_created_exact (reset s) ticks) as [E1 E2].
    change (next_id (reset s)) with 0 in E1, E2. rewrite Z.add_0_l in E2.
    split; [exact E1|]. split; [exact E2|].
    intros k. rewrite <- E1, (run_keys ticks (reset s) k (wf_reset s)).
    simpl. tauto.
  - intros l. destruct (update_tracking_created_exact s l) as [E1 E2].
    split; [exact E2|].
    destruct (update_tracking_keys_order s l Hwf) as (old & Hk & Ho).
    exists old. rewrite <- E1. split; assumption.
  - intros l1 p. pose proof (wf_detect_all s l1 Hwf) as Hwf1.
    destruct (find_match (st (detect_all s l1)) p) as [k|] eqn:Hf.
    + destruct (detect_matched_no_id _ _ _ Hf) as (E1 & E2 & E3 & E4).
      repeat split; assumption.
    + destruct (detect_new_id _ _ Hwf1 Hf) as (_ & E1 & E2 & E3 & E4).
      rewrite E2. repeat split; assumption.
Qed.
End ConsecutiveIds.

(** ** What every state of a counter looks like *)

Section StateInvariant.
Import PyDict PyDictFacts.

Lemma sorted_NoDup (l : list Z) : StronglySorted Z.lt l -> NoDup l.
Proof.
  induction 1 as [|x l Hs IH Hx]; constructor; [|assumption].
  intros Hin. rewrite Forall_forall in Hx. specialize (Hx _ Hin). lia.
Qed.

Lemma sorted_snoc (l : list Z) x :
  StronglySorted Z.lt l -> Forall (fun k => k < x) l ->
  StronglySorted Z.lt (l ++ [x]).
Proof.
  induction 1 as [|y l Hs IH Hy]; intros Hx; simpl.
  - repeat constructor.
  - inversion Hx; subst. constructor; [now apply IH|].
    apply Forall_app. split; [assumption | repeat constructor; assumption].
Qed.

Lemma sorted_keys_filter (f : Z * track -> bool) d :
  StronglySorted Z.lt (keys d) -> StronglySorted Z.lt (keys (filter f d)).
Proof.
  induction d as [|[k v] d IH]; simpl; [trivial|].
  intros Hs. inversion Hs as [|? ? Hs' Hk]; subst.
  destruct (f (k, v)); simpl; [|now apply IH].
  constructor; [now apply IH|].
  apply Forall_forall. intros x Hx. rewrite Forall_forall in Hk.
  apply Hk. eapply keys_filter_incl, Hx.
Qed.

Lemma sorted_after (l1 l2 : list Z) x :
  StronglySorted Z.lt (l1 ++ x :: l2) -> Forall (fun k => x < k) l2.
Proof.
  induction l1 as [|y l1 IH]; simpl; intros Hs;
    inversion Hs as [|? ? Hs' Hy]; subst; [assumption | now apply IH].
Qed.

Lemma track_ok_cfg s s' t : cfg s = cfg s' -> track_ok s t -> track_ok s' t.
Proof.
  unfold track_ok. intros Hc. now rewrite (get_side_cfg s s' _ Hc).
Qed.

Lemma Forall_update (P : Z * track -> Prop) k f d :
  Forall P d -> (forall v, P (k, v) -> P (k, f v)) -> Forall P (update k f d).
Proof.
  intros Hd Hf. induction Hd as [|[k' v'] d Hx Hd IH]; simpl; [constructor|].
  destruct (Z.eqb_spec k' k) as [->|_]; constructor; auto.
Qed.

Lemma sane_wf s : sane s -> wf s.
Proof.
  intros (Hs & Hb & _). split; [now apply sorted_NoDup|].
  eapply Forall_impl; [|exact Hb]. simpl. intros; lia.
Qed.

Lemma sane_age s : sane s -> sane (age s).
Proof.
  intros H. pose proof (sane_wf s H) as [Hnd _].
  destruct H as (Hs & Hb & Hn & He & Hx & Ht).
  unfold sane. rewrite (tracked_people_age s Hnd), keys_age_all.
  repeat split; try assumption.
  unfold age_all. apply Forall_map.
  eapply Forall_impl; [|exact Ht]. intros [k t] [H1 H2].
  unfold track_ok. simpl in *. split; [exact H1 | lia].
Qed.

Lemma sane_detect s p : sane s -> sane (st (detect s p)).
Proof.
  intros H. pose proof (sane_wf s H) as Hwf.
  destruct H as (Hs & Hb & Hn & He & Hx & Ht).
  pose proof (detect_tally_step s p) as (He' & Hx' & _).
  destruct (detect_cases s p) as [(k & t & _ & _ & E)|[_ E]]; rewrite E in *.
  - destruct (matched_step_frame s k t p) as (Hc & Hn' & _).
    unfold sane. rewrite matched_step_tracks, keys_update, Hn'.
    repeat split; try assumption; try lia.
    apply Forall_update.
    + eapply Forall_impl; [|exact Ht]. intros kv Hkv.
      eapply track_ok_cfg; [symmetry; exact Hc | exact Hkv].
    + intros v [_ Hv]. simpl in *. split.
      * apply get_side_cfg. now symmetry.
      * destruct (crosses s t p); simpl; lia.
  - unfold sane. rewrite (new_step_tracks s p Hwf), keys_app.
    cbn [keys map fst new_step st next_id entries exits with_next_id with_tracks].
    repeat split; try assumption; try lia.
    + apply sorted_snoc; [assumption|].
      eapply Forall_impl; [|exact Hb]. simpl. intros; lia.
    + apply Forall_app. split.
      * eapply Forall_impl; [|exact Hb]. simpl. intros; lia.
      * repeat constructor; lia.
    + apply Forall_app. split; [exact Ht|].
      repeat constructor; simpl; lia.
Qed.

Lemma sane_loop tk l : sane (st tk) -> sane (st (loop tk l)).
Proof.
  apply (loop_ind (fun k => sane (st k))). intros k p. apply sane_detect.
Qed.

Lemma sane_detect_all s l : sane s -> sane (st (detect_all s l)).
Proof. intros H. apply sane_loop. simpl. now apply sane_age. Qed.

Lemma settled_update_tracking s l :
  sane s -> 0 < MAX_FRAMES_NOT_SEEN (cfg s) ->
  settled (after (update_tracking s l)).
Proof.
  intros H Hmax.
  pose proof (sane_detect_all s l H) as H1.
  pose proof (sane_wf _ H1) as Hwf1. pose proof Hwf1 as [Hnd1 _].
  destruct H1 as (Hs & Hb & Hn & He & Hx & Ht).
  destruct (loop_frame (mkTick (age s) [] [] []) l) as (Hc & _).
  change (cfg (st (detect_all s l)) = cfg s) in Hc.
  rewrite update_tracking_after, expire_closed by assumption.
  unfold settled, sane.
  cbn [fst tracked_people with_tracks next_id entries exits cfg].
  repeat split; try assumption.
  - now apply sorted_keys_filter.
  - apply Forall_forall. intros k Hk. rewrite Forall_forall in Hb.
    eapply Hb, keys_filter_incl, Hk.
  - apply Forall_forall. intros kv Hkv. apply filter_In in Hkv.
    rewrite Forall_forall in Ht. now apply Ht.
  - apply Forall_forall. intros [k t] Hkv. apply filter_In in Hkv.
    destruct Hkv as [Hin Hkept]. simpl.
    unfold kept, keep in Hkept. cbn [fst snd] in Hkept.
    apply orb_prop in Hkept. destruct Hkept as [Hid|Hlt].
    + destruct (loop_bound_seen (mkTick (age s) [] [] []) l) with (k := k)
        as (t1 & Hg1 & Hz); try assumption.
      * simpl. now apply wf_age, sane_wf.
      * simpl. discriminate.
      * pose proof (In_get _ _ _ Hnd1 Hin) as Hg.
        change (loop (mkTick (age s) [] [] []) l) with (detect_all s l) in Hg1.
        rewrite Hg in Hg1. injection Hg1 as <-. rewrite Hz, Hc. exact Hmax.
    + now apply Z.ltb_lt in Hlt.
Qed.

Lemma settled_process_frame s landmarks :
  settled s -> 0 < MAX_FRAMES_NOT_SEEN (cfg s) ->
  settled (fst (fst (fst (process_frame s landmarks)))).
Proof.
  intros H Hmax. unfold process_frame.
  destruct (_ =? 0); [|exact H].
  destruct landmarks as [center|]; [|exact H].
  cbn [fst].
  exact (settled_update_tracking
           (with_frame_count (frame_count s + 1) s) [center] (proj1 H) Hmax).
Qed.

Lemma settled_empty c b n :
  settled (mkCounter c 0 0 b [] 0 n).
Proof. repeat split; simpl; try lia; constructor. Qed.

Lemma reachable_settled name u line dir s :
  reachable (init name u line dir) s -> settled s.
Proof.
  intros Hr.
  induction Hr as [|s l Hr IH|s lm Hr IH|s Hr IH].
  - apply settled_empty.
  - destruct (reachable_init _ _ _ _ _ Hr) as (_ & _ & _ & _ & Hm & _).
    apply settled_update_tracking; [exact (proj1 IH) | lia].
  - destruct (reachable_init _ _ _ _ _ Hr) as (_ & _ & _ & _ & Hm & _).
    apply settled_process_frame; [exact IH | lia].
  - apply settled_empty.
Qed.

Variables (name u : string) (line : Z) (dir : string).

(** In every state of a counter the registry lists the tracks by growing
    id, every id is at least 0 and below [next_id], and entries, exits and
    [next_id] are not negative. *)
Theorem registry_in_id_order s :
  reachable (init name u line dir) s ->
  StronglySorted Z.lt (keys (tracked_people s)) /\
  (forall k, In k (keys (tracked_people s)) -> 0 <= k < next_id s) /\
  0 <= next_id s /\ 0 <= entries s /\ 0 <= exits s.
Proof.
  intros Hr. destruct (reachable_settled _ _ _ _ _ Hr)
    as ((Hs & Hb & Hn & He & Hx & _) & _).
  repeat split; try assumption; rewrite Forall_forall in Hb; now apply Hb.
Qed.

(** In every state of a counter, between calls, every track has as its
    side the side of its position, has been unseen for at least 0 and
    fewer than [MAX_FRAMES_NOT_SEEN] = 150 ticks, and was last seen no
    longer ago than it last crossed or was created. *)
Theorem tracks_consistent s k t :
  reachable (init name u line dir) s ->
  get k (tracked_people s) = Some t ->
  last_side t = get_side s (snd (position t)) /\
  0 <= frames_not_seen t < 150 /\
  frames_not_seen t <= frames_since_crossing t.
Proof.
  intros Hr Hg.
  destruct (reachable_init _ _ _ _ _ Hr) as (_ & _ & _ & _ & Hm & _).
  destruct (reachable_settled _ _ _ _ _ Hr)
    as ((_ & _ & _ & _ & _ & Ht) & Hlt).
  rewrite Forall_forall in Ht, Hlt.
  pose proof (get_In _ _ _ Hg) as Hin.
  destruct (Ht _ Hin) as [H1 H2]. specialize (Hlt _ Hin). simpl in *.
  repeat split; try assumption; lia.
Qed.
End StateInvariant.

(** ** Ties, the debounce window, unseen tracks and empty ticks *)

Section Ticks.
Import PyDict PyDictFacts.

Variables (name u : string) (line : Z) (dir : string).

(** Among the tracks at the least distance from a detection, the one with
    the smallest id, the oldest, is bound. *)
Theorem ties_go_to_oldest s0 l p k t k' t' :
  reachable (init name u line dir) s0 ->
  let s := st (detect_all s0 l) in
  find_match s p = Some k ->
  get k (tracked_people s) = Some t ->
  get k' (tracked_people s) = Some t' ->
  (dist p (position t') <= dist p (position t))%R ->
  k <= k'.
Proof.
  intros Hr s Hm Hg Hg' Hle. apply dist_le_dist in Hle.
  assert (Hsane : sane s).
  { apply sane_detect_all. exact (proj1 (reachable_settled _ _ _ _ _ Hr)). }
  pose proof (sane_wf _ Hsane) as [Hnd _]. destruct Hsane as (Hs & _).
  destruct (find_match_nearest _ _ _ _ Hnd Hm Hg)
    as (d1 & d2 & Hd & _ & H1 & _).
  pose proof (get_In _ _ _ Hg') as Hin. rewrite Hd in Hin, Hs.
  apply in_app_or in Hin. destruct Hin as [Hin|[[= <- <-]|Hin]].
  - rewrite Forall_forall in H1. specialize (H1 _ Hin). simpl in H1. lia.
  - lia.
  - rewrite keys_app in Hs. simpl in Hs. apply sorted_after in Hs.
    rewrite Forall_forall in Hs.
    assert (Hk : In k' (keys d2)).
    { change k' with (fst (k', t')). now apply in_map. }
    specialize (Hs _ Hk). lia.
Qed.

(** What one detection does to [frames_since_crossing] of a track that is
    there already. *)
Lemma detect_since s p k t' :
  wf s -> k < next_id s ->
  get k (tracked_people (st (detect s p))) = Some t' ->
  exists t,
    get k (tracked_people s) = Some t /\
    (crossings_of k (printed (detect s p)) = [] ->
     frames_since_crossing t' = frames_since_crossing t).
Proof.
  intros Hwf Hk Hg.
  destruct (detect_cases s p) as [(k0 & t0 & _ & Hg0 & E)|[_ E]];
    rewrite E in *.
  - rewrite matched_step_tracks, get_update in Hg.
    destruct (matched_step_printed s k0 t0 p) as (_ & Hof & Hlen).
    rewrite (Hof k). clear Hof.
    destruct (Z.eqb_spec k k0) as [->|Hne].
    + rewrite Hg0 in Hg. injection Hg as <-. exists t0.
      split; [assumption|]. rewrite Z.eqb_refl, andb_true_r.
      destruct (crosses s t0 p); [|reflexivity].
      intros Hnil. rewrite Hnil in Hlen. discriminate.
    + exists t'. split; [assumption | reflexivity].
  - cbn [new_step st tracked_people with_next_id with_tracks] in Hg.
    rewrite get_set in Hg.
    destruct (Z.eqb_spec k (next_id s)) as [->|Hne]; [lia|].
    exists t'. split; [assumption | reflexivity].
Qed.

Lemma quiet_loop k B l tk :
  wf (st tk) -> k < next_id (st tk) ->
  B < DEBOUNCE_FRAMES (cfg (st tk)) ->
  crossings_of k (printed tk) = [] ->
  (forall t, get k (tracked_people (st tk)) = Some t ->
             frames_since_crossing t <= B) ->
  crossings_of k (printed (loop tk l)) = [] /\
  (forall t, get k (tracked_people (st (loop tk l))) = Some t ->
             frames_since_crossing t <= B).
Proof.
  revert tk. induction l as [|p l IH]; intros tk Hwf Hk HB Hc Hb;
    [split; assumption|].
  change (loop tk (p :: l)) with (loop (detect_tick tk p) l).
  destruct (detect_frame (st tk) p) as (Hcfg & _ & Hn).
  destruct (detect_crossings (st tk) p Hwf) as (_ & _ & Hcr).
  destruct (Hcr k) as (_ & _ & Hdeb & _).
  assert (Hnil : crossings_of k (printed (detect (st tk) p)) = []).
  { destruct (crossings_of k (printed (detect (st tk) p))) eqn:E;
      [reflexivity|].
    destruct (Hdeb ltac:(discriminate)) as (t & Ht & Hge).
    specialize (Hb t Ht). lia. }
  apply IH; cbn [detect_tick st printed].
  - now apply wf_detect.
  - lia.
  - now rewrite Hcfg.
  - now rewrite crossings_of_app, Hc, Hnil.
  - intros t' Ht'.
    destruct (detect_since (st tk) p k t' Hwf Hk Ht') as (t & Ht & Heq).
    rewrite (Heq Hnil). now apply Hb.
Qed.

Lemma quiet_tick k B s l :
  wf s -> k < next_id s ->
  B + 1 < DEBOUNCE_FRAMES (cfg s) ->
  (forall t, get k (tracked_people s) = Some t ->
             frames_since_crossing t <= B) ->
  crossings_of k (log (update_tracking s l)) = [] /\
  (forall t, get k (tracked_people (after (update_tracking s l))) = Some t ->
             frames_since_crossing t <= B + 1).
Proof.
  intros Hwf Hk HB Hb.
  destruct (quiet_loop k (B + 1) l (mkTick (age s) [] [] [])) as [Hc Hb'];
    try assumption; try reflexivity.
  - now apply wf_age.
  - cbn [st]. intros t Ht. destruct Hwf as [Hnd _].
    rewrite tracked_people_age, get_age_all in Ht by assumption.
    destruct (get k (tracked_people s)) as [t0|] eqn:E; [|discriminate].
    injection Ht as <-. specialize (Hb t0 eq_refl). simpl. lia.
  - pose proof (wf_detect_all s l Hwf) as [Hnd _].
    rewrite update_tracking_log, update_tracking_after.
    destruct (expire_lost (st (detect_all s l)) (current_ids (detect_all s l)))
      as [d Hd].
    rewrite Hd, crossings_of_app, crossings_of_lost, app_nil_r.
    split; [exact Hc|].
    rewrite expire_closed by assumption. cbn [fst tracked_people with_tracks].
    intros t Ht. rewrite get_filter in Ht by assumption.
    destruct (get k (tracked_people (st (detect_all s l)))) as [t0|] eqn:E;
      [|discriminate].
    destruct (kept _ _ (k, t0)); [|discriminate]. injection Ht as <-.
    now apply Hb'.
Qed.

Lemma quiet_run k B s ticks :
  wf s -> k < next_id s ->
  B + Z.of_nat (List.length ticks) < DEBOUNCE_FRAMES (cfg s) ->
  (forall t, get k (tracked_people s) = Some t ->
             frames_since_crossing t <= B) ->
  crossings_of k (snd (run s ticks)) = [].
Proof.
  revert s B. induction ticks as [|l ticks IH]; intros s B Hwf Hk HB Hb;
    [reflexivity|].
  change (List.length (l :: ticks)) with (S (List.length ticks)) in HB.
  rewrite Nat2Z.inj_succ in HB.
  rewrite run_cons. cbn [snd]. rewrite crossings_of_app.
  destruct (quiet_tick k B s l Hwf Hk ltac:(lia) Hb) as [Hc Hb'].
  destruct (update_tracking_frame s l) as (Hcfg & _ & Hn).
  rewrite Hc, (IH (after (update_tracking s l)) (B + 1)); try assumption.
  - reflexivity.
  - now apply wf_update_tracking.
  - lia.
  - rewrite Hcfg. lia.
Qed.

(** A track with [frames_since_crossing = c] has no crossing counted on
    the next [n] ticks as long as [c + n < DEBOUNCE_FRAMES], whatever is
    detected: after a counted crossing ([c = 0]) the 14 ticks that follow
    count nothing for the track. *)
Theorem debounce_window s k t ticks :
  reachable (init name u line dir) s ->
  get k (tracked_people s) = Some t ->
  frames_since_crossing t + Z.of_nat (List.length ticks) < 15 ->
  DEBOUNCE_FRAMES (cfg s) = 15 /\
  crossings_of k (snd (run s ticks)) = [].
Proof.
  intros Hr Hg Hlt.
  destruct (reachable_init _ _ _ _ _ Hr) as (Hwf & _ & Hd & _).
  split; [exact Hd|].
  apply (quiet_run k (frames_since_crossing t)); try assumption.
  - destruct Hwf as [_ Hb]. rewrite Forall_forall in Hb.
    apply Hb, get_keys. eauto.
  - rewrite Hd. exact Hlt.
  - intros t0 Ht0. rewrite Hg in Ht0. injection Ht0 as <-. lia.
Qed.

Lemma unmatched_run_data s k t ticks :
  wf s -> get k (tracked_people s) = Some t ->
  unmatched k s ticks = true ->
  frames_not_seen t + Z.of_nat (List.length ticks) < MAX_FRAMES_NOT_SEEN (cfg s) ->
  get k (tracked_people (fst (run s ticks))) =
  Some (mkTrack (position t) (last_side t)
                (frames_since_crossing t + Z.of_nat (List.length ticks))
                (frames_not_seen t + Z.of_nat (List.length ticks))).
Proof.
  revert s t. induction ticks as [|l ticks IH]; intros s t Hwf Hg Hu Hlt.
  - simpl. rewrite Hg, !Z.add_0_r. now destruct t.
  - cbn [unmatched] in Hu. apply andb_prop in Hu. destruct Hu as [Hl Hu].
    apply negb_true_iff in Hl.
    change (List.length (l :: ticks)) with (S (List.length ticks)) in *.
    rewrite Nat2Z.inj_succ in *.
    destruct (unmatched_tick s k t l Hwf Hg Hl) as [Hkeep _].
    specialize (Hkeep ltac:(lia)).
    destruct (update_tracking_frame s l) as (Hc & _).
    rewrite run_cons. cbn [fst].
    rewrite (IH (after (update_tracking s l)) (age_track t)); try assumption.
    + simpl. f_equal. f_equal; lia.
    + now apply wf_update_tracking.
    + rewrite Hc. simpl. lia.
Qed.

(** A track that no detection is bound to for [n] ticks in a row, short of
    the limit, keeps its position and its side, and both its counters grow
    by [n]. *)
Theorem unseen_track_only_ages s k t ticks :
  reachable (init name u line dir) s ->
  get k (tracked_people s) = Some t ->
  unmatched k s ticks = true ->
  frames_not_seen t + Z.of_nat (List.length ticks) < 150 ->
  get k (tracked_people (fst (run s ticks))) =
  Some (mkTrack (position t) (last_side t)
                (frames_since_crossing t + Z.of_nat (List.length ticks))
                (frames_not_seen t + Z.of_nat (List.length ticks))).
Proof.
  intros Hr Hg Hu Hlt.
  destruct (reachable_init _ _ _ _ _ Hr) as (Hwf & _ & _ & _ & Hm & _).
  apply unmatched_run_data; try assumption. rewrite Hm. exact Hlt.
Qed.

(** A call of [update_tracking] with no detection: nothing is counted,
    created or written; every track is one tick older, and exactly the
    tracks that reach [MAX_FRAMES_NOT_SEEN] unseen ticks are removed and
    printed as lost. *)
Theorem no_detection_tick s :
  reachable (init name u line dir) s ->
  let o := update_tracking s [] in
  dicts o = [] /\
  entries (after o) = entries s /\ exits (after o) = exits s /\
  next_id (after o) = next_id s /\
  created (log o) = [] /\ crossings (log o) = [] /\
  (forall k,
      get k (tracked_people (after o)) =
      match get k (tracked_people s) with
      | Some t =>
          if frames_not_seen t + 1 <? MAX_FRAMES_NOT_SEEN (cfg s)
          then Some (mkTrack (position t) (last_side t)
                             (frames_since_crossing t + 1)
                             (frames_not_seen t + 1))
          else None
      | None => None
      end) /\
  (forall k,
      In (LostTrack k) (log o) <->
      exists t, get k (tracked_people s) = Some t /\
                MAX_FRAMES_NOT_SEEN (cfg s) <= frames_not_seen t + 1).
Proof.
  intros Hr o. subst o.
  destruct (reachable_init _ _ _ _ _ Hr) as (Hwf & _).
  pose proof (wf_age s Hwf) as [Hnd' _]. pose proof Hwf as [Hnd _].
  rewrite update_tracking_dicts, update_tracking_after, update_tracking_log.
  change (detect_all s []) with (mkTick (age s) [] [] []).
  cbn [st current_ids people printed app].
  rewrite expire_closed by assumption.
  cbn [fst snd entries exits next_id tracked_people with_tracks].
  rewrite created_lost.
  split; [reflexivity|]. split; [reflexivity|]. split; [reflexivity|].
  split; [reflexivity|]. split; [reflexivity|]. split.
  { unfold crossings. apply filter_lost. reflexivity. }
  split.
  - intros k. rewrite get_filter by assumption.
    rewrite (tracked_people_age s Hnd), get_age_all.
    destruct (get k (tracked_people s)) as [t|]; [|reflexivity].
    simpl. unfold kept, keep. cbn [fst snd in_ids existsb orb].
    simpl. reflexivity.
  - intros k. rewrite in_map_iff. split.
    + intros ([k' t'] & [= <-] & Hin). apply filter_In in Hin.
      destruct Hin as [Hin Hk].
      rewrite (tracked_people_age s Hnd) in Hin.
      unfold age_all in Hin. apply in_map_iff in Hin.
      destruct Hin as ([k0 t0] & [= <- <-] & Hin0).
      exists t0. split; [now apply In_get|].
      unfold kept, keep in Hk. cbn [fst snd in_ids existsb orb] in Hk.
      apply negb_true_iff, Z.ltb_ge in Hk. simpl in Hk. exact Hk.
    + intros (t & Hg & Hge). exists (k, age_track t). split; [reflexivity|].
      apply filter_In. split.
      * rewrite (tracked_people_age s Hnd). unfold age_all.
        apply in_map_iff. exists (k, t). split; [reflexivity|].
        now apply get_In.
      * unfold kept, keep. cbn [fst snd in_ids existsb orb].
        apply negb_true_iff, Z.ltb_ge. simpl. exact Hge.
Qed.

Lemma loop_people l tk :
  map pos (people (loop tk l)) = map pos (people tk) ++ l /\
  (forall pd, In pd (people (loop tk l)) ->
              In pd (people tk) \/
              exists k, id pd = Some k /\
                        in_ids k (current_ids (loop tk l)) = true).
Proof.
  revert tk. induction l as [|p l IH]; intros tk.
  - simpl. rewrite app_nil_r. split; [reflexivity | tauto].
  - change (loop tk (p :: l)) with (loop (detect_tick tk p) l).
    destruct (IH (detect_tick tk p)) as [E H]. rewrite E.
    assert (Hone : exists k,
               people (detect (st tk) p) = [mkPerson p (Some k) (crossing
                 (hd (mkPerson p None None) (people (detect (st tk) p))))] /\
               current_ids (detect (st tk) p) = [k]).
    { destruct (detect_cases (st tk) p) as [(k & t & _ & _ & ->)|[_ ->]].
      - exists k. rewrite matched_step_people.
        destruct (matched_step_frame (st tk) k t p) as (_ & _ & _ & _ & ->).
        split; reflexivity.
      - exists (next_id (st tk)). split; reflexivity. }
    destruct Hone as (k & Hp & Hi).
    cbn [detect_tick people] in *. split.
    + rewrite map_app, Hp, <- app_assoc. reflexivity.
    + intros pd Hin. destruct (H pd Hin) as [Hin'|Hex]; [|now right].
      apply in_app_or in Hin'. destruct Hin' as [Hin'|Hin']; [now left|].
      right. exists k. rewrite Hp in Hin'. destruct Hin' as [<-|[]].
      split; [reflexivity|].
      apply loop_ids_mono. cbn [detect_tick current_ids].
      rewrite in_ids_app, Hi, in_ids_one, Z.eqb_refl. apply orb_true_r.
Qed.

Lemma bound_ids_kept s l k :
  wf s -> in_ids k (current_ids (detect_all s l)) = true ->
  exists t, get k (tracked_people (after (update_tracking s l))) = Some t /\
            frames_not_seen t = 0.
Proof.
  intros Hwf Hin.
  pose proof (wf_detect_all s l Hwf) as [Hnd _].
  destruct (loop_bound_seen (mkTick (age s) [] [] []) l) with (k := k)
    as (t & Hg & Hz); try assumption.
  - simpl. now apply wf_age.
  - simpl. discriminate.
  - exists t. split; [|assumption].
    rewrite update_tracking_after, expire_closed by assumption.
    cbn [fst tracked_people with_tracks].
    change (loop (mkTick (age s) [] [] []) l) with (detect_all s l) in Hg.
    rewrite get_filter, Hg by assumption.
    unfold kept, keep. cbn [fst snd]. now rewrite Hin.
Qed.

(** A call of [update_tracking] writes one [person_dict] per detection, in
    input order, each with the position of its detection and the id of a
    track that is in the registry after the call, seen on this tick. *)
Theorem every_detection_gets_a_track s l :
  reachable (init name u line dir) s ->
  let o := update_tracking s l in
  map pos (dicts o) = l /\
  forall pd,
    In pd (dicts o) ->
    exists k t,
      id pd = Some k /\
      get k (tracked_people (after o)) = Some t /\
      frames_not_seen t = 0 /\ k < next_id (after o).
Proof.
  intros Hr o. subst o.
  destruct (reachable_init _ _ _ _ _ Hr) as (Hwf & _).
  rewrite update_tracking_dicts.
  destruct (loop_people l (mkTick (age s) [] [] [])) as [E H].
  split; [exact E|].
  intros pd Hin. destruct (H pd Hin) as [[]|(k & Hid & Hk)].
  destruct (bound_ids_kept s l k Hwf Hk) as (t & Hg & Hz).
  exists k, t. repeat split; try assumption.
  destruct (wf_update_tracking s l Hwf) as [_ Hb].
  rewrite Forall_forall in Hb. apply Hb, get_keys. eauto.
Qed.
End Ticks.

(** ** The frame count, the detection flag and [reset] *)

Section FrameCount.
Import PyDict PyDictFacts.

Variables (n : Z) (b : bool).

Lemma unblocked_app a c : unblocked (a ++ c) = unblocked a ++ unblocked c.
Proof. apply filter_app. Qed.

Lemma detect_reframe s p :
  st (detect (reframe n b s) p) = reframe n b (st (detect s p)) /\
  current_ids (detect (reframe n b s) p) = current_ids (detect s p) /\
  people (detect (reframe n b s) p) = people (detect s p) /\
  unblocked (printed (detect (reframe n b s) p)) =
  unblocked (printed (detect s p)).
Proof.
  unfold detect.
  change (find_match (reframe n b s) p) with (find_match s p).
  change (tracked_people (reframe n b s)) with (tracked_people s).
  destruct (find_match s p) as [k|]; [|repeat split].
  destruct (get k (tracked_people s)) as [t|]; [|repeat split].
  unfold matched_step.
  change (get_side (reframe n b s) (snd p)) with (get_side s (snd p)).
  change (DEBOUNCE_FRAMES (cfg (reframe n b s))) with (DEBOUNCE_FRAMES (cfg s)).
  change (frame_count (reframe n b s)) with n.
  destruct (last_side t), (get_side s (snd p)),
           (frames_since_crossing t >=? DEBOUNCE_FRAMES (cfg s)),
           (n mod 30 =? 0), (frame_count s mod 30 =? 0);
    cbn [side_eqb negb andb]; repeat split.
Qed.

Lemma loop_reframe l tk tk' :
  st tk' = reframe n b (st tk) ->
  current_ids tk' = current_ids tk ->
  people tk' = people tk ->
  unblocked (printed tk') = unblocked (printed tk) ->
  st (loop tk' l) = reframe n b (st (loop tk l)) /\
  current_ids (loop tk' l) = current_ids (loop tk l) /\
  people (loop tk' l) = people (loop tk l) /\
  unblocked (printed (loop tk' l)) = unblocked (printed (loop tk l)).
Proof.
  revert tk tk'. induction l as [|p l IH]; intros tk tk' H1 H2 H3 H4;
    [repeat split; assumption|].
  change (loop ?k (p :: l)) with (loop (detect_tick k p) l).
  destruct (detect_reframe (st tk) p) as (E1 & E2 & E3 & E4).
  apply IH; cbn [detect_tick st current_ids people printed]; rewrite H1.
  - exact E1.
  - now rewrite E2, H2.
  - now rewrite E3, H3.
  - now rewrite !unblocked_app, E4, H4.
Qed.

Lemma update_tracking_reframe s l :
  after (update_tracking (reframe n b s) l) =
    reframe n b (after (update_tracking s l)) /\
  dicts (update_tracking (reframe n b s) l) = dicts (update_tracking s l) /\
  unblocked (log (update_tracking (reframe n b s) l)) =
    unblocked (log (update_tracking s l)).
Proof.
  destruct (loop_reframe l (mkTick (age s) [] [] [])
                         (mkTick (age (reframe n b s)) [] [] []))
    as (E1 & E2 & E3 & E4); try reflexivity.
  change (loop (mkTick (age s) [] [] []) l) with (detect_all s l) in *.
  change (loop (mkTick (age (reframe n b s)) [] [] []) l)
    with (detect_all (reframe n b s) l) in *.
  rewrite !update_tracking_after, !update_tracking_dicts, !update_tracking_log.
  rewrite E1, E2, E3, !unblocked_app, E4.
  repeat split.
Qed.

Lemma run_reframe s ticks :
  fst (run (reframe n b s) ticks) = reframe n b (fst (run s ticks)) /\
  unblocked (snd (run (reframe n b s) ticks)) = unblocked (snd (run s ticks)).
Proof.
  revert s. induction ticks as [|l ticks IH]; intros s; [split; reflexivity|].
  rewrite !run_cons. cbn [fst snd].
  destruct (update_tracking_reframe s l) as (E1 & _ & E3).
  rewrite E1. destruct (IH (after (update_tracking s l))) as [E4 E5].
  rewrite !unblocked_app, E3, E4, E5. split; reflexivity.
Qed.
End FrameCount.

Section FreshStart.
Import PyDict PyDictFacts.

(** [frame_count] and [is_person_detected] bear on a call of
    [update_tracking], and on any sequence of calls, only through the
    "Crossing blocked" lines printed: with other values of the two, the
    registry, the tallies, [next_id], the [person_dict]s and all other
    lines come out the same; and [update_tracking] leaves the two as they
    are. *)
Theorem frame_count_only_logs s n b :
  (forall l,
      after (update_tracking (reframe n b s) l) =
        reframe n b (after (update_tracking s l)) /\
      dicts (update_tracking (reframe n b s) l) = dicts (update_tracking s l) /\
      unblocked (log (update_tracking (reframe n b s) l)) =
        unblocked (log (update_tracking s l))) /\
  (forall ticks,
      fst (run (reframe n b s) ticks) = reframe n b (fst (run s ticks)) /\
      unblocked (snd (run (reframe n b s) ticks)) =
        unblocked (snd (run s ticks))) /\
  (forall ticks,
      frame_count (fst (run s ticks)) = frame_count s /\
      is_person_detected (fst (run s ticks)) = is_person_detected s).
Proof.
  split; [intros l; apply update_tracking_reframe|].
  split; [intros ticks; apply run_reframe|].
  intros ticks.
  destruct (run_reframe (frame_count s) (is_person_detected s) s ticks)
    as [E _].
  assert (Hs : reframe (frame_count s) (is_person_detected s) s = s)
    by now destruct s.
  rewrite Hs in E. rewrite E. split; reflexivity.
Qed.

(** After [reset], a counter behaves as a new one: on the same ticks it
    reaches the same registry, tallies and [next_id] as the counter
    [__init__] built, and prints the same lines, the "Crossing blocked"
    ones apart. *)
Theorem reset_like_new name u line dir s ticks :
  reachable (init name u line dir) s ->
  let r := run (reset s) ticks in
  let r0 := run (init name u line dir) ticks in
  tracked_people (fst r) = tracked_people (fst r0) /\
  entries (fst r) = entries (fst r0) /\
  exits (fst r) = exits (fst r0) /\
  next_id (fst r) = next_id (fst r0) /\
  unblocked (snd r) = unblocked (snd r0).
Proof.
  intros Hr r r0. subst r r0.
  destruct (reachable_wf _ _ (wf_init name u line dir) Hr) as [_ Hc].
  assert (E : reset s = reframe (frame_count s) (is_person_detected s)
                                (init name u line dir)).
  { unfold reset, reframe, with_next_id, with_tracks, with_exits,
      with_entries, with_frame_count, with_detected. simpl.
    rewrite Hc. reflexivity. }
  rewrite E.
  destruct (run_reframe (frame_count s) (is_person_detected s)
                        (init name u line dir) ticks) as [-> ->].
  repeat split.
Qed.

(** [process_frame] counts the frame; it works on every second frame
    only, and calls [update_tracking] only when that frame shows a person.
    On any other frame the registry, the tallies and [next_id] stay as they
    are (the tracks do not age) and nothing is printed.  The detection
    flag is kept on a skipped frame and tells, after a processed one,
    whether it showed a person. *)
Theorem process_frame_skips name u line dir s landmarks :
  reachable (init name u line dir) s ->
  let '(s', ps, out, total_people) := process_frame s landmarks in
  let processed := (frame_count s + 1) mod 2 =? 0 in
  frame_count s' = frame_count s + 1 /\
  (processed = false \/ landmarks = None ->
   tracked_people s' = tracked_people s /\
   entries s' = entries s /\ exits s' = exits s /\
   next_id s' = next_id s /\ ps = [] /\ out = []) /\
  (processed = false -> is_person_detected s' = is_person_detected s) /\
  (processed = true ->
   is_person_detected s' =
     match landmarks with Some _ => true | None => false end) /\
  (forall center,
      processed = true -> landmarks = Some center ->
      let o := update_tracking s [center] in
      tracked_people s' = tracked_people (after o) /\
      entries s' = entries (after o) /\ exits s' = exits (after o) /\
      next_id s' = next_id (after o) /\ ps = dicts o /\
      unblocked out = unblocked (log o)).
Proof.
  intros Hr.
  destruct (reachable_init _ _ _ _ _ Hr) as (_ & _ & _ & _ & _ & Hp & _).
  unfold process_frame.
  cbn [cfg frame_count with_frame_count]. rewrite Hp.
  destruct ((frame_count s + 1) mod 2 =? 0) eqn:Ep.
  - destruct landmarks as [center|].
    + cbv zeta.
      destruct (update_tracking_frame
                  (with_frame_count (frame_count s + 1) s) [center])
        as (_ & Hf & _).
      cbn [frame_count with_detected with_frame_count] in *.
      split; [exact Hf|].
      split; [intros [H|H]; discriminate|].
      split; [discriminate|]. split; [reflexivity|].
      intros c _ [= <-].
      assert (Hs : with_frame_count (frame_count s + 1) s =
                   reframe (frame_count s + 1) (is_person_detected s) s)
        by now destruct s.
      rewrite Hs.
      destruct (update_tracking_reframe (frame_count s + 1)
                                        (is_person_detected s) s [center])
        as (-> & -> & ->).
      repeat split.
    + cbv zeta. cbn. repeat split; try reflexivity; discriminate.
  - cbv zeta. cbn. repeat split; try reflexivity; discriminate.
Qed.
End FreshStart.

(** ** The monitor: keys, reset of all doors, quitting, the doors apart *)

Section Monitor.
Import PyDict PyDictFacts.

Lemma land_255 k : Z.land k 255 = k mod 256.
Proof. change 255 with (Z.ones 8). now rewrite Z.land_ones. Qed.

(** Only the low byte of the value of [cv2.waitKey] counts: the loop is
    left exactly when it is 113 ('q'), all doors are reset exactly when it
    is 114 ('r'), values that differ by a multiple of 256 do the same, and
    -1, no key, does nothing. *)
Theorem key_low_byte k :
  (handle_key k = Quit <-> k mod 256 = 113) /\
  (handle_key k = ResetAll <-> k mod 256 = 114) /\
  (forall j, handle_key (k + 256 * j) = handle_key k) /\
  handle_key (-1) = Continue.
Proof.
  unfold handle_key. cbv zeta. rewrite land_255.
  split; [|split; [|split]].
  - destruct (Z.eqb_spec (k mod 256) 113); [tauto|].
    destruct (Z.eqb_spec (k mod 256) 114); split; congruence.
  - destruct (Z.eqb_spec (k mod 256) 113) as [E|_].
    + split; [discriminate | lia].
    + destruct (Z.eqb_spec (k mod 256) 114); split; congruence.
  - intros j. rewrite land_255.
    replace (k + 256 * j) with (k + j * 256) by lia.
    now rewrite Z.mod_add by lia.
  - reflexivity.
Qed.

Lemma door_states_trans c0 c c' :
  door_states c0 c -> door_states c c' -> door_states c0 c'.
Proof.
  intros H0 H. induction H; [assumption | |].
  - now apply door_frame.
  - now apply door_reset.
Qed.

Lemma door_states_reachable c0 c : door_states c0 c -> reachable c0 c.
Proof.
  intros H. induction H; [apply reach_start | |].
  - now apply reach_frame.
  - now apply reach_reset.
Qed.

Lemma read_door_states c read : door_states c (fst (read_door c read)).
Proof.
  destruct read as [landmarks|]; [|apply door_start].
  unfold read_door.
  pose proof (door_frame c c landmarks (door_start c)) as H.
  destruct (process_frame c landmarks) as [[[c' ps] out] total]. exact H.
Qed.

Lemma door_map (f : string -> counter -> counter) name cs :
  door name (map (fun nc => (fst nc, f (fst nc) (snd nc))) cs) =
  option_map (f name) (door name cs).
Proof.
  induction cs as [|[name' c] cs IH]; [reflexivity|].
  simpl. destruct (String.eqb_spec name' name) as [->|_]; [reflexivity|].
  exact IH.
Qed.

Lemma iteration_counters m reads k :
  counters (fst (fst (iteration m reads k))) =
  map (fun nc => (fst nc, turn_door (reads (fst nc)) k (snd nc))) (counters m).
Proof.
  unfold iteration, turn_door. cbv zeta.
  destruct (handle_key k); cbn [fst counters]; try reflexivity.
  rewrite map_map. reflexivity.
Qed.

Lemma iteration_stop m reads k :
  snd (iteration m reads k) = true <-> handle_key k = Quit.
Proof.
  unfold iteration. cbv zeta.
  destruct (handle_key k); cbn [snd]; split; congruence.
Qed.

Lemma main_loop_cons m reads k rest :
  main_loop m ((reads, k) :: rest) =
  if snd (iteration m reads k)
  then (fst (fst (iteration m reads k)), snd (fst (iteration m reads k)), true)
  else
    (fst (fst (main_loop (fst (fst (iteration m reads k))) rest)),
     snd (fst (iteration m reads k))
     ++ snd (fst (main_loop (fst (fst (iteration m reads k))) rest)),
     snd (main_loop (fst (fst (iteration m reads k))) rest)).
Proof.
  cbn [main_loop].
  destruct (iteration m reads k) as [[m' out] stop]. cbn [fst snd].
  destruct stop; [reflexivity|].
  now destruct (main_loop m' rest) as [[m'' out'] stop'].
Qed.

(** The key 'r' resets every door: after the turn each counter has no
    entries, no exits, no tracks and [next_id = 0], the occupancy over all
    doors is 0, the doors are the same, and the loop goes on. *)
Theorem reset_key_resets_all m reads k :
  handle_key k = ResetAll ->
  let '(m', out, stop) := iteration m reads k in
  stop = false /\
  map fst (counters m') = map fst (counters m) /\
  (forall name c,
      In (name, c) (counters m') ->
      entries c = 0 /\ exits c = 0 /\ tracked_people c = [] /\ next_id c = 0) /\
  status_total (map snd (counters m')) = 0 /\
  create_dashboard (map snd (counters m')) = (0, 0, 0).
Proof.
  intros Hk. unfold iteration. cbv zeta. rewrite Hk.
  cbn [counters]. rewrite !map_map. cbn [fst snd].
  set (f := fun nc : string * counter =>
              fst (read_door (snd nc) (reads (fst nc)))).
  split; [reflexivity|]. split; [reflexivity|]. split.
  - intros name c Hin. apply in_map_iff in Hin.
    destruct Hin as (nc & [= <- <-] & _). repeat split.
  - assert (H : forall cs : list (string * counter),
               create_dashboard (map (fun x => reset (f x)) cs) = (0, 0, 0)).
    { induction cs as [|x cs IH]; [reflexivity|].
      cbn [map]. rewrite create_dashboard_cons, IH. reflexivity. }
    rewrite status_total_dashboard, H. split; reflexivity.
Qed.

(** The loop is left at the first quit key: the turns before it are run,
    the doors are still read on the turn of the key, and what would come
    after is not looked at; without a quit key every turn is run. *)
Theorem quit_key_stops m pre reads k post :
  Forall (fun rk => handle_key (snd rk) <> Quit) pre ->
  (handle_key k = Quit ->
   main_loop m (pre ++ (reads, k) :: post) =
   (fst (fst (iteration (fst (fst (main_loop m pre))) reads k)),
    snd (fst (main_loop m pre))
    ++ snd (fst (iteration (fst (fst (main_loop m pre))) reads k)),
    true)) /\
  snd (main_loop m pre) = false /\
  loop_frame_count (fst (fst (main_loop m pre))) =
  loop_frame_count m + Z.of_nat (List.length pre).
Proof.
  revert m. induction pre as [|[r0 k0] pre IH]; intros m Hpre.
  - split; [|split; [reflexivity | simpl; lia]].
    intros Hk. cbn [app]. rewrite main_loop_cons.
    rewrite (proj2 (iteration_stop m reads k) Hk). reflexivity.
  - inversion Hpre as [|? ? H0 Hpre']; subst. cbn [snd] in H0.
    assert (Hs : snd (iteration m r0 k0) = false).
    { destruct (snd (iteration m r0 k0)) eqn:E; [|reflexivity].
      apply iteration_stop in E. contradiction. }
    destruct (IH (fst (fst (iteration m r0 k0))) Hpre') as (H1 & H2 & H3).
    rewrite <- app_comm_cons, !main_loop_cons, Hs. cbn [fst snd].
    split; [|split].
    + intros Hk. rewrite (H1 Hk). cbn [fst snd]. now rewrite app_assoc.
    + exact H2.
    + rewrite H3.
      assert (Hf : loop_frame_count (fst (fst (iteration m r0 k0))) =
                   loop_frame_count m + 1).
      { unfold iteration. cbv zeta. now destruct (handle_key k0). }
      rewrite Hf. change (List.length ((r0, k0) :: pre))
        with (S (List.length pre)). lia.
Qed.

Lemma turn_door_states read k c : door_states c (turn_door read k c).
Proof.
  unfold turn_door. cbv zeta.
  destruct (handle_key k); try apply read_door_states.
  apply door_reset, read_door_states.
Qed.

Lemma main_loop_doors m inputs :
  Forall2 (fun a c => fst a = fst c /\ door_states (snd a) (snd c))
          (counters m) (counters (fst (fst (main_loop m inputs)))).
Proof.
  revert m. induction inputs as [|[reads k] rest IH]; intros m.
  - simpl. induction (counters m) as [|x cs IHc]; constructor; auto.
    split; [reflexivity | apply door_start].
  - rewrite main_loop_cons.
    assert (H1 : Forall2 (fun a c => fst a = fst c /\ door_states (snd a) (snd c))
                         (counters m)
                         (counters (fst (fst (iteration m reads k))))).
    { rewrite iteration_counters.
      induction (counters m) as [|x cs IHc]; constructor; auto.
      split; [reflexivity | apply turn_door_states]. }
    destruct (snd (iteration m reads k)); cbn [fst]; [exact H1|].
    specialize (IH (fst (fst (iteration m reads k)))).
    revert H1 IH.
    generalize (counters (fst (fst (iteration m reads k)))).
    generalize (counters (fst (fst (main_loop (fst (fst (iteration m reads k))) rest)))).
    generalize (counters m). clear.
    intros l1 l3 l2 H12. revert l3.
    induction H12 as [|a b l1 l2 [Hn Hr] H12 IH]; intros l3 H23;
      inversion H23 as [|? c ? l3' [Hn' Hr'] H23']; subst; constructor.
    + split; [congruence | eapply door_states_trans; eassumption].
    + now apply IH.
Qed.

(** The doors the loop works on are those whose camera opened, each
    started by [__init__] from its entry of the configuration, with
    "horizontal" when no direction is given; and whatever the turns, the
    loop keeps the same doors in the same order, each counter in a state
    that calls of [process_frame] and of [reset] on it, and no other, lead
    to from its first state; such a state is one of those the invariants
    of a counter hold in. *)
Theorem doors_stay_reachable door_configs connect inputs :
  let cs0 := fst (initialize door_configs connect) in
  let m := fst (fst (main_loop (mkMonitor cs0 0) inputs)) in
  snd (initialize door_configs connect) = negb (Nat.eqb (List.length cs0) 0) /\
  (forall name c0,
      In (name, c0) cs0 <->
      exists conf,
        In (name, conf) door_configs /\ connect name = true /\
        c0 = init name (door_url conf) (door_entry_line conf)
                  (match door_direction conf with
                   | Some d => d
                   | None => "horizontal"
                   end)) /\
  Forall2 (fun a c => fst a = fst c /\ door_states (snd a) (snd c) /\
                      reachable (snd a) (snd c))
          cs0 (counters m).
Proof.
  intros cs0 m. subst cs0 m. split; [|split].
  - unfold initialize. cbn [fst snd].
    destruct (flat_map _ door_configs); reflexivity.
  - intros name c0. unfold initialize. cbn [fst]. rewrite in_flat_map. split.
    + intros ([name' conf] & Hin & Hc). cbn [fst snd] in Hc.
      destruct (connect name') eqn:E; [|contradiction].
      destruct Hc as [[= <- <-]|[]]. exists conf. auto.
    + intros (conf & Hin & Hc & ->). exists (name, conf).
      split; [assumption|]. cbn [fst snd]. rewrite Hc. now left.
  - eapply Forall2_impl; [|exact (main_loop_doors (mkMonitor _ 0) inputs)].
    intros a c [Hn Hd]. split; [exact Hn|]. split; [exact Hd|].
    now apply door_states_reachable.
Qed.

(** The doors do not touch each other: what a turn leaves as the counter
    of a door follows from that door's counter, its own read and the key;
    a failed read without a reset key leaves the counter as it is; and two
    runs of the loop that give a door the same reads and keys leave it the
    same counter, whatever the other doors read. *)
Theorem doors_are_isolated name :
  (forall m reads k,
      door name (counters (fst (fst (iteration m reads k)))) =
      option_map (turn_door (reads name) k) (door name (counters m))) /\
  (forall m reads k c,
      door name (counters m) = Some c ->
      reads name = None -> handle_key k <> ResetAll ->
      door name (counters (fst (fst (iteration m reads k)))) = Some c) /\
  (forall inputs1 inputs2 m1 m2,
      door name (counters m1) = door name (counters m2) ->
      Forall2 (fun a c => fst a name = fst c name /\ snd a = snd c)
              inputs1 inputs2 ->
      door name (counters (fst (fst (main_loop m1 inputs1)))) =
      door name (counters (fst (fst (main_loop m2 inputs2))))).
Proof.
  assert (H1 : forall m reads k,
             door name (counters (fst (fst (iteration m reads k)))) =
             option_map (turn_door (reads name) k) (door name (counters m))).
  { intros m reads k. rewrite iteration_counters.
    exact (door_map (fun n c => turn_door (reads n) k c) name (counters m)). }
  split; [exact H1|]. split.
  - intros m reads k c Hc Hr Hk. rewrite H1, Hc, Hr. simpl.
    unfold turn_door. cbn. destruct (handle_key k); congruence.
  - intros inputs1 inputs2 m1 m2 Hd Hin. revert m1 m2 Hd.
    induction Hin as [|[r1 k1] [r2 k2] l1 l2 [Hr Hk] Hin IH];
      intros m1 m2 Hd; [exact Hd|].
    cbn [fst snd] in Hr, Hk. subst k2.
    rewrite !main_loop_cons.
    assert (Hs : snd (iteration m1 r1 k1) = snd (iteration m2 r2 k1)).
    { unfold iteration. cbv zeta. now destruct (handle_key k1). }
    assert (Hi : door name (counters (fst (fst (iteration m1 r1 k1)))) =
                 door name (counters (fst (fst (iteration m2 r2 k1))))).
    { now rewrite !H1, Hd, Hr. }
    rewrite <- Hs. destruct (snd (iteration m1 r1 k1)); cbn [fst].
    + exact Hi.
    + now apply IH.
Qed.
End Monitor.

Section Dashboard.

(** [create_dashboard] returns nothing for no frame and a picture
    otherwise; it shows the first three frames only, any further frame is
    left out; the panel carries the sums of entries and of exits over the
    doors and their difference, in red when the difference is negative and
    in green otherwise. *)
Theorem dashboard_shows_three {F : Type} (cs : list counter) :
  create_dashboard_picture (@nil F) cs = None /\
  (forall (f1 f2 f3 : F) rest,
      create_dashboard_picture (f1 :: f2 :: f3 :: rest) cs =
      create_dashboard_picture [f1; f2; f3] cs) /\
  (forall (f : F) fs,
      exists combined color,
        create_dashboard_picture (f :: fs) cs =
        Some (vstack (InfoPanel combined (sum_ints (map entries cs))
                                (sum_ints (map exits cs))
                                (sum_ints (map entries cs)
                                 - sum_ints (map exits cs)) color)
                     combined) /\
        (color = (0, 0, 255) <->
         sum_ints (map entries cs) < sum_ints (map exits cs)) /\
        (color = (0, 255, 0) <->
         sum_ints (map exits cs) <= sum_ints (map entries cs))).
Proof.
  split; [reflexivity|]. split; [reflexivity|].
  intros f fs.
  assert (H : forall combined : picture F,
             exists color,
               add_info_panel cs combined =
               vstack (InfoPanel combined (sum_ints (map entries cs))
                                 (sum_ints (map exits cs))
                                 (sum_ints (map entries cs)
                                  - sum_ints (map exits cs)) color)
                      combined /\
               (color = (0, 0, 255) <->
                sum_ints (map entries cs) < sum_ints (map exits cs)) /\
               (color = (0, 255, 0) <->
                sum_ints (map exits cs) <= sum_ints (map entries cs))).
  { intros combined. unfold add_info_panel, create_dashboard. cbv zeta.
    destruct (Z.geb_spec (sum_ints (map entries cs) - sum_ints (map exits cs)) 0).
    - exists (0, 255, 0). split; [reflexivity|].
      split; split; try discriminate; try reflexivity; lia.
    - exists (0, 0, 255). split; [reflexivity|].
      split; split; try discriminate; try reflexivity; lia. }
  destruct fs as [|f2 [|f3 rest]]; cbn [create_dashboard_picture].
  - destruct (H (Frame f)) as (color & -> & Hc). eauto.
  - destruct (H (hstack (Frame f) (Frame f2))) as (color & -> & Hc). eauto.
  - destruct (H (vstack (hstack (Frame f) (Frame f2))
                        (hstack (Frame f3) (zeros_like (Frame f3)))))
      as (color & -> & Hc). eauto.
Qed.
End Dashboard.

(** ** The further properties at concrete inputs of door 1 *)

Section Witnesses2.
Import PyDict PyDictFacts.

(** The debounce window is exact: a track that crossed is not counted on
    the 14 ticks that follow, and is on the 15th. *)
Example debounce_window_is_sharp :
  let s := fst (run door1 [[(100, 230)]; [(100, 250)]]) in
  let bounce := [[(100, 230)]; [(100, 250)]] in
  let fourteen := bounce ++ bounce ++ bounce ++ bounce ++ bounce ++ bounce ++ bounce in
  entries s = 1 /\
  crossings_of 0 (snd (run s fourteen)) = [] /\
  crossings_of 0 (snd (run s (fourteen ++ [[(100, 230)]]))) = [ExitDetected 0 1].
Proof. vm_compute. repeat split. Qed.

Lemma ids_consecutive_witness :
  let ticks := [[(100, 100); (400, 300)]; [(100, 300)]] in
  reachable door1 door1 /\
  created (snd (run door1 ticks)) = [0; 1; 2] /\
  keys (tracked_people (fst (run door1 ticks))) = [0; 1; 2] /\
  created (snd (run door1 ticks)) =
    ids_from (next_id door1) (List.length (created (snd (run door1 ticks)))).
Proof.
  intros ticks. split; [apply reach_start|].
  split; [reflexivity|]. split; [reflexivity|].
  exact (proj1 (proj1 (ids_consecutive _ _ _ _ door1 ticks (reach_start _)))).
Defined.

Lemma registry_in_id_order_witness :
  let s := after (update_tracking door1 [(0, 0); (100, 0)]) in
  reachable door1 s /\ StronglySorted Z.lt (keys (tracked_people s)).
Proof.
  intros s.
  assert (Hr : reachable door1 s) by apply reach_update, reach_start.
  split; [exact Hr|].
  exact (proj1 (registry_in_id_order _ _ _ _ s Hr)).
Defined.

Lemma tracks_consistent_witness :
  let s := after (update_tracking door1 [(100, 250)]) in
  reachable door1 s /\
  get 0 (tracked_people s) = Some (mkTrack (100, 250) bottom 999 0) /\
  last_side (mkTrack (100, 250) bottom 999 0) = get_side s 250.
Proof.
  intros s.
  assert (Hr : reachable door1 s) by apply reach_update, reach_start.
  split; [exact Hr|]. split; [reflexivity|].
  exact (proj1 (tracks_consistent _ _ _ _ s 0 _ Hr eq_refl)).
Defined.

Lemma ties_go_to_oldest_witness :
  let s0 := after (update_tracking door1 [(0, 0); (100, 0)]) in
  let s := st (detect_all s0 []) in
  reachable door1 s0 /\
  find_match s (50, 0) = Some 0 /\
  get 0 (tracked_people s) = Some (mkTrack (0, 0) top 1000 1) /\
  get 1 (tracked_people s) = Some (mkTrack (100, 0) top 1000 1) /\
  0 <= 1.
Proof.
  intros s0 s.
  assert (Hr : reachable door1 s0) by apply reach_update, reach_start.
  split; [exact Hr|]. split; [reflexivity|]. split; [reflexivity|].
  split; [reflexivity|].
  apply (ties_go_to_oldest _ _ _ _ s0 [] (50, 0) 0 (mkTrack (0, 0) top 1000 1)
                           1 (mkTrack (100, 0) top 1000 1) Hr);
    [reflexivity | reflexivity | reflexivity |].
  apply dist_le_dist. vm_compute. discriminate.
Defined.

Lemma debounce_window_witness :
  let s := fst (run door1 [[(100, 230)]; [(100, 250)]]) in
  let ticks := [[(100, 230)]; [(100, 250)]; [(100, 230)]] in
  reachable door1 s /\
  get 0 (tracked_people s) = Some (mkTrack (100, 250) bottom 0 0) /\
  crossings_of 0 (snd (run s ticks)) = [].
Proof.
  intros s ticks.
  assert (Hr : reachable door1 s)
    by apply reach_update, reach_update, reach_start.
  split; [exact Hr|]. split; [reflexivity|].
  exact (proj2 (debounce_window _ _ _ _ s 0 (mkTrack (100, 250) bottom 0 0)
                                ticks Hr eq_refl
                                ltac:(vm_compute; reflexivity))).
Defined.

Lemma unseen_track_only_ages_witness :
  let s := after (update_tracking door1 [(100, 100)]) in
  let ticks := repeat [(500, 400)] 3 in
  reachable door1 s /\
  unmatched 0 s ticks = true /\
  get 0 (tracked_people (fst (run s ticks))) =
  Some (mkTrack (100, 100) top (999 + 3) (0 + 3)).
Proof.
  intros s ticks.
  assert (Hr : reachable door1 s) by apply reach_update, reach_start.
  split; [exact Hr|]. split; [reflexivity|].
  exact (unseen_track_only_ages _ _ _ _ s 0 (mkTrack (100, 100) top 999 0)
                                ticks Hr eq_refl eq_refl
                                ltac:(vm_compute; reflexivity)).
Defined.

Lemma no_detection_tick_witness :
  let s := after (update_tracking door1 [(100, 100)]) in
  reachable door1 s /\ entries (after (update_tracking s [])) = entries s.
Proof.
  intros s.
  assert (Hr : reachable door1 s) by apply reach_update, reach_start.
  split; [exact Hr|].
  exact (proj1 (proj2 (no_detection_tick _ _ _ _ s Hr))).
Defined.

Lemma every_detection_gets_a_track_witness :
  let l := [(100, 100); (400, 300); (100, 120)] in
  reachable door1 door1 /\ map pos (dicts (update_tracking door1 l)) = l.
Proof.
  intros l. split; [apply reach_start|].
  exact (proj1 (every_detection_gets_a_track _ _ _ _ door1 l (reach_start _))).
Defined.

Lemma reset_like_new_witness :
  let s := fst (run door1 [[(100, 230)]; [(100, 250)]]) in
  let ticks := [[(100, 230)]; [(100, 250)]] in
  reachable door1 s /\
  entries (fst (run (reset s) ticks)) = entries (fst (run door1 ticks)).
Proof.
  intros s ticks.
  assert (Hr : reachable door1 s)
    by apply reach_update, reach_update, reach_start.
  split; [exact Hr|].
  destruct (reset_like_new _ _ _ _ s ticks Hr) as (_ & He & _).
  exact He.
Defined.

Lemma process_frame_skips_witness :
  reachable door1 door1 /\
  frame_count (fst (fst (fst (process_frame door1 (Some (100, 100)))))) = 1.
Proof.
  split; [apply reach_start|].
  pose proof (process_frame_skips _ _ _ _ door1 (Some (100, 100))
                                  (reach_start _)) as H.
  destruct (process_frame door1 (Some (100, 100))) as [[[s' ps] out] total].
  exact (proj1 H).
Defined.

Lemma reset_key_resets_all_witness :
  let m := mkMonitor [("Door 1"%string,
                       fst (run door1 [[(100, 230)]; [(100, 250)]]))] 0 in
  handle_key 114 = ResetAll /\
  status_total (map snd (counters (fst (fst (iteration m (fun _ => None) 114)))))
  = 0.
Proof.
  intros m. split; [reflexivity|].
  pose proof (reset_key_resets_all m (fun _ => None) 114 eq_refl) as H.
  destruct (iteration m (fun _ => None) 114) as [[m' out] stop].
  exact (proj1 (proj2 (proj2 (proj2 H)))).
Defined.

Lemma quit_key_stops_witness :
  let m := mkMonitor [("Door 1"%string, door1)] 0 in
  let pre := [((fun _ : string => Some (Some (100, 100))), -1);
              ((fun _ : string => Some (Some (100, 100))), 114)] in
  Forall (fun rk => handle_key (snd rk) <> Quit) pre /\
  snd (main_loop m pre) = false.
Proof.
  intros m pre.
  assert (H : Forall (fun rk => handle_key (snd rk) <> Quit) pre)
    by (repeat constructor; vm_compute; discriminate).
  split; [exact H|].
  exact (proj1 (proj2 (quit_key_stops m pre (fun _ => None) 113 [] H))).
Defined.
End Witnesses2.
